(** * The file-search walker ([FileWalker]) of the search engine

    A shallow embedding of [FileWalker] and [Engine] (the file walker that
    enumerates matching files under a set of root folders), followed by the
    properties of the walk.

    The walker is written in continuation-passing style over a
    single-threaded event loop: every [fs] call returns at once and its
    callback runs later, atomically, in an order the walker does not
    control.  The embedding keeps this shape.  A search in flight is the
    walker's mutable fields, the log of what it did to the outside world,
    and the tree of [flow.parallel] joins whose leaves are the [fs] calls
    still awaiting their callback.  One step runs one callback to its end;
    a schedule picks, step by step, which callback runs next or calls
    [cancel()].  Properties are proved for every schedule. *)

From Stdlib Require Import ZArith Lia Ascii String DecimalString.
From stdpp Require Import base decidable option list list_numbers strings gmap.

Open Scope string_scope.
Open Scope list_scope.

(** ** Collaborators *)

(** An [Error] value is identified by its message. *)
Definition Error := string.

(** Outcome handed to a node-style callback [(error, value) => ...]. *)
Inductive Outcome (A : Type) :=
| Ok (value : A)
| Fail (error : Error).
Arguments Ok {A} value.
Arguments Fail {A} error.

(** The two queries the walker makes on an [fs.Stats] object. *)
Record Stats := {
  isDirectory : bool;
  isSymbolicLink : bool
}.

(** What the walker uses and this file does not define: node's [fs] and
    [path], and the [glob] and [filters] modules.  [IExpression] is the type
    of glob expressions; [glob_match e p s] is [glob.match(e, p, s)] where
    the expression may be [undefined] ([None]) and the sibling list may be
    omitted ([None]). *)
Record Host := {
  IExpression : Type;
  fs_stat : string -> Outcome Stats;
  fs_lstat : string -> Outcome Stats;
  fs_realpath : string -> Outcome string;
  extfs_readdir : string -> Outcome (list string);
  glob_match : option IExpression -> string -> option (list string) -> bool;
  filters_matchesFuzzy : string -> string -> bool -> option (list (nat * nat));
  paths_sep : string;
  paths_isAbsolute : string -> bool;
  paths_join : string -> string -> string;
  paths_basename : string -> string
}.

(** ** String helpers *)

(** Modelled from the spec: [strings.replaceAll], used by the constructor
    so that the file pattern is "internally normalized to use [/] as
    separator"; both arguments are single characters at the only call. *)
Fixpoint strings_replaceAll (haystack : string) (needle replacement : ascii) : string :=
  match haystack with
  | EmptyString => EmptyString
  | String c rest =>
      String (if Ascii.eqb c needle then replacement else c)
             (strings_replaceAll rest needle replacement)
  end.

Fixpoint strings_ltrim (haystack : string) (needle : ascii) : string :=
  match haystack with
  | EmptyString => EmptyString
  | String c rest =>
      if Ascii.eqb c needle then strings_ltrim rest needle else haystack
  end.

Fixpoint string_rev_onto (s acc : string) : string :=
  match s with
  | EmptyString => acc
  | String c rest => string_rev_onto rest (String c acc)
  end.

Definition strings_rtrim (haystack : string) (needle : ascii) : string :=
  string_rev_onto (strings_ltrim (string_rev_onto haystack "") needle) "".

(** Modelled from the spec: [strings.trim], "trimming leading/trailing
    separators"; the needle is the single character [/] at the only call. *)
Definition strings_trim (haystack : string) (needle : ascii) : string :=
  strings_rtrim (strings_ltrim haystack needle) needle.

(** [s.indexOf(sub) >= 0] *)
Definition indexOf_found (s sub : string) : bool :=
  match String.index 0 sub s with
  | Some _ => true
  | None => false
  end.

(** JavaScript truthiness of an optional string and of an optional number. *)
Definition truthy_string (s : option string) : bool :=
  match s with
  | Some EmptyString => false
  | Some _ => true
  | None => false
  end.

Definition truthy_number (n : option Z) : bool :=
  match n with
  | Some z => negb (z =? 0)%Z
  | None => false
  end.

(** The value of an optional string or number where the code has already
    found it truthy. *)
Definition string_of (s : option string) : string :=
  match s with Some x => x | None => "" end.

Definition number_of (n : option Z) : Z :=
  match n with Some z => z | None => 0%Z end.

(** ** Data model *)

Section Walker.

Variable host : Host.

Record IRawSearch := {
  cfg_rootFolders : list string;
  cfg_extraFiles : option (list string);
  cfg_filePattern : option string;
  cfg_excludePattern : option (IExpression host);
  cfg_includePattern : option (IExpression host);
  cfg_maxResults : option Z
}.

(** Where an [onResult] call is made.  The callback itself only receives the
    path; the call site is kept in the log to tell the emissions apart. *)
Inductive Origin :=
| AbsoluteFastPath   (* walk: [onResult({ path: this.filePattern })] *)
| RelativeFastPath   (* walk: [onResult({ path: match })] *)
| ViaMatchFile.      (* matchFile: [onResult({ path: absolutePath })] *)

Inductive FsOp := OpStat | OpLstat | OpReaddir | OpRealpath.

(** What the walker does, newest first in the log: the calls it makes to the
    outside world, and the points where it marks a directory as walked and
    goes on to read it. *)
Inductive Event :=
| OnResult (origin : Origin) (path : string)
| FsCall (op : FsOp) (path : string)
| Recurse (realpath currentPath : string)   (* [this.walkedPaths[realpath] = true] *)
| OnDone (error : option Error) (isLimitHit : bool).

(** The fields of [FileWalker], and the log of its effects. *)
Record FileWalker := {
  config : IRawSearch;
  filePattern : option string;
  excludePattern : option (IExpression host);
  includePattern : option (IExpression host);
  maxResults : option Z;
  isLimitHit : bool;
  resultCount : Z;
  isCanceled : bool;
  searchInPath : bool;
  walkedPaths : gset string;
  log : list Event
}.

Definition set_isLimitHit (b : bool) (w : FileWalker) : FileWalker :=
  {| config := config w; filePattern := filePattern w;
     excludePattern := excludePattern w; includePattern := includePattern w;
     maxResults := maxResults w; isLimitHit := b;
     resultCount := resultCount w; isCanceled := isCanceled w;
     searchInPath := searchInPath w; walkedPaths := walkedPaths w;
     log := log w |}.

Definition set_resultCount (n : Z) (w : FileWalker) : FileWalker :=
  {| config := config w; filePattern := filePattern w;
     excludePattern := excludePattern w; includePattern := includePattern w;
     maxResults := maxResults w; isLimitHit := isLimitHit w;
     resultCount := n; isCanceled := isCanceled w;
     searchInPath := searchInPath w; walkedPaths := walkedPaths w;
     log := log w |}.

Definition set_isCanceled (b : bool) (w : FileWalker) : FileWalker :=
  {| config := config w; filePattern := filePattern w;
     excludePattern := excludePattern w; includePattern := includePattern w;
     maxResults := maxResults w; isLimitHit := isLimitHit w;
     resultCount := resultCount w; isCanceled := b;
     searchInPath := searchInPath w; walkedPaths := walkedPaths w;
     log := log w |}.

Definition set_walkedPaths (s : gset string) (w : FileWalker) : FileWalker :=
  {| config := config w; filePattern := filePattern w;
     excludePattern := excludePattern w; includePattern := includePattern w;
     maxResults := maxResults w; isLimitHit := isLimitHit w;
     resultCount := resultCount w; isCanceled := isCanceled w;
     searchInPath := searchInPath w; walkedPaths := s;
     log := log w |}.

Definition emit (e : Event) (w : FileWalker) : FileWalker :=
  {| config := config w; filePattern := filePattern w;
     excludePattern := excludePattern w; includePattern := includePattern w;
     maxResults := maxResults w; isLimitHit := isLimitHit w;
     resultCount := resultCount w; isCanceled := isCanceled w;
     searchInPath := searchInPath w; walkedPaths := walkedPaths w;
     log := e :: log w |}.

(** [constructor(config)] *)
Definition new_FileWalker (cfg : IRawSearch) : FileWalker :=
  let normalize :=
    truthy_string (cfg_filePattern cfg)
    && indexOf_found (string_of (cfg_filePattern cfg)) (paths_sep host) in
  {| config := cfg;
     filePattern :=
       if normalize
       then Some (strings_replaceAll (string_of (cfg_filePattern cfg)) "\"%char "/"%char)
       else cfg_filePattern cfg;
     excludePattern := cfg_excludePattern cfg;
     includePattern := cfg_includePattern cfg;
     maxResults := if truthy_number (cfg_maxResults cfg) then cfg_maxResults cfg else None;
     isLimitHit := false;
     resultCount := 0;
     isCanceled := false;
     searchInPath := normalize;
     walkedPaths := ∅;
     log := [] |}.

(** [cancel()] *)
Definition cancel (w : FileWalker) : FileWalker := set_isCanceled true w.

(** ** File matching *)

(** [isFilePatternMatch(name, path)] *)
Definition isFilePatternMatch (w : FileWalker) (name path : string) : bool :=
  if truthy_string (filePattern w) then
    match filters_matchesFuzzy host (string_of (filePattern w)) path true with
    | Some res => (0 <? length res)%nat
    | None => false
    end
  else true.

(** The test at the head of [matchFile]: the file pattern, then the include
    pattern when there is one. *)
Definition file_match_test (w : FileWalker) (basename relativePath : string) : bool :=
  isFilePatternMatch w basename relativePath
  && (negb (bool_decide (is_Some (includePattern w)))
      || glob_match host (includePattern w) relativePath None).

(** [matchFile(onResult, basename, absolutePath, relativePath)] *)
Definition matchFile (basename absolutePath relativePath : string)
    (w : FileWalker) : FileWalker :=
  if isFilePatternMatch w basename relativePath
     && (negb (bool_decide (is_Some (includePattern w)))
         || glob_match host (includePattern w) relativePath None)
  then
    let w1 := set_resultCount (resultCount w + 1) w in
    let w2 :=
      if truthy_number (maxResults w1)
         && (number_of (maxResults w1) <? resultCount w1)%Z
      then set_isLimitHit true w1 else w1 in
    if negb (isLimitHit w2) then emit (OnResult ViaMatchFile absolutePath) w2 else w2
  else w.

(** ** The work in flight *)

(** The variables an entry callback of [doWalk] closes over. *)
Record Entry := {
  absolutePath : string;
  relativeParentPath : string;
  files : list string;
  file : string
}.

(** [strings.trim([relativeParentPath, file].join('/'), '/')] *)
Definition relativeFilePath (e : Entry) : string :=
  strings_trim (relativeParentPath e ++ "/" ++ file e)%string "/"%char.

(** [paths.join(absolutePath, file)] *)
Definition currentPath (e : Entry) : string :=
  paths_join host (absolutePath e) (file e).

(** An [fs] call whose callback has not run yet, with what the callback
    closes over. *)
Inductive Pending :=
| RootReaddir (root : string)
    (* walk: [extfs.readdir(absolutePath, ...)] *)
| RelativeStat (root : string) (rootFiles : list string) (candidate : string)
    (* checkFilePatternRelativeMatch: [fs.stat(absolutePath, ...)] *)
| Lstat (e : Entry)
    (* doWalk: [fs.lstat(currentPath, ...)] *)
| Realpath (e : Entry)
    (* realPathIfNeeded: [fs.realpath(path, ...)] *)
| Readdir (e : Entry).
    (* doWalk: [extfs.readdir(currentPath, ...)] *)

(** One slot of a [flow.parallel] call: its callback has been called with
    an error or [null], or an [fs] call is in flight, or it waits for the
    [flow.parallel] of a nested [doWalk]. *)
#[warnings="-register-all"]
Inductive Branch :=
| Settled (error : option Error)
| Await (io : Pending)
| Par (slots : list Branch).

Definition settled (b : Branch) : option (option Error) :=
  match b with
  | Settled error => Some error
  | _ => None
  end.

(** Modelled from the spec: [flow.parallel(list, fn, callback)] runs [fn] on
    every item at once and is "a join point [that] waits for all spawned
    units before proceeding"; the errors of the units "are collected" by
    position, and the final callback receives the collected array when some
    unit failed and [null] otherwise.  [flow_parallel] is the synchronous
    loop over the items; [parallel_outcome] is the argument of the final
    callback once every slot has called back. *)
Fixpoint flow_parallel {T : Type} (fn : T -> FileWalker -> FileWalker * Branch)
    (items : list T) (w : FileWalker) : FileWalker * list Branch :=
  match items with
  | [] => (w, [])
  | item :: rest =>
      let '(w1, b) := fn item w in
      let '(w2, bs) := flow_parallel fn rest w1 in
      (w2, b :: bs)
  end.

Definition parallel_outcome (slots : list Branch)
    : option (option (list (option Error))) :=
  match mapM settled slots with
  | Some errors =>
      Some (if existsb (fun e => bool_decide (is_Some e)) errors
            then Some errors else None)
  | None => None
  end.

(** The final callback of [doWalk]: [arrays.coalesce] drops the [null]s,
    then [done(error && error.length > 0 ? error[0] : null, null)]. *)
Definition doWalk_done (error : option (list (option Error))) : option Error :=
  match error with
  | Some errors => head (omap id errors)
  | None => None
  end.

(** A [doWalk] in flight, or its [done] already called. *)
Definition join_doWalk (slots : list Branch) : Branch :=
  match parallel_outcome slots with
  | Some error => Settled (doWalk_done error)
  | None => Par slots
  end.

Definition stopped (w : FileWalker) : bool := isCanceled w || isLimitHit w.

(** The body of [doWalk]'s per-entry function up to the [fs.lstat] call. *)
Definition doWalk_entry (absolutePath relativeParentPath : string)
    (files : list string) (file : string) (w : FileWalker)
    : FileWalker * Branch :=
  let e := {| absolutePath := absolutePath;
              relativeParentPath := relativeParentPath;
              files := files; file := file |} in
  if stopped w then (w, Settled None)
  else
    let siblings :=
      if bool_decide (cfg_filePattern (config w) = Some file) then [] else files in
    if glob_match host (excludePattern w) (relativeFilePath e) (Some siblings)
    then (w, Settled None)
    else (emit (FsCall OpLstat (currentPath e)) w, Await (Lstat e)).

(** [doWalk(absolutePath, relativeParentPath, files, onResult, done)] *)
Definition doWalk (absolutePath relativeParentPath : string)
    (files : list string) (w : FileWalker) : FileWalker * Branch :=
  let '(w', slots) :=
    flow_parallel (doWalk_entry absolutePath relativeParentPath files) files w in
  (w', join_doWalk slots).

(** The callback given to [realPathIfNeeded] in [doWalk]. *)
Definition after_realpath (e : Entry) (r : Outcome string) (w : FileWalker)
    : FileWalker * Branch :=
  match r with
  | Fail _ => (w, Settled None)
  | Ok realpath =>
      if stopped w then (w, Settled None)
      else if bool_decide (realpath ∈ walkedPaths w) then (w, Settled None)
      else
        let w1 := set_walkedPaths ({[realpath]} ∪ walkedPaths w) w in
        let w2 := emit (Recurse realpath (currentPath e)) w1 in
        (emit (FsCall OpReaddir (currentPath e)) w2, Await (Readdir e))
  end.

(** [realPathIfNeeded(path, lstat, clb)] *)
Definition realPathIfNeeded (e : Entry) (lstat : Stats) (w : FileWalker)
    : FileWalker * Branch :=
  if isSymbolicLink lstat
  then (emit (FsCall OpRealpath (currentPath e)) w, Await (Realpath e))
  else after_realpath e (Ok (currentPath e)) w.

(** The callback of [fs.lstat] in [doWalk]. *)
Definition after_lstat (e : Entry) (r : Outcome Stats) (w : FileWalker)
    : FileWalker * Branch :=
  match r with
  | Fail _ => (w, Settled None)
  | Ok lstat =>
      if stopped w then (w, Settled None)
      else if isDirectory lstat then realPathIfNeeded e lstat w
      else if bool_decide (Some (relativeFilePath e) = filePattern w)
      then (w, Settled None)
      else (matchFile (file e) (currentPath e) (relativeFilePath e) w, Settled None)
  end.

(** The callback of [extfs.readdir] in [doWalk]. *)
Definition after_readdir (e : Entry) (r : Outcome (list string))
    (w : FileWalker) : FileWalker * Branch :=
  match r with
  | Fail _ => (w, Settled None)
  | Ok children =>
      if stopped w then (w, Settled None)
      else doWalk (currentPath e) (relativeFilePath e) children w
  end.

(** The callback given to [checkFilePatternRelativeMatch] in [walk]. *)
Definition after_relative_match (root : string) (rootFiles : list string)
    (matchPath : option string) (w : FileWalker) : FileWalker * Branch :=
  if stopped w then (w, Settled None)
  else
    let w1 :=
      match matchPath with
      | Some m => emit (OnResult RelativeFastPath m) w
      | None => w
      end in
    doWalk root "" rootFiles w1.

(** [checkFilePatternRelativeMatch(basePath, clb)] *)
Definition checkFilePatternRelativeMatch (basePath : string)
    (rootFiles : list string) (w : FileWalker) : FileWalker * Branch :=
  if negb (truthy_string (filePattern w))
     || paths_isAbsolute host (string_of (filePattern w))
     || negb (searchInPath w)
  then after_relative_match basePath rootFiles None w
  else
    let candidate := paths_join host basePath (string_of (filePattern w)) in
    (emit (FsCall OpStat candidate) w, Await (RelativeStat basePath rootFiles candidate)).

(** [!error && !stat.isDirectory()] *)
Definition existing_file (r : Outcome Stats) : bool :=
  match r with
  | Ok stat => negb (isDirectory stat)
  | Fail _ => false
  end.

(** The callback of the root folder's [extfs.readdir] in [walk]. *)
Definition after_root_readdir (root : string) (r : Outcome (list string))
    (w : FileWalker) : FileWalker * Branch :=
  match r with
  | Fail _ => (w, Settled None)
  | Ok rootFiles =>
      if stopped w then (w, Settled None)
      else checkFilePatternRelativeMatch root rootFiles w
  end.

(** Running the callback of a completed [fs] call. *)
Definition resume (io : Pending) (w : FileWalker) : FileWalker * Branch :=
  match io with
  | RootReaddir root => after_root_readdir root (extfs_readdir host root) w
  | RelativeStat root rootFiles candidate =>
      after_relative_match root rootFiles
        (if existing_file (fs_stat host candidate) then Some candidate else None) w
  | Lstat e => after_lstat e (fs_lstat host (currentPath e)) w
  | Realpath e => after_realpath e (fs_realpath host (currentPath e)) w
  | Readdir e => after_readdir e (extfs_readdir host (currentPath e)) w
  end.

(** The callback at position [path] of the tree runs; the joins above it
    complete when theirs was the last slot. *)
Fixpoint fire (path : list nat) (b : Branch) (w : FileWalker)
    : option (FileWalker * Branch) :=
  match path, b with
  | [], Await io => Some (resume io w)
  | i :: path', Par slots =>
      match slots !! i with
      | Some slot =>
          match fire path' slot w with
          | Some (w', slot') => Some (w', join_doWalk (<[i:=slot']> slots))
          | None => None
          end
      | None => None
      end
  | _, _ => None
  end.

(** ** The search as a whole *)

Inductive Search :=
| AbsoluteStat (rootFolders : list string) (extraFiles : option (list string))
    (* checkFilePatternAbsoluteMatch: [fs.stat(this.filePattern, ...)] *)
| Roots (slots : list Branch)
    (* the [flow.parallel] over the root folders *)
| Finished.

Record State := {
  walker : FileWalker;
  search : Search
}.

(** The final callback of the [flow.parallel] over the root folders:
    [done(err ? err[0] : null, this.isLimitHit)]. *)
Definition walk_done (error : option (list (option Error))) : option Error :=
  match error with
  | Some errors => mjoin (head errors)
  | None => None
  end.

Definition join_roots (slots : list Branch) (w : FileWalker) : State :=
  match parallel_outcome slots with
  | Some error =>
      {| walker := emit (OnDone (walk_done error) (isLimitHit w)) w;
         search := Finished |}
  | None => {| walker := w; search := Roots slots |}
  end.

(** The per-extra-file function of [walk]. *)
Definition extraFile (extraFilePath : string) (w : FileWalker) : FileWalker :=
  if glob_match host (excludePattern w) extraFilePath None then w
  else matchFile (paths_basename host extraFilePath) extraFilePath extraFilePath w.

(** The per-root function of [walk] up to the [extfs.readdir] call. *)
Definition walk_root (root : string) (w : FileWalker) : FileWalker * Branch :=
  (emit (FsCall OpReaddir root) w, Await (RootReaddir root)).

(** The callback given to [checkFilePatternAbsoluteMatch] in [walk]. *)
Definition after_absolute_match (rootFolders : list string)
    (extraFiles : option (list string)) (exists_ : bool) (w : FileWalker)
    : State :=
  if isCanceled w
  then {| walker := emit (OnDone None (isLimitHit w)) w; search := Finished |}
  else if exists_
  then
    let w1 := emit (OnResult AbsoluteFastPath (string_of (filePattern w))) w in
    {| walker := emit (OnDone None (isLimitHit w1)) w1; search := Finished |}
  else
    let w1 := foldl (fun w f => extraFile f w) w (default [] extraFiles) in
    let '(w2, slots) := flow_parallel walk_root rootFolders w1 in
    join_roots slots w2.

(** [checkFilePatternAbsoluteMatch(clb)], where [clb] is the callback that
    [walk] gives it: it answers [false] at once, or asks [fs.stat]. *)
Definition checkFilePatternAbsoluteMatch (rootFolders : list string)
    (extraFiles : option (list string)) (w : FileWalker) : State :=
  if negb (truthy_string (filePattern w))
     || negb (paths_isAbsolute host (string_of (filePattern w)))
  then after_absolute_match rootFolders extraFiles false w
  else
    {| walker := emit (FsCall OpStat (string_of (filePattern w))) w;
       search := AbsoluteStat rootFolders extraFiles |}.

(** [walk(rootFolders, extraFiles, onResult, done)] *)
Definition walk (rootFolders : list string) (extraFiles : option (list string))
    (w : FileWalker) : State :=
  checkFilePatternAbsoluteMatch rootFolders extraFiles w.

(** [new Engine(config).search(onResult, onProgress, done)] *)
Definition Engine_search (cfg : IRawSearch) : State :=
  walk (cfg_rootFolders cfg) (cfg_extraFiles cfg) (new_FileWalker cfg).

(** What can happen next: the callback at a position of the tree runs (the
    empty position is the [fs.stat] of the absolute check), or the caller
    calls [Engine.cancel()]. *)
Inductive Choice :=
| Callback (path : list nat)
| CallCancel.

Definition step (c : Choice) (s : State) : option State :=
  match c with
  | CallCancel =>
      Some {| walker := cancel (walker s); search := search s |}
  | Callback path =>
      match search s, path with
      | AbsoluteStat rootFolders extraFiles, [] =>
          Some (after_absolute_match rootFolders extraFiles
                  (existing_file (fs_stat host (string_of (filePattern (walker s)))))
                  (walker s))
      | Roots slots, i :: path' =>
          match slots !! i with
          | Some slot =>
              match fire path' slot (walker s) with
              | Some (w', slot') => Some (join_roots (<[i:=slot']> slots) w')
              | None => None
              end
          | None => None
          end
      | _, _ => None
      end
  end.

(** Running a schedule; a choice that names no callback in flight is
    skipped. *)
Fixpoint run (schedule : list Choice) (s : State) : State :=
  match schedule with
  | [] => s
  | c :: rest =>
      match step c s with
      | Some s' => run rest s'
      | None => run rest s
      end
  end.

(** ** Reading the log *)

Definition is_result (e : Event) : bool :=
  match e with OnResult _ _ => true | _ => false end.

Definition is_matched (e : Event) : bool :=
  match e with OnResult ViaMatchFile _ => true | _ => false end.

Definition is_fsCall (e : Event) : bool :=
  match e with FsCall _ _ => true | _ => false end.

Definition is_done (e : Event) : bool :=
  match e with OnDone _ _ => true | _ => false end.

Definition result_path (e : Event) : option string :=
  match e with OnResult _ path => Some path | _ => None end.

Definition matched_path (e : Event) : option string :=
  match e with OnResult ViaMatchFile path => Some path | _ => None end.

(** The paths given to [onResult], oldest first. *)
Definition delivered (w : FileWalker) : list string :=
  reverse (omap result_path (log w)).

(** The paths given to [onResult] by [matchFile], oldest first. *)
Definition delivered_by_matchFile (w : FileWalker) : list string :=
  reverse (omap matched_path (log w)).

(** The arguments of the calls of [done], oldest first. *)
Definition done_calls (w : FileWalker) : list (option Error * bool) :=
  reverse (omap (fun e => match e with
                          | OnDone error limit => Some (error, limit)
                          | _ => None
                          end) (log w)).

(** ** How the walker's fields change *)

(** Every update of the walker made while walking is one of these. *)
Inductive work : FileWalker -> FileWalker -> Prop :=
| work_matchFile basename absolutePath relativePath w :
    work w (matchFile basename absolutePath relativePath w)
| work_fsCall op path w :
    op <> OpReaddir ->
    work w (emit (FsCall op path) w)
| work_recurse realpath current w :
    realpath ∉ walkedPaths w ->
    stopped w = false ->
    work w (emit (FsCall OpReaddir current)
              (emit (Recurse realpath current)
                 (set_walkedPaths ({[realpath]} ∪ walkedPaths w) w)))
| work_fastPath origin path w :
    origin <> ViaMatchFile ->
    isCanceled w = false ->
    work w (emit (OnResult origin path) w).

(** Every update of the walker during a search: the above, the reading of
    a root folder, the call of [done], and [cancel()]. *)
Inductive prim : FileWalker -> FileWalker -> Prop :=
| prim_work w w' : work w w' -> prim w w'
| prim_rootReaddir root w : prim w (emit (FsCall OpReaddir root) w)
| prim_done error w : prim w (emit (OnDone error (isLimitHit w)) w)
| prim_cancel w : prim w (cancel w).

Definition toils : relation FileWalker := rtc work.
Definition evolves : relation FileWalker := rtc prim.

Lemma toils_refl w : toils w w.
Proof. apply rtc_refl. Qed.

Lemma toils_once w w' : work w w' -> toils w w'.
Proof. apply rtc_once. Qed.

Lemma toils_trans w1 w2 w3 : toils w1 w2 -> toils w2 w3 -> toils w1 w3.
Proof. apply (@rtc_trans _ work). Qed.

Lemma evolves_refl w : evolves w w.
Proof. apply rtc_refl. Qed.

Lemma evolves_once w w' : prim w w' -> evolves w w'.
Proof. apply rtc_once. Qed.

Lemma evolves_trans w1 w2 w3 : evolves w1 w2 -> evolves w2 w3 -> evolves w1 w3.
Proof. apply (@rtc_trans _ prim). Qed.

Lemma toils_evolves w w' : toils w w' -> evolves w w'.
Proof.
  induction 1 as [|w1 w2 w3 H _ IH]; [apply evolves_refl|].
  eapply evolves_trans; [apply evolves_once, prim_work, H|exact IH].
Qed.

(** A property of the walker kept by every update holds throughout. *)
Lemma toils_invariant (P : FileWalker -> Prop) w w' :
  (forall w w', work w w' -> P w -> P w') -> toils w w' -> P w -> P w'.
Proof. intros Hstep H. induction H; eauto. Qed.

Lemma evolves_invariant (P : FileWalker -> Prop) w w' :
  (forall w w', prim w w' -> P w -> P w') -> evolves w w' -> P w -> P w'.
Proof. intros Hstep H. induction H; eauto. Qed.

Lemma flow_parallel_toils {T} (fn : T -> FileWalker -> FileWalker * Branch) items :
  (forall x w, toils w (fn x w).1) ->
  forall w, toils w (flow_parallel fn items w).1.
Proof.
  intros Hfn. induction items as [|x items IH]; intros w; simpl.
  - apply toils_refl.
  - specialize (Hfn x w). destruct (fn x w) as [w1 b].
    specialize (IH w1). destruct (flow_parallel fn items w1) as [w2 bs].
    simpl in *. eapply toils_trans; eauto.
Qed.

Lemma doWalk_entry_toils a r fs f w : toils w (doWalk_entry a r fs f w).1.
Proof.
  unfold doWalk_entry. destruct (stopped w); [apply toils_refl|].
  destruct (glob_match _ _ _ _); [apply toils_refl|].
  by apply toils_once, work_fsCall.
Qed.

Lemma doWalk_toils a r fs w : toils w (doWalk a r fs w).1.
Proof.
  unfold doWalk.
  pose proof (flow_parallel_toils (doWalk_entry a r fs) fs
                (doWalk_entry_toils a r fs) w) as H.
  destruct (flow_parallel _ fs w) as [w' slots]. exact H.
Qed.

Lemma after_realpath_toils e r w : toils w (after_realpath e r w).1.
Proof.
  unfold after_realpath. destruct r as [realpath|]; [|apply toils_refl].
  destruct (stopped w) eqn:Hs; [apply toils_refl|].
  case_bool_decide as Hin; [apply toils_refl|]. simpl.
  by apply toils_once, work_recurse.
Qed.

Lemma after_lstat_toils e r w : toils w (after_lstat e r w).1.
Proof.
  unfold after_lstat. destruct r as [lstat|]; [|apply toils_refl].
  destruct (stopped w); [apply toils_refl|].
  destruct (isDirectory lstat).
  - unfold realPathIfNeeded. destruct (isSymbolicLink lstat).
    + by apply toils_once, work_fsCall.
    + apply after_realpath_toils.
  - case_bool_decide; [apply toils_refl|]. apply toils_once, work_matchFile.
Qed.

Lemma after_readdir_toils e r w : toils w (after_readdir e r w).1.
Proof.
  unfold after_readdir. destruct r as [children|]; [|apply toils_refl].
  destruct (stopped w); [apply toils_refl|]. apply doWalk_toils.
Qed.

Lemma after_relative_match_toils root rootFiles m w :
  toils w (after_relative_match root rootFiles m w).1.
Proof.
  unfold after_relative_match. destruct (stopped w) eqn:Hs; [apply toils_refl|].
  destruct m as [m|]; [|apply doWalk_toils].
  eapply toils_trans; [|apply doWalk_toils].
  apply toils_once, (work_fastPath RelativeFastPath m w); [discriminate|].
  unfold stopped in Hs. by apply orb_false_iff in Hs as [? _].
Qed.

Lemma after_root_readdir_toils root r w :
  toils w (after_root_readdir root r w).1.
Proof.
  unfold after_root_readdir. destruct r as [rootFiles|]; [|apply toils_refl].
  destruct (stopped w); [apply toils_refl|].
  unfold checkFilePatternRelativeMatch.
  destruct (_ || _); [apply after_relative_match_toils|].
  by apply toils_once, work_fsCall.
Qed.

Lemma resume_toils io w : toils w (resume io w).1.
Proof.
  destruct io; simpl.
  - apply after_root_readdir_toils.
  - apply after_relative_match_toils.
  - apply after_lstat_toils.
  - apply after_realpath_toils.
  - apply after_readdir_toils.
Qed.

Lemma fire_toils path : forall b w w' b',
  fire path b w = Some (w', b') -> toils w w'.
Proof.
  induction path as [|i path IH]; intros b w w' b' H; destruct b; simpl in H;
    try discriminate.
  - injection H as H. pose proof (resume_toils io w) as He.
    by rewrite H in He.
  - destruct (slots !! i) as [slot|]; [|discriminate].
    destruct (fire path slot w) as [[w1 slot']|] eqn:Hf; [|discriminate].
    injection H as <- <-. eauto.
Qed.

Lemma extraFiles_toils extra w :
  toils w (foldl (fun w f => extraFile f w) w extra).
Proof.
  revert w. induction extra as [|f extra IH]; intros w; simpl.
  - apply toils_refl.
  - eapply toils_trans; [|apply IH].
    unfold extraFile. destruct (glob_match _ _ _ _); [apply toils_refl|].
    apply toils_once, work_matchFile.
Qed.

Lemma walk_roots_evolves rootFolders : forall w,
  evolves w (flow_parallel walk_root rootFolders w).1.
Proof.
  induction rootFolders as [|root rest IH]; intros w; simpl; [apply evolves_refl|].
  specialize (IH (emit (FsCall OpReaddir root) w)).
  destruct (flow_parallel walk_root rest _) as [w2 bs]. simpl in *.
  eapply evolves_trans; [apply evolves_once, prim_rootReaddir|exact IH].
Qed.

Lemma join_roots_evolves slots w : evolves w (walker (join_roots slots w)).
Proof.
  unfold join_roots. destruct (parallel_outcome slots); simpl.
  - apply evolves_once, prim_done.
  - apply evolves_refl.
Qed.

Lemma after_absolute_match_evolves rf ef ex w :
  evolves w (walker (after_absolute_match rf ef ex w)).
Proof.
  unfold after_absolute_match. destruct (isCanceled w) eqn:Hc; simpl.
  - apply evolves_once, prim_done.
  - destruct ex; simpl.
    + eapply evolves_trans.
      { apply evolves_once, prim_work.
        apply (work_fastPath AbsoluteFastPath (string_of (filePattern w)) w);
          [discriminate|exact Hc]. }
      apply evolves_once.
      exact (prim_done None
               (emit (OnResult AbsoluteFastPath (string_of (filePattern w))) w)).
    + eapply evolves_trans; [apply toils_evolves, extraFiles_toils|].
      pose proof (walk_roots_evolves rf
                    (foldl (fun w f => extraFile f w) w (default [] ef))) as H.
      destruct (flow_parallel walk_root rf _) as [w2 slots]. simpl in H.
      eapply evolves_trans; [exact H|]. apply join_roots_evolves.
Qed.

Lemma walk_evolves rf ef w : evolves w (walker (walk rf ef w)).
Proof.
  unfold walk, checkFilePatternAbsoluteMatch. destruct (_ || _); simpl.
  - apply after_absolute_match_evolves.
  - by apply evolves_once, prim_work, work_fsCall.
Qed.

Lemma step_evolves c s s' : step c s = Some s' -> evolves (walker s) (walker s').
Proof.
  destruct c as [path|]; simpl.
  - destruct (search s) as [rf ef|slots|]; try discriminate.
    + destruct path; [|discriminate]. intros [= <-].
      apply after_absolute_match_evolves.
    + destruct path as [|i path]; [discriminate|].
      destruct (slots !! i) as [slot|]; [|discriminate].
      destruct (fire path slot (walker s)) as [[w' slot']|] eqn:Hf; [|discriminate].
      intros [= <-].
      eapply evolves_trans; [eapply toils_evolves, fire_toils; eauto|].
      apply join_roots_evolves.
  - intros [= <-]. simpl. apply evolves_once, prim_cancel.
Qed.

Lemma run_evolves schedule : forall s, evolves (walker s) (walker (run schedule s)).
Proof.
  induction schedule as [|c rest IH]; intros s; simpl.
  - apply evolves_refl.
  - destruct (step c s) as [s'|] eqn:Hs; simpl; [|apply IH].
    eapply evolves_trans; [eapply step_evolves; eauto|apply IH].
Qed.

Lemma search_evolves cfg schedule :
  evolves (new_FileWalker cfg) (walker (run schedule (Engine_search cfg))).
Proof.
  eapply evolves_trans; [|apply run_evolves]. apply walk_evolves.
Qed.

(** *** The configuration is fixed *)

Definition same_setup (w w' : FileWalker) : Prop :=
  config w' = config w /\ filePattern w' = filePattern w
  /\ excludePattern w' = excludePattern w
  /\ includePattern w' = includePattern w
  /\ maxResults w' = maxResults w /\ searchInPath w' = searchInPath w.

Lemma matchFile_same_setup bn ap rp w : same_setup w (matchFile bn ap rp w).
Proof.
  unfold matchFile, same_setup. repeat (case_match; simpl); done.
Qed.

Lemma prim_same_setup w w' : prim w w' -> same_setup w w'.
Proof.
  destruct 1 as [w w' [bn ap rp w0| | | ]| | |]; try done.
  apply matchFile_same_setup.
Qed.

Lemma evolves_same_setup w w' : evolves w w' -> same_setup w w'.
Proof.
  induction 1 as [|w1 w2 w3 H _ IH]; [done|].
  apply prim_same_setup in H. unfold same_setup in *.
  destruct H as (?&?&?&?&?&?), IH as (?&?&?&?&?&?). split_and!; congruence.
Qed.

(** *** The log only grows *)

Lemma matchFile_log bn ap rp w :
  log (matchFile bn ap rp w) = log w
  \/ log (matchFile bn ap rp w) = OnResult ViaMatchFile ap :: log w.
Proof. unfold matchFile. repeat (case_match; simpl); auto. Qed.

Lemma work_log w w' : work w w' -> exists new, log w' = new ++ log w.
Proof.
  destruct 1 as [bn ap rp w| | |]; simpl;
    try (by eexists [_]); try (by eexists [_; _]).
  destruct (matchFile_log bn ap rp w) as [->| ->]; [by exists []|by eexists [_]].
Qed.

Lemma prim_log w w' : prim w w' -> exists new, log w' = new ++ log w.
Proof.
  destruct 1 as [w w' H| | |];
    [by apply work_log|by eexists [_]|by eexists [_]|by exists []].
Qed.

Lemma evolves_log w w' : evolves w w' -> exists new, log w' = new ++ log w.
Proof.
  induction 1 as [|w1 w2 w3 H _ [new2 IH]]; [by exists []|].
  destruct (prim_log _ _ H) as [new1 H1].
  exists (new2 ++ new1). by rewrite IH, H1, app_assoc.
Qed.

(** *** Calls of [done] *)

Lemma work_done_calls w w' : work w w' -> done_calls w' = done_calls w.
Proof.
  destruct 1 as [bn ap rp w| | |]; try done.
  unfold done_calls. by destruct (matchFile_log bn ap rp w) as [->| ->].
Qed.

Lemma toils_done_calls w w' : toils w w' -> done_calls w' = done_calls w.
Proof.
  induction 1 as [|w1 w2 w3 H _ IH]; [done|].
  by rewrite IH, (work_done_calls _ _ H).
Qed.

Lemma work_isCanceled w w' : work w w' -> isCanceled w' = isCanceled w.
Proof.
  destruct 1 as [bn ap rp w| | |]; try done.
  unfold matchFile. repeat (case_match; simpl); done.
Qed.

Lemma toils_isCanceled w w' : toils w w' -> isCanceled w' = isCanceled w.
Proof.
  induction 1 as [|w1 w2 w3 H _ IH]; [done|].
  by rewrite IH, (work_isCanceled _ _ H).
Qed.

(** [done] has been called exactly once when the search is finished, with
    the value [isLimitHit] has, and not at all before. *)
Definition done_inv (s : State) : Prop :=
  match search s with
  | Finished =>
      exists error, done_calls (walker s) = [(error, isLimitHit (walker s))]
  | _ => done_calls (walker s) = []
  end.

Lemma done_calls_emit_done error limit w :
  done_calls (emit (OnDone error limit) w) = done_calls w ++ [(error, limit)].
Proof. unfold done_calls. simpl. by rewrite reverse_cons. Qed.

Lemma done_calls_emit_other e w :
  is_done e = false -> done_calls (emit e w) = done_calls w.
Proof. unfold done_calls. by destruct e. Qed.

(** [w'] is [w] with more [fs] calls in its log and nothing else changed. *)
Definition fs_only (w w' : FileWalker) : Prop :=
  exists calls, w' = foldr emit w calls /\ Forall (fun e => is_fsCall e = true) calls.

Lemma fs_only_refl w : fs_only w w.
Proof. by exists []. Qed.

Lemma fs_only_trans w1 w2 w3 : fs_only w1 w2 -> fs_only w2 w3 -> fs_only w1 w3.
Proof.
  intros (c1 & -> & H1) (c2 & -> & H2). exists (c2 ++ c1).
  split; [by rewrite foldr_app|by apply Forall_app].
Qed.

Lemma fs_only_fsCall op path w : fs_only w (emit (FsCall op path) w).
Proof. exists [FsCall op path]. split; [done|]. by repeat constructor. Qed.

Lemma fs_only_log w w' :
  fs_only w w' ->
  exists calls, log w' = calls ++ log w
                /\ Forall (fun e => is_fsCall e = true) calls.
Proof.
  intros (calls & -> & H). exists calls. split; [|done].
  clear H. induction calls as [|c calls IH]; simpl; [done|]. by rewrite IH.
Qed.

Lemma fs_only_fields w w' :
  fs_only w w' ->
  resultCount w' = resultCount w /\ isLimitHit w' = isLimitHit w
  /\ isCanceled w' = isCanceled w /\ walkedPaths w' = walkedPaths w.
Proof.
  intros (calls & -> & _). induction calls as [|c calls IH]; simpl; done.
Qed.

Lemma fs_only_done_calls w w' : fs_only w w' -> done_calls w' = done_calls w.
Proof.
  intros (calls & -> & H). induction H as [|c calls Hc _ IH]; simpl; [done|].
  rewrite done_calls_emit_other; [done|]. by destruct c.
Qed.

Lemma walk_roots_fs_only rootFolders : forall w,
  fs_only w (flow_parallel walk_root rootFolders w).1.
Proof.
  induction rootFolders as [|root rest IH]; intros w; simpl; [apply fs_only_refl|].
  specialize (IH (emit (FsCall OpReaddir root) w)).
  destruct (flow_parallel walk_root rest _) as [w2 bs]. simpl in *.
  eapply fs_only_trans; [apply fs_only_fsCall|exact IH].
Qed.

Lemma join_roots_done_inv slots w :
  done_calls w = [] -> done_inv (join_roots slots w).
Proof.
  intros H. unfold join_roots, done_inv.
  destruct (parallel_outcome slots) as [error|]; simpl; [|done].
  exists (walk_done error). by rewrite done_calls_emit_done, H.
Qed.

Lemma after_absolute_match_done_inv rf ef ex w :
  done_calls w = [] -> done_inv (after_absolute_match rf ef ex w).
Proof.
  intros H. unfold after_absolute_match.
  destruct (isCanceled w).
  { exists None. cbn [walker]. by rewrite done_calls_emit_done, H. }
  destruct ex.
  { exists None. cbn [walker].
    by rewrite done_calls_emit_done, done_calls_emit_other, H. }
  pose proof (extraFiles_toils (default [] ef) w) as H1.
  pose proof (walk_roots_fs_only rf
                (foldl (fun w f => extraFile f w) w (default [] ef))) as H2.
  destruct (flow_parallel walk_root rf _) as [w2 slots]. simpl in H2.
  apply join_roots_done_inv.
  by rewrite (fs_only_done_calls _ _ H2), (toils_done_calls _ _ H1).
Qed.

Lemma step_done_inv c s s' : step c s = Some s' -> done_inv s -> done_inv s'.
Proof.
  destruct c as [path|]; simpl.
  - unfold done_inv at 1.
    destruct (search s) as [rf ef|slots|]; try discriminate.
    + destruct path; [|discriminate]. intros [= <-] H.
      by apply after_absolute_match_done_inv.
    + destruct path as [|i path]; [discriminate|].
      destruct (slots !! i) as [slot|]; [|discriminate].
      destruct (fire path slot (walker s)) as [[w' slot']|] eqn:Hf; [|discriminate].
      intros [= <-] H. apply join_roots_done_inv.
      by rewrite (toils_done_calls _ _ (fire_toils _ _ _ _ _ Hf)).
  - intros [= <-]. unfold done_inv. simpl. by destruct (search s).
Qed.

Lemma run_done_inv schedule : forall s, done_inv s -> done_inv (run schedule s).
Proof.
  induction schedule as [|c rest IH]; intros s H; simpl; [done|].
  destruct (step c s) as [s'|] eqn:Hs; simpl; [|by apply IH].
  apply IH. eapply step_done_inv; eauto.
Qed.

Lemma search_done_inv cfg schedule :
  done_inv (run schedule (Engine_search cfg)).
Proof.
  apply run_done_inv. unfold Engine_search, walk, checkFilePatternAbsoluteMatch.
  destruct (_ || _); [by apply after_absolute_match_done_inv|done].
Qed.

(** *** The result counter *)

(** What [matchFile] keeps true of the counter, the limit flag and its own
    emissions. *)
Definition count_inv (w : FileWalker) : Prop :=
  (0 <= resultCount w)%Z
  /\ maxResults w <> Some 0%Z
  /\ match maxResults w with
     | Some N =>
         isLimitHit w = (N <? resultCount w)%Z && (0 <? resultCount w)%Z
         /\ Z.of_nat (length (delivered_by_matchFile w))
            = Z.max 0 (Z.min (resultCount w) N)
     | None =>
         isLimitHit w = false
         /\ Z.of_nat (length (delivered_by_matchFile w)) = resultCount w
     end.

Lemma delivered_by_matchFile_emit e w :
  delivered_by_matchFile (emit e w)
  = delivered_by_matchFile w ++ option_list (matched_path e).
Proof.
  unfold delivered_by_matchFile. simpl.
  destruct (matched_path e); simpl; [by rewrite reverse_cons|by rewrite app_nil_r].
Qed.

(** [this.maxResults && this.resultCount > this.maxResults], once the
    counter has been incremented. *)
Definition over_limit (w : FileWalker) : bool :=
  truthy_number (maxResults w)
  && (number_of (maxResults w) <? resultCount w + 1)%Z.

Lemma matchFile_pass bn ap rp w :
  file_match_test w bn rp = true ->
  resultCount (matchFile bn ap rp w) = (resultCount w + 1)%Z
  /\ isLimitHit (matchFile bn ap rp w) = over_limit w || isLimitHit w
  /\ log (matchFile bn ap rp w)
     = (if over_limit w || isLimitHit w then log w
        else OnResult ViaMatchFile ap :: log w)
  /\ isCanceled (matchFile bn ap rp w) = isCanceled w
  /\ walkedPaths (matchFile bn ap rp w) = walkedPaths w.
Proof.
  intros H. unfold matchFile. fold (file_match_test w bn rp). rewrite H.
  cbn zeta. change (truthy_number _ && _) with (over_limit w).
  destruct (over_limit w); simpl; [done|]. by destruct (isLimitHit w) eqn:E.
Qed.

Lemma matchFile_fail bn ap rp w :
  file_match_test w bn rp = false -> matchFile bn ap rp w = w.
Proof.
  intros H. unfold matchFile. fold (file_match_test w bn rp). by rewrite H.
Qed.

Lemma matchFile_count_inv bn ap rp w :
  count_inv w -> count_inv (matchFile bn ap rp w).
Proof.
  destruct (file_match_test w bn rp) eqn:Ht;
    [|by rewrite (matchFile_fail _ _ _ _ Ht)].
  destruct (matchFile_pass bn ap rp w Ht) as (Hc & Hl & Hlog & _).
  destruct (matchFile_same_setup bn ap rp w) as (_&_&_&_&Hm&_).
  unfold count_inv, delivered_by_matchFile. rewrite Hc, Hl, Hlog, Hm.
  unfold over_limit. intros (H0 & Hz & H). split; [lia|]. split; [done|].
  destruct (maxResults w) as [N|]; simpl.
  - destruct H as [-> Hd]. assert (N <> 0%Z) by congruence.
    destruct (Z.eqb_spec N 0) as [|_]; [done|]. simpl.
    destruct (Z.ltb_spec N (resultCount w + 1)),
             (Z.ltb_spec N (resultCount w)),
             (Z.ltb_spec 0 (resultCount w + 1)),
             (Z.ltb_spec 0 (resultCount w)); cbn [orb andb];
      rewrite ?length_reverse in *;
      try change (omap matched_path (OnResult ViaMatchFile ap :: log w))
            with (ap :: omap matched_path (log w));
      cbn [length]; first [lia | split; [done|lia]].
  - destruct H as [-> Hd]. cbn [orb]. rewrite ?length_reverse in *.
    change (omap matched_path (OnResult ViaMatchFile ap :: log w))
      with (ap :: omap matched_path (log w)).
    cbn [length]. split; [done|lia].
Qed.

Lemma prim_count_inv w w' : prim w w' -> count_inv w -> count_inv w'.
Proof.
  destruct 1 as [w w' [bn ap rp w0| | |origin path w0 Ho _]| | |]; try done.
  - apply matchFile_count_inv.
  - unfold count_inv. simpl. rewrite delivered_by_matchFile_emit. simpl.
    destruct origin; [| |done]; simpl; by rewrite app_nil_r.
Qed.

Lemma new_FileWalker_count_inv cfg : count_inv (new_FileWalker cfg).
Proof.
  unfold count_inv, new_FileWalker. simpl. split; [lia|].
  destruct (cfg_maxResults cfg) as [N|]; simpl; [|done].
  destruct (Z.eqb_spec N 0) as [->|Hne]; simpl; [done|].
  split; [congruence|]. split; [|lia]. by rewrite andb_false_r.
Qed.

Lemma search_count_inv cfg schedule :
  count_inv (walker (run schedule (Engine_search cfg))).
Proof.
  eapply evolves_invariant;
    [apply prim_count_inv|apply search_evolves|apply new_FileWalker_count_inv].
Qed.

Lemma matchFile_resultCount bn ap rp w :
  resultCount (matchFile bn ap rp w)
  = (resultCount w + (if file_match_test w bn rp then 1 else 0))%Z.
Proof.
  destruct (file_match_test w bn rp) eqn:Ht.
  - by destruct (matchFile_pass bn ap rp w Ht) as (-> & _).
  - rewrite (matchFile_fail _ _ _ _ Ht). lia.
Qed.

Lemma prim_resultCount w w' :
  prim w w' -> (resultCount w <= resultCount w')%Z.
Proof.
  destruct 1 as [w w' [bn ap rp w0| | |]| | |]; simpl; try lia.
  rewrite matchFile_resultCount. destruct (file_match_test _ _ _); lia.
Qed.

Lemma evolves_resultCount w w' :
  evolves w w' -> (resultCount w <= resultCount w')%Z.
Proof.
  induction 1 as [|w1 w2 w3 H _ IH]; [lia|].
  apply prim_resultCount in H. lia.
Qed.

Lemma search_maxResults cfg schedule N :
  cfg_maxResults cfg = Some N -> (0 < N)%Z ->
  maxResults (walker (run schedule (Engine_search cfg))) = Some N.
Proof.
  intros HN Hpos.
  destruct (evolves_same_setup _ _ (search_evolves cfg schedule))
    as (_&_&_&_&->&_).
  unfold new_FileWalker. simpl. rewrite HN. simpl.
  by destruct (Z.eqb_spec N 0) as [|_]; [lia|].
Qed.

Lemma search_done_calls cfg schedule error limit :
  (error, limit) ∈ done_calls (walker (run schedule (Engine_search cfg))) ->
  limit = isLimitHit (walker (run schedule (Engine_search cfg))).
Proof.
  pose proof (search_done_inv cfg schedule) as H. unfold done_inv in H.
  destruct (search _); try (rewrite H; by intros ?%elem_of_nil).
  destruct H as [e ->]. intros ?%list_elem_of_singleton. congruence.
Qed.

(** ** The result limit *)

(** C1, as it holds: with [maxResults = N > 0], under every schedule,
    [matchFile] delivers the first [N] candidates that pass the file-match
    test and no other ([min(resultCount, N)] of them, so at most [N]);
    [isLimitHit] is set exactly when more than [N] candidates have passed; a
    passing candidate that arrives when [N] have passed already is not
    delivered and sets the flag; and every call of [done] carries the flag.
    The results of the two fast paths are delivered besides these. *)
Theorem C1_matchFile_delivers_at_most_maxResults cfg N schedule :
  cfg_maxResults cfg = Some N -> (0 < N)%Z ->
  let w := walker (run schedule (Engine_search cfg)) in
  Z.of_nat (length (delivered_by_matchFile w)) = Z.min (resultCount w) N
  /\ (length (delivered_by_matchFile w) <= Z.to_nat N)%nat
  /\ isLimitHit w = (N <? resultCount w)%Z
  /\ (forall bn ap rp,
        file_match_test w bn rp = true -> (N <= resultCount w)%Z ->
        log (matchFile bn ap rp w) = log w
        /\ isLimitHit (matchFile bn ap rp w) = true)
  /\ (forall error limit,
        (error, limit) ∈ done_calls w -> limit = (N <? resultCount w)%Z).
Proof.
  intros HN Hpos w.
  pose proof (search_count_inv cfg schedule) as (H0 & _ & H).
  pose proof (search_maxResults cfg schedule N HN Hpos) as Hm.
  fold w in H0, H, Hm. rewrite Hm in H. destruct H as [Hl Hd].
  assert (isLimitHit w = (N <? resultCount w)%Z) as Hl'.
  { rewrite Hl. destruct (Z.ltb_spec N (resultCount w)); [|done].
    simpl. apply Z.ltb_lt. lia. }
  split_and!; [lia|lia|done| |].
  - intros bn ap rp Ht Hge.
    destruct (matchFile_pass bn ap rp w Ht) as (_ & -> & -> & _).
    assert (over_limit w = true) as ->; [|done].
    unfold over_limit. rewrite Hm. simpl.
    apply andb_true_iff. split; [|apply Z.ltb_lt; lia].
    apply negb_true_iff, Z.eqb_neq. lia.
  - intros error limit Hin. rewrite <-Hl'.
    by apply (search_done_calls cfg schedule error).
Qed.

(** ** The result counter *)

(** C9, as it holds: under every schedule, [resultCount] is changed by
    [matchFile] only, which adds one exactly when its candidate passes the
    file-match test, delivered or not; of the candidates counted, [matchFile]
    has delivered the first [maxResults] (all of them without a limit); the
    counter never decreases. *)
Theorem C9_resultCount_counts_passing_candidates cfg schedule :
  let w := walker (run schedule (Engine_search cfg)) in
  Z.of_nat (length (delivered_by_matchFile w))
  = match maxResults w with
    | Some N => Z.max 0 (Z.min (resultCount w) N)
    | None => resultCount w
    end
  /\ (forall bn ap rp,
        resultCount (matchFile bn ap rp w)
        = (resultCount w + (if file_match_test w bn rp then 1 else 0))%Z)
  /\ (forall w', work w w' ->
        resultCount w' = resultCount w
        \/ exists bn ap rp, w' = matchFile bn ap rp w)
  /\ (forall more,
        (resultCount w
         <= resultCount (walker (run more (run schedule (Engine_search cfg)))))%Z).
Proof.
  intros w. pose proof (search_count_inv cfg schedule) as (H0 & _ & H).
  fold w in H0, H. split_and!.
  - destruct (maxResults w); by destruct H.
  - intros. apply matchFile_resultCount.
  - intros w' [bn ap rp w0| | |]; eauto.
  - intros more. apply evolves_resultCount, run_evolves.
Qed.

(** ** Invariants of the search as a whole *)

Lemma run_invariant (P : State -> Prop) :
  (forall c s s', step c s = Some s' -> P s -> P s') ->
  forall schedule s, P s -> P (run schedule s).
Proof.
  intros Hstep. induction schedule as [|c rest IH]; intros s H; simpl; [done|].
  destruct (step c s) as [s'|] eqn:Hs; simpl; eauto.
Qed.

Lemma run_app schedule more s :
  run (schedule ++ more) s = run more (run schedule s).
Proof.
  revert s. induction schedule as [|c rest IH]; intros s; simpl; [done|].
  destruct (step c s); apply IH.
Qed.

(** Once [done] has been called, nothing is in flight: no callback runs, and
    [cancel()] only sets its flag. *)
Lemma step_finished c s s' :
  step c s = Some s' -> search s = Finished ->
  search s' = Finished /\ log (walker s') = log (walker s)
  /\ resultCount (walker s') = resultCount (walker s)
  /\ isLimitHit (walker s') = isLimitHit (walker s).
Proof.
  destruct c as [path|]; simpl; intros H Hf.
  - by rewrite Hf in H.
  - injection H as <-. by simpl.
Qed.

Lemma run_finished schedule s :
  search s = Finished ->
  search (run schedule s) = Finished
  /\ log (walker (run schedule s)) = log (walker s)
  /\ resultCount (walker (run schedule s)) = resultCount (walker s)
  /\ isLimitHit (walker (run schedule s)) = isLimitHit (walker s).
Proof.
  intros Hf.
  apply (run_invariant (fun s' =>
    search s' = Finished /\ log (walker s') = log (walker s)
    /\ resultCount (walker s') = resultCount (walker s)
    /\ isLimitHit (walker s') = isLimitHit (walker s))); [|done].
  intros c s1 s2 Hs (H1 & H2 & H3 & H4).
  destruct (step_finished c s1 s2 Hs H1) as (?&?&?&?).
  split_and!; congruence.
Qed.

(** While the absolute check is in flight the limit has not been hit. *)
Definition absolute_inv (s : State) : Prop :=
  match search s with
  | AbsoluteStat _ _ => isLimitHit (walker s) = false
  | _ => True
  end.

Lemma step_absolute_inv c s s' :
  step c s = Some s' -> absolute_inv s -> absolute_inv s'.
Proof.
  destruct c as [path|]; simpl.
  - unfold absolute_inv at 1.
    destruct (search s) as [rf ef|slots|]; try discriminate.
    + destruct path; [|discriminate]. intros [= <-] H.
      unfold after_absolute_match, absolute_inv.
      destruct (isCanceled (walker s)); [done|]. destruct (existing_file _); [done|].
      destruct (flow_parallel _ _ _) as [w2 slots]. unfold join_roots.
      by destruct (parallel_outcome slots).
    + destruct path as [|i path]; [discriminate|].
      destruct (slots !! i) as [slot|]; [|discriminate].
      destruct (fire path slot (walker s)) as [[w' slot']|]; [|discriminate].
      intros [= <-] _. unfold join_roots, absolute_inv.
      by destruct (parallel_outcome _).
  - intros [= <-]. unfold absolute_inv. simpl. by destruct (search s).
Qed.

Lemma search_absolute_inv cfg schedule :
  absolute_inv (run schedule (Engine_search cfg)).
Proof.
  apply run_invariant; [apply step_absolute_inv|].
  unfold Engine_search, walk, checkFilePatternAbsoluteMatch, absolute_inv.
  destruct (_ || _); [|done].
  unfold after_absolute_match. simpl.
  destruct (flow_parallel _ _ _) as [w2 slots]. unfold join_roots.
  by destruct (parallel_outcome slots).
Qed.

(** ** Short-circuit on cancellation and on the limit *)

Lemma resume_stopped io w : stopped w = true -> resume io w = (w, Settled None).
Proof.
  intros H. destruct io; simpl.
  - unfold after_root_readdir. destruct (extfs_readdir _ _); by rewrite ?H.
  - unfold after_relative_match. by rewrite H.
  - unfold after_lstat. destruct (fs_lstat _ _); by rewrite ?H.
  - unfold after_realpath. destruct (fs_realpath _ _); by rewrite ?H.
  - unfold after_readdir. destruct (extfs_readdir _ _); by rewrite ?H.
Qed.

Lemma fire_stopped path : forall b w w' b',
  fire path b w = Some (w', b') -> stopped w = true -> w' = w.
Proof.
  induction path as [|i path IH]; intros b w w' b' H Hs; destruct b; simpl in H;
    try discriminate.
  - rewrite (resume_stopped _ _ Hs) in H. congruence.
  - destruct (slots !! i) as [slot|]; [|discriminate].
    destruct (fire path slot w) as [[w1 slot']|] eqn:Hf; [|discriminate].
    injection H as <- <-. eauto.
Qed.

(** The calls to the file system and to [onResult], newest first. *)
Definition effects (w : FileWalker) : list Event :=
  filter (fun e => is_result e || is_fsCall e) (log w).

Lemma effects_emit_done error limit w :
  effects (emit (OnDone error limit) w) = effects w.
Proof. done. Qed.

Lemma join_roots_effects slots w :
  effects (walker (join_roots slots w)) = effects w
  /\ stopped (walker (join_roots slots w)) = stopped w.
Proof. unfold join_roots. by destruct (parallel_outcome slots). Qed.

Lemma step_stopped c s s' :
  step c s = Some s' -> absolute_inv s -> stopped (walker s) = true ->
  effects (walker s') = effects (walker s) /\ stopped (walker s') = true.
Proof.
  destruct c as [path|]; simpl.
  - unfold absolute_inv.
    destruct (search s) as [rf ef|slots|]; try discriminate.
    + destruct path; [|discriminate]. intros [= <-] Hl Hs.
      unfold stopped in Hs. rewrite Hl, orb_false_r in Hs.
      unfold after_absolute_match. rewrite Hs. simpl.
      split; [done|]. unfold stopped. simpl. by rewrite Hs.
    + destruct path as [|i path]; [discriminate|].
      destruct (slots !! i) as [slot|]; [|discriminate].
      destruct (fire path slot (walker s)) as [[w' slot']|] eqn:Hf; [|discriminate].
      intros [= <-] _ Hs. rewrite (fire_stopped _ _ _ _ _ Hf Hs).
      destruct (join_roots_effects (<[i:=slot']> slots) (walker s)) as [-> ->].
      done.
  - intros [= <-] _ Hs. simpl. split; [done|].
    unfold stopped in *. simpl. done.
Qed.

(** C5: at a point of the walk that finds [isCanceled] or [isLimitHit] set
    (every callback of an [fs] call made for a root or for an entry, and the
    entry function of [doWalk] itself), the branch settles at once: the
    walker is left as it is, so no [fs] call is made and no result is
    delivered.  Hence, under every schedule, once a flag is set no later
    step of the search calls the file system or [onResult]. *)
Theorem C5_stopped_points_short_circuit (w : FileWalker) :
  stopped w = true ->
  (forall io, resume io w = (w, Settled None))
  /\ (forall absolutePath relativeParentPath files file,
        doWalk_entry absolutePath relativeParentPath files file w
        = (w, Settled None))
  /\ (forall path b w' b', fire path b w = Some (w', b') -> w' = w)
  /\ (forall cfg schedule more,
        w = walker (run schedule (Engine_search cfg)) ->
        effects (walker (run more (run schedule (Engine_search cfg))))
        = effects w).
Proof.
  intros Hs. split_and!.
  - intros io. by apply resume_stopped.
  - intros a r fs f. unfold doWalk_entry. by rewrite Hs.
  - intros path b w' b' H. by apply (fire_stopped path b w w' b').
  - intros cfg schedule more ->.
    pose proof (search_absolute_inv cfg schedule) as Ha.
    revert Ha Hs. generalize (run schedule (Engine_search cfg)) as s.
    induction more as [|c more IH]; intros s Ha Hs; simpl; [done|].
    destruct (step c s) as [s'|] eqn:Hstep; simpl; [|by apply IH].
    destruct (step_stopped c s s' Hstep Ha Hs) as [He Hs'].
    rewrite <-He. apply IH; [|done]. by apply (step_absolute_inv c s).
Qed.

(** ** The fast paths *)

Lemma doWalk_entry_fs_only a r fs f w : fs_only w (doWalk_entry a r fs f w).1.
Proof.
  unfold doWalk_entry. destruct (stopped w); [apply fs_only_refl|].
  destruct (glob_match _ _ _ _); [apply fs_only_refl|]. apply fs_only_fsCall.
Qed.

Lemma flow_parallel_fs_only {T} (fn : T -> FileWalker -> FileWalker * Branch) items :
  (forall x w, fs_only w (fn x w).1) ->
  forall w, fs_only w (flow_parallel fn items w).1.
Proof.
  intros Hfn. induction items as [|x items IH]; intros w; simpl.
  - apply fs_only_refl.
  - specialize (Hfn x w). destruct (fn x w) as [w1 b].
    specialize (IH w1). destruct (flow_parallel fn items w1) as [w2 bs].
    simpl in *. eapply fs_only_trans; eauto.
Qed.

Lemma doWalk_fs_only a r fs w : fs_only w (doWalk a r fs w).1.
Proof.
  unfold doWalk.
  pose proof (flow_parallel_fs_only (doWalk_entry a r fs) fs
                (doWalk_entry_fs_only a r fs) w) as H.
  destruct (flow_parallel _ fs w) as [w' slots]. exact H.
Qed.

Lemma work_counter w w' :
  work w w' ->
  (resultCount w' = resultCount w /\ isLimitHit w' = isLimitHit w)
  \/ exists bn ap rp, w' = matchFile bn ap rp w.
Proof. destruct 1; eauto 6. Qed.

(** C10: the result of the absolute fast path is delivered whenever the
    search is not canceled, whatever [maxResults], [resultCount],
    [isLimitHit] and the include pattern are, and then [done] is called; the
    result of the relative fast path is delivered whenever no flag is set,
    whatever the include pattern is; neither changes [resultCount] or
    [isLimitHit] (after the relative one the callback only starts the
    [fs.lstat] calls of the root's entries).  Of all the updates a search
    makes to the walker, only [matchFile] changes the two fields. *)
Theorem C10_fast_paths_bypass_matchFile (w : FileWalker) :
  isCanceled w = false ->
  (forall rootFolders extraFiles,
     let s := after_absolute_match rootFolders extraFiles true w in
     log (walker s)
     = OnDone None (isLimitHit w)
         :: OnResult AbsoluteFastPath (string_of (filePattern w)) :: log w
     /\ search s = Finished
     /\ resultCount (walker s) = resultCount w
     /\ isLimitHit (walker s) = isLimitHit w)
  /\ (forall root rootFiles matchPath,
        isLimitHit w = false ->
        let w' := (after_relative_match root rootFiles (Some matchPath) w).1 in
        (exists calls,
            log w' = calls ++ OnResult RelativeFastPath matchPath :: log w
            /\ Forall (fun e => is_fsCall e = true) calls)
        /\ resultCount w' = resultCount w
        /\ isLimitHit w' = isLimitHit w)
  /\ (forall w1 w2,
        prim w1 w2 ->
        (resultCount w2 = resultCount w1 /\ isLimitHit w2 = isLimitHit w1)
        \/ exists bn ap rp, w2 = matchFile bn ap rp w1)
  /\ (forall cfg schedule,
        evolves (new_FileWalker cfg) (walker (run schedule (Engine_search cfg)))).
Proof.
  intros Hc. split_and!.
  - intros rf ef. unfold after_absolute_match. rewrite Hc. by simpl.
  - intros root rootFiles m Hl. unfold after_relative_match, stopped.
    rewrite Hc, Hl. simpl.
    pose proof (doWalk_fs_only root "" rootFiles
                  (emit (OnResult RelativeFastPath m) w)) as H.
    destruct (fs_only_fields _ _ H) as (-> & -> & _).
    destruct (fs_only_log _ _ H) as (calls & -> & Hcalls). eauto.
  - intros w1 w2 [w1' w2' H| | |]; [by apply work_counter|by left..].
  - apply search_evolves.
Qed.

(** ** The absolute fast path *)

(** C3, as it holds: when the file pattern is an absolute path of an existing
    file that is not a directory and the search is not canceled before the
    check answers, then once the check has answered, and whatever happens
    next, the walker has done exactly three things: the [fs.stat] of the
    check, the delivery of the pattern path, and [done(null, false)].  No
    extra file was looked at ([resultCount] is 0) and no folder was read. *)
Theorem C3_absolute_pattern_single_result cfg (p : string) rest :
  filePattern (new_FileWalker cfg) = Some p ->
  p <> "" ->
  paths_isAbsolute host p = true ->
  existing_file (fs_stat host p) = true ->
  let s := run (Callback [] :: rest) (Engine_search cfg) in
  search s = Finished
  /\ log (walker s)
     = [OnDone None false; OnResult AbsoluteFastPath p; FsCall OpStat p]
  /\ delivered (walker s) = [p]
  /\ resultCount (walker s) = 0%Z.
Proof.
  intros Hp Hne Habs Hex s.
  assert (truthy_string (Some p) = true) as Ht by by destruct p.
  assert (log (new_FileWalker cfg) = [] /\ isLimitHit (new_FileWalker cfg) = false
          /\ isCanceled (new_FileWalker cfg) = false
          /\ resultCount (new_FileWalker cfg) = 0%Z) as (Hlog & Hl & Hc & Hrc) by done.
  subst s. unfold Engine_search. generalize dependent (new_FileWalker cfg).
  intros w0 Hp Hlog Hl Hc Hrc.
  assert (step (Callback []) (walk (cfg_rootFolders cfg) (cfg_extraFiles cfg) w0)
          = Some {| walker :=
                      emit (OnDone None false)
                        (emit (OnResult AbsoluteFastPath p)
                           (emit (FsCall OpStat p) w0));
                    search := Finished |}) as Hstep.
  { unfold walk, checkFilePatternAbsoluteMatch. rewrite Hp, Ht. cbn [string_of negb orb].
    rewrite Habs. cbn [negb step search walker].
    unfold after_absolute_match. cbn [filePattern emit isCanceled isLimitHit].
    rewrite Hp, Hc, Hl. cbn [string_of]. by rewrite Hex. }
  cbn [run]. rewrite Hstep.
  match goal with |- context [run rest ?s0] =>
    destruct (run_finished rest s0 eq_refl) as (H1 & H2 & H3 & _) end.
  unfold delivered. rewrite H1, H2, H3. cbn [walker log emit resultCount].
  by rewrite Hlog, Hrc.
Qed.

(** ** Errors *)

(** A slot settled with an error, anywhere in the tree. *)
Fixpoint clean (b : Branch) : bool :=
  match b with
  | Settled error => bool_decide (error = None)
  | Await _ => true
  | Par slots => forallb clean slots
  end.

Lemma parallel_outcome_clean slots error :
  parallel_outcome slots = Some error -> forallb clean slots = true ->
  error = None.
Proof.
  unfold parallel_outcome. destruct (mapM settled slots) as [errors|] eqn:Hm;
    [|discriminate].
  intros [= <-] Hc.
  assert (Forall (fun e => e = None) errors) as Hall.
  { revert errors Hm. induction slots as [|b slots IH]; intros errors Hm.
    - injection Hm as <-. constructor.
    - simpl in Hc. apply andb_true_iff in Hc as [Hb Hc].
      destruct b as [e| |]; simpl in Hm; try done.
      destruct (mapM settled slots) as [es|]; simpl in Hm; [|done].
      injection Hm as <-. constructor; [|by apply IH].
      simpl in Hb. by apply bool_decide_eq_true in Hb. }
  assert (existsb (fun e => bool_decide (is_Some e)) errors = false) as ->;
    [|done].
  clear Hm Hc. induction Hall as [|e errors -> _ IH]; [done|].
  simpl. by rewrite IH.
Qed.

Lemma join_doWalk_clean slots :
  forallb clean slots = true -> clean (join_doWalk slots) = true.
Proof.
  intros H. unfold join_doWalk.
  destruct (parallel_outcome slots) as [error|] eqn:Ho; [|done].
  by rewrite (parallel_outcome_clean _ _ Ho H).
Qed.

Lemma flow_parallel_forallb {T} (f : Branch -> bool)
    (fn : T -> FileWalker -> FileWalker * Branch) items :
  (forall x w, f (fn x w).2 = true) ->
  forall w, forallb f (flow_parallel fn items w).2 = true.
Proof.
  intros Hfn. induction items as [|x items IH]; intros w; simpl; [done|].
  specialize (Hfn x w). destruct (fn x w) as [w1 b].
  specialize (IH w1). destruct (flow_parallel fn items w1) as [w2 bs].
  simpl in *. by rewrite Hfn, IH.
Qed.

Lemma doWalk_clean a r fs w : clean (doWalk a r fs w).2 = true.
Proof.
  unfold doWalk.
  pose proof (flow_parallel_forallb clean (doWalk_entry a r fs) fs) as H.
  destruct (flow_parallel _ fs w) as [w' slots] eqn:Hf.
  simpl. apply join_doWalk_clean. specialize (H ltac:(
    intros x w0; unfold doWalk_entry; by repeat case_match) w).
  by rewrite Hf in H.
Qed.

Lemma resume_clean io w : clean (resume io w).2 = true.
Proof.
  destruct io; simpl.
  - unfold after_root_readdir, checkFilePatternRelativeMatch, after_relative_match.
    repeat case_match; try done; apply doWalk_clean.
  - unfold after_relative_match. repeat case_match; try done; apply doWalk_clean.
  - unfold after_lstat, realPathIfNeeded, after_realpath.
    by repeat case_match.
  - unfold after_realpath. by repeat case_match.
  - unfold after_readdir. repeat case_match; try done; apply doWalk_clean.
Qed.

Lemma filter_all {A} (P : A -> Prop) `{forall x, Decision (P x)} (l : list A) :
  (forall x, P x) -> filter P l = l.
Proof.
  intros HP. induction l as [|x l IH]; [done|].
  by rewrite filter_cons_True, IH.
Qed.

Lemma forallb_insert {A} (f : A -> bool) (l : list A) i x :
  forallb f l = true -> f x = true -> forallb f (<[i:=x]> l) = true.
Proof.
  revert i. induction l as [|y l IH]; intros i H Hx; [done|].
  simpl in H. apply andb_true_iff in H as [Hy Hl].
  destruct i; simpl; apply andb_true_iff; auto.
Qed.

Lemma forallb_lookup {A} (f : A -> bool) (l : list A) i x :
  forallb f l = true -> l !! i = Some x -> f x = true.
Proof.
  revert i. induction l as [|y l IH]; intros i H Hx; [done|].
  simpl in H. apply andb_true_iff in H as [Hy Hl].
  destruct i; simpl in Hx; [congruence|eauto].
Qed.

Lemma fire_clean path : forall b w w' b',
  fire path b w = Some (w', b') -> clean b = true -> clean b' = true.
Proof.
  induction path as [|i path IH]; intros b w w' b' H Hc; destruct b; simpl in H;
    try discriminate.
  - injection H as H. pose proof (resume_clean io w) as Hr. by rewrite H in Hr.
  - destruct (slots !! i) as [slot|] eqn:Hi; [|discriminate].
    destruct (fire path slot w) as [[w1 slot']|] eqn:Hf; [|discriminate].
    injection H as <- <-. simpl in Hc. apply join_doWalk_clean.
    apply forallb_insert; [done|].
    eapply IH; [exact Hf|]. eapply forallb_lookup; eauto.
Qed.

(** No slot is ever settled with an error, and [done] is called with none. *)
Definition quiet_inv (s : State) : Prop :=
  match search s with
  | Roots slots => forallb clean slots = true
  | _ => True
  end
  /\ Forall (fun call => call.1 = None) (done_calls (walker s)).

Lemma join_roots_quiet_inv slots w :
  forallb clean slots = true ->
  Forall (fun call : option Error * bool => call.1 = None) (done_calls w) ->
  quiet_inv (join_roots slots w).
Proof.
  intros Hc Hd. unfold join_roots, quiet_inv.
  destruct (parallel_outcome slots) as [error|] eqn:Ho; simpl; [|done].
  split; [done|]. rewrite done_calls_emit_done. apply Forall_app. split; [done|].
  constructor; [|done]. by rewrite (parallel_outcome_clean _ _ Ho Hc).
Qed.

Lemma after_absolute_match_quiet_inv rf ef ex w :
  Forall (fun call : option Error * bool => call.1 = None) (done_calls w) ->
  quiet_inv (after_absolute_match rf ef ex w).
Proof.
  intros Hd. unfold after_absolute_match.
  destruct (isCanceled w).
  { split; [done|]. cbn [walker]. rewrite done_calls_emit_done.
    apply Forall_app. by repeat constructor. }
  destruct ex.
  { split; [done|]. cbn [walker].
    rewrite done_calls_emit_done, done_calls_emit_other by done.
    apply Forall_app. by repeat constructor. }
  pose proof (extraFiles_toils (default [] ef) w) as H1.
  pose proof (walk_roots_fs_only rf
                (foldl (fun w f => extraFile f w) w (default [] ef))) as H2.
  pose proof (flow_parallel_forallb clean walk_root rf (fun _ _ => eq_refl)
                (foldl (fun w f => extraFile f w) w (default [] ef))) as H3.
  destruct (flow_parallel walk_root rf _) as [w2 slots]. simpl in H2, H3.
  apply join_roots_quiet_inv; [done|].
  by rewrite (fs_only_done_calls _ _ H2), (toils_done_calls _ _ H1).
Qed.

Lemma step_quiet_inv c s s' : step c s = Some s' -> quiet_inv s -> quiet_inv s'.
Proof.
  destruct c as [path|]; simpl.
  - unfold quiet_inv at 1.
    destruct (search s) as [rf ef|slots|] eqn:Hsearch; try discriminate.
    + destruct path; [|discriminate]. intros [= <-] [_ H].
      by apply after_absolute_match_quiet_inv.
    + destruct path as [|i path]; [discriminate|].
      destruct (slots !! i) as [slot|] eqn:Hi; [|discriminate].
      destruct (fire path slot (walker s)) as [[w' slot']|] eqn:Hf; [|discriminate].
      intros [= <-] [Hc Hd]. apply join_roots_quiet_inv.
      * apply forallb_insert; [done|].
        eapply fire_clean; [exact Hf|]. eapply forallb_lookup; eauto.
      * by rewrite (toils_done_calls _ _ (fire_toils _ _ _ _ _ Hf)).
  - intros [= <-]. unfold quiet_inv. simpl. done.
Qed.

Lemma search_quiet_inv cfg schedule : quiet_inv (run schedule (Engine_search cfg)).
Proof.
  apply run_invariant; [apply step_quiet_inv|].
  unfold Engine_search, walk, checkFilePatternAbsoluteMatch.
  destruct (_ || _); [by apply after_absolute_match_quiet_inv|].
  split; [done|]. constructor.
Qed.

(** The error an [fs] call in flight will report to its callback, if any.
    An error of the [fs.stat] of the relative check only means "no match".*)
Definition fs_error (io : Pending) : option Error :=
  match io with
  | RootReaddir root =>
      match extfs_readdir host root with Fail error => Some error | Ok _ => None end
  | RelativeStat _ _ _ => None
  | Lstat e =>
      match fs_lstat host (currentPath e) with Fail error => Some error | Ok _ => None end
  | Realpath e =>
      match fs_realpath host (currentPath e) with Fail error => Some error | Ok _ => None end
  | Readdir e =>
      match extfs_readdir host (currentPath e) with Fail error => Some error | Ok _ => None end
  end.

(** C8, as it holds: under every schedule, an [fs] call that fails settles
    its own slot with [null] and changes nothing else, so sibling branches
    go on; [done] is called at most once, only when no callback is left in
    flight, always with [null] as its error, whatever errors occurred, and
    with the value of [isLimitHit]. *)
Theorem C8_errors_are_swallowed cfg schedule :
  let s := run schedule (Engine_search cfg) in
  (forall io w error,
     fs_error io = Some error -> resume io w = (w, Settled None))
  /\ (length (done_calls (walker s)) <= 1)%nat
  /\ (forall error limit,
        (error, limit) ∈ done_calls (walker s) ->
        error = None /\ limit = isLimitHit (walker s)
        /\ search s = Finished
        /\ forall path, step (Callback path) s = None).
Proof.
  intros s. split_and!.
  - intros io w error. destruct io; simpl; try done.
    + destruct (extfs_readdir host root); done.
    + destruct (fs_lstat host _); done.
    + destruct (fs_realpath host _); done.
    + destruct (extfs_readdir host _); done.
  - pose proof (search_done_inv cfg schedule) as H. unfold done_inv in H.
    fold s in H. destruct (search s); try (rewrite H; simpl; lia).
    destruct H as [e ->]. simpl. lia.
  - intros error limit Hin.
    pose proof (search_quiet_inv cfg schedule) as [_ Hq]. fold s in Hq.
    rewrite Forall_forall in Hq. specialize (Hq _ Hin). simpl in Hq.
    pose proof (search_done_calls cfg schedule error limit Hin) as Hl.
    pose proof (search_done_inv cfg schedule) as Hd. unfold done_inv in Hd.
    fold s in Hd, Hl.
    assert (search s = Finished) as Hf.
    { destruct (search s); try done; rewrite Hd in Hin; by apply elem_of_nil in Hin. }
    split_and!; try done. intros path. simpl. by rewrite Hf.
Qed.

(** ** The callbacks in flight *)

(** The [fs] calls of a branch whose callback has not run yet, in the order
    of their slots. *)
Fixpoint leaves (b : Branch) : list Pending :=
  match b with
  | Settled _ => []
  | Await io => [io]
  | Par slots => flat_map leaves slots
  end.

Definition in_flight (s : State) : list Pending :=
  match search s with
  | Roots slots => flat_map leaves slots
  | _ => []
  end.

Lemma parallel_outcome_leaves slots error :
  parallel_outcome slots = Some error -> flat_map leaves slots = [].
Proof.
  unfold parallel_outcome.
  destruct (mapM settled slots) as [errors|] eqn:Hm; [|discriminate].
  intros _. revert errors Hm.
  induction slots as [|b slots IH]; intros errors Hm; [done|].
  destruct b as [e| |]; simpl in Hm; try done.
  destruct (mapM settled slots) as [es|]; simpl in Hm; [|done].
  simpl. eauto.
Qed.

Lemma leaves_join_doWalk slots :
  leaves (join_doWalk slots) = flat_map leaves slots.
Proof.
  unfold join_doWalk. destruct (parallel_outcome slots) as [error|] eqn:Ho; [|done].
  by rewrite (parallel_outcome_leaves _ _ Ho).
Qed.

Lemma in_flight_join_roots slots w :
  in_flight (join_roots slots w) = flat_map leaves slots.
Proof.
  unfold join_roots, in_flight.
  destruct (parallel_outcome slots) as [error|] eqn:Ho; [|done].
  by rewrite (parallel_outcome_leaves _ _ Ho).
Qed.

Lemma flat_map_lookup_insert {A B} (f : A -> list B) (l : list A) i x :
  l !! i = Some x ->
  exists l1 l2,
    flat_map f l = l1 ++ f x ++ l2
    /\ forall y, flat_map f (<[i:=y]> l) = l1 ++ f y ++ l2.
Proof.
  revert i. induction l as [|a l IH]; intros i Hi; [done|].
  destruct i as [|i]; simpl in *.
  - injection Hi as ->. by exists [], (flat_map f l).
  - destruct (IH i Hi) as (l1 & l2 & H1 & H2).
    exists (f a ++ l1), l2. split.
    + by rewrite H1, app_assoc.
    + intros y. by rewrite H2, app_assoc.
Qed.

(** Running a callback takes it out of the calls in flight and puts in its
    place the calls it makes. *)
Lemma fire_leaves path : forall b w w' b',
  fire path b w = Some (w', b') ->
  exists io l1 l2,
    leaves b = l1 ++ io :: l2
    /\ w' = (resume io w).1
    /\ leaves b' = l1 ++ leaves (resume io w).2 ++ l2.
Proof.
  induction path as [|i path IH]; intros b w w' b' H; destruct b; simpl in H;
    try discriminate.
  - injection H as H. exists io, [], []. rewrite H. simpl.
    by rewrite app_nil_r.
  - destruct (slots !! i) as [slot|] eqn:Hi; [|discriminate].
    destruct (fire path slot w) as [[w1 slot']|] eqn:Hf; [|discriminate].
    injection H as <- <-.
    destruct (IH _ _ _ _ Hf) as (io & k1 & k2 & Hl & Hw & Hl').
    destruct (flat_map_lookup_insert leaves slots i slot Hi) as (l1 & l2 & H1 & H2).
    exists io, (l1 ++ k1), (k2 ++ l2). simpl.
    rewrite leaves_join_doWalk, H1, H2, Hl, Hl'. split_and!; [|done|].
    + by rewrite <-!app_assoc.
    + by rewrite <-!app_assoc.
Qed.

(** The arguments [walk] was called with are those of the configuration. *)
Definition arguments_inv (cfg : IRawSearch) (s : State) : Prop :=
  match search s with
  | AbsoluteStat rootFolders extraFiles =>
      rootFolders = cfg_rootFolders cfg /\ extraFiles = cfg_extraFiles cfg
      /\ truthy_string (filePattern (walker s)) = true
  | _ => True
  end.

(** The callback of the absolute check has run. *)
Definition started (s : State) : bool :=
  match search s with
  | AbsoluteStat _ _ => false
  | _ => true
  end.

Lemma join_roots_not_absolute slots w rf ef :
  search (join_roots slots w) <> AbsoluteStat rf ef.
Proof. unfold join_roots. by destruct (parallel_outcome slots). Qed.

Lemma after_absolute_match_not_absolute rf ef ex w rf' ef' :
  search (after_absolute_match rf ef ex w) <> AbsoluteStat rf' ef'.
Proof.
  unfold after_absolute_match.
  destruct (isCanceled w); [done|]. destruct ex; [done|].
  destruct (flow_parallel _ _ _) as [w2 slots]. apply join_roots_not_absolute.
Qed.

Lemma join_roots_arguments_inv cfg slots w :
  arguments_inv cfg (join_roots slots w).
Proof. unfold arguments_inv, join_roots. by destruct (parallel_outcome slots). Qed.

Lemma after_absolute_match_arguments_inv cfg rf ef ex w :
  arguments_inv cfg (after_absolute_match rf ef ex w).
Proof.
  unfold after_absolute_match.
  destruct (isCanceled w); [done|]. destruct ex; [done|].
  destruct (flow_parallel _ _ _) as [w2 slots]. apply join_roots_arguments_inv.
Qed.

Lemma search_arguments_inv cfg schedule :
  arguments_inv cfg (run schedule (Engine_search cfg)).
Proof.
  apply run_invariant.
  - intros c s s' Hs H. destruct c as [path|]; simpl in Hs.
    + destruct (search s) as [rf ef|slots|]; try discriminate.
      * destruct path; [|discriminate]. injection Hs as <-.
        apply after_absolute_match_arguments_inv.
      * destruct path as [|i path]; [discriminate|].
        destruct (slots !! i) as [slot|]; [|discriminate].
        destruct (fire path slot (walker s)) as [[w' slot']|]; [|discriminate].
        injection Hs as <-. apply join_roots_arguments_inv.
    + injection Hs as <-. unfold arguments_inv in *. simpl.
      by destruct (search s).
  - unfold Engine_search, walk, checkFilePatternAbsoluteMatch. generalize (new_FileWalker cfg) as w0. intros w0.
    destruct (truthy_string (filePattern w0)) eqn:Ht; cbn [negb orb];
      [|apply after_absolute_match_arguments_inv].
    destruct (paths_isAbsolute host _); cbn [negb];
      [|apply after_absolute_match_arguments_inv].
    unfold arguments_inv. by cbn [search walker filePattern emit].
Qed.

(** A property of the walker and of the calls in flight that holds when the
    search starts and is kept by every callback, by [done] and by
    [cancel()] holds throughout every search.  The property may depend on
    whether the callback of the absolute check has run. *)
Lemma in_flight_invariant (Q : bool -> FileWalker -> list Pending -> Prop) cfg :
  (forall w l error, Q true w l -> Q true (emit (OnDone error (isLimitHit w)) w) l) ->
  (forall b w l, Q b w l -> Q b (cancel w) l) ->
  (forall w io l1 l2,
     Q true w (l1 ++ io :: l2) ->
     Q true (resume io w).1 (l1 ++ leaves (resume io w).2 ++ l2)) ->
  (forall w ex,
     Q false w [] ->
     (ex = true -> truthy_string (filePattern w) = true) ->
     let s := after_absolute_match (cfg_rootFolders cfg) (cfg_extraFiles cfg) ex w in
     Q true (walker s) (in_flight s)) ->
  (forall w path, Q false w [] -> Q false (emit (FsCall OpStat path) w) []) ->
  Q false (new_FileWalker cfg) [] ->
  forall schedule,
    Q (started (run schedule (Engine_search cfg)))
      (walker (run schedule (Engine_search cfg)))
      (in_flight (run schedule (Engine_search cfg))).
Proof.
  intros Hdone Hcancel Hresume Habs Hstat Hinit schedule.
  assert (forall rf ef ex w, started (after_absolute_match rf ef ex w) = true)
    as Hstarted.
  { intros rf ef ex w. unfold started.
    pose proof (after_absolute_match_not_absolute rf ef ex w) as H.
    destruct (search _) as [rf' ef'| |]; [by destruct (H rf' ef')|done..]. }
  assert (forall s,
            arguments_inv cfg s /\ Q (started s) (walker s) (in_flight s) ->
            forall c s', step c s = Some s' ->
            arguments_inv cfg s' /\ Q (started s') (walker s') (in_flight s'))
    as Hstep.
  { intros s [Ha HQ] c s' Hs. destruct c as [path|]; simpl in Hs.
    - unfold arguments_inv in Ha. unfold in_flight, started in HQ.
      destruct (search s) as [rf ef|slots|] eqn:Hsearch; try discriminate.
      + destruct path; [|discriminate]. injection Hs as <-.
        destruct Ha as (-> & -> & Ht).
        split; [apply after_absolute_match_arguments_inv|].
        rewrite Hstarted. by apply Habs.
      + destruct path as [|i path]; [discriminate|].
        destruct (slots !! i) as [slot|] eqn:Hi; [|discriminate].
        destruct (fire path slot (walker s)) as [[w' slot']|] eqn:Hf; [|discriminate].
        injection Hs as <-.
        split; [apply join_roots_arguments_inv|].
        rewrite in_flight_join_roots.
        destruct (fire_leaves _ _ _ _ _ Hf) as (io & k1 & k2 & Hl & Hw & Hl').
        destruct (flat_map_lookup_insert leaves slots i slot Hi)
          as (l1 & l2 & H1 & H2).
        rewrite H2, Hl'. rewrite H1, Hl in HQ.
        replace (l1 ++ (k1 ++ io :: k2) ++ l2)
          with ((l1 ++ k1) ++ io :: (k2 ++ l2)) in HQ
          by by rewrite <-!app_assoc.
        apply Hresume in HQ. rewrite <-Hw in HQ.
        replace (l1 ++ (k1 ++ leaves (resume io (walker s)).2 ++ k2) ++ l2)
          with ((l1 ++ k1) ++ leaves (resume io (walker s)).2 ++ k2 ++ l2)
          by by rewrite <-!app_assoc.
        unfold join_roots. destruct (parallel_outcome _);
          cbn [started search walker]; [by apply Hdone|done].
    - injection Hs as <-. split.
      + unfold arguments_inv in *. simpl. by destruct (search s).
      + unfold in_flight, started in *. simpl. by apply Hcancel. }
  pose proof (run_invariant
                (fun s => arguments_inv cfg s
                          /\ Q (started s) (walker s) (in_flight s))
                (fun c s s' Hs H => Hstep s H c s' Hs) schedule
                (Engine_search cfg)) as H.
  apply H. split; [apply (search_arguments_inv cfg [])|].
  unfold Engine_search, walk, checkFilePatternAbsoluteMatch. case_match; [rewrite Hstarted; by apply Habs|].
  simpl. by apply Hstat.
Qed.

(** ** What [doWalk] leaves in flight *)

Definition mkEntry (absolutePath relativeParentPath : string)
    (files : list string) (file : string) : Entry :=
  {| absolutePath := absolutePath; relativeParentPath := relativeParentPath;
     files := files; file := file |}.

(** The entries [doWalk] drops before any [fs] call. *)
Definition entry_skipped (w : FileWalker) (e : Entry) : bool :=
  stopped w
  || glob_match host (excludePattern w) (relativeFilePath e)
       (Some (if bool_decide (cfg_filePattern (config w) = Some (file e))
              then [] else files e)).

Lemma doWalk_entry_skipped a r fs f w :
  doWalk_entry a r fs f w
  = if entry_skipped w (mkEntry a r fs f) then (w, Settled None)
    else (emit (FsCall OpLstat (currentPath (mkEntry a r fs f))) w,
          Await (Lstat (mkEntry a r fs f))).
Proof.
  unfold doWalk_entry, entry_skipped, mkEntry. simpl.
  destruct (stopped w); [done|]. simpl. by destruct (glob_match _ _ _ _).
Qed.

Lemma flow_parallel_doWalk_entry a r fs0 fs : forall w,
  flat_map leaves (flow_parallel (doWalk_entry a r fs0) fs w).2
  = map (fun f => Lstat (mkEntry a r fs0 f))
      (filter (fun f => entry_skipped w (mkEntry a r fs0 f) = false) fs).
Proof.
  induction fs as [|f fs IH]; intros w; [done|]. simpl.
  rewrite doWalk_entry_skipped.
  destruct (entry_skipped w (mkEntry a r fs0 f)) eqn:Hskip.
  - specialize (IH w). destruct (flow_parallel _ fs w) as [w2 bs]. simpl in *.
    rewrite filter_cons_False by (by rewrite Hskip). done.
  - specialize (IH (emit (FsCall OpLstat (currentPath (mkEntry a r fs0 f))) w)).
    destruct (flow_parallel _ fs _) as [w2 bs]. simpl in *.
    rewrite filter_cons_True by done. simpl. f_equal. by rewrite IH.
Qed.

Lemma leaves_doWalk a r fs w :
  leaves (doWalk a r fs w).2
  = map (fun f => Lstat (mkEntry a r fs f))
      (filter (fun f => entry_skipped w (mkEntry a r fs f) = false) fs).
Proof.
  unfold doWalk.
  pose proof (flow_parallel_doWalk_entry a r fs fs w) as H.
  destruct (flow_parallel _ fs w) as [w' slots]. simpl in *.
  by rewrite leaves_join_doWalk.
Qed.

(** ** Directories are walked once *)

(** The directories the walk went into, oldest first: the key it remembers
    each by, and the path it knew it by. *)
Definition recursions (w : FileWalker) : list (string * string) :=
  reverse (omap (fun e => match e with
                          | Recurse realpath current => Some (realpath, current)
                          | _ => None
                          end) (log w)).

(** The key [realPathIfNeeded] gives for a path with these [lstat] data. *)
Definition walk_key (path : string) (lstat : Stats) : Outcome string :=
  if isSymbolicLink lstat then fs_realpath host path else Ok path.

Lemma recursions_emit e w :
  recursions (emit e w)
  = recursions w ++ match e with
                    | Recurse realpath current => [(realpath, current)]
                    | _ => []
                    end.
Proof.
  unfold recursions. simpl. destruct e; simpl;
    rewrite ?reverse_cons, ?app_nil_r; done.
Qed.

Lemma matchFile_recursions bn ap rp w :
  recursions (matchFile bn ap rp w) = recursions w.
Proof.
  unfold recursions. by destruct (matchFile_log bn ap rp w) as [->| ->].
Qed.

Lemma matchFile_walkedPaths bn ap rp w :
  walkedPaths (matchFile bn ap rp w) = walkedPaths w.
Proof.
  destruct (file_match_test w bn rp) eqn:Ht.
  - by destruct (matchFile_pass bn ap rp w Ht) as (_&_&_&_&->).
  - by rewrite (matchFile_fail _ _ _ _ Ht).
Qed.

(** The keys of the recursions are pairwise distinct and are exactly the
    walked paths. *)
Definition keys_inv (w : FileWalker) : Prop :=
  NoDup (recursions w).*1 /\ walkedPaths w = list_to_set (recursions w).*1.

Lemma prim_keys_inv w w' : prim w w' -> keys_inv w -> keys_inv w'.
Proof.
  unfold keys_inv.
  destruct 1 as [w w' [bn ap rp w0|op path w0 _|k cur w0 Hk _|origin path w0 _ _]
                |root w| |]; try done.
  - by rewrite matchFile_recursions, matchFile_walkedPaths.
  - intros [Hnd Hw]. rewrite !recursions_emit, app_nil_r. simpl.
    rewrite fmap_app. simpl. split.
    + apply NoDup_app. split_and!; [done| |apply NoDup_singleton].
      intros x Hx ->%list_elem_of_singleton. apply Hk. rewrite Hw.
      by apply elem_of_list_to_set.
    + change (recursions (set_walkedPaths _ w0)) with (recursions w0).
      rewrite list_to_set_app_L, <-Hw. simpl.
      by rewrite (right_id_L ∅ (∪)), (comm_L (∪)).
Qed.

Lemma search_keys_inv cfg schedule :
  keys_inv (walker (run schedule (Engine_search cfg))).
Proof.
  eapply evolves_invariant; [apply prim_keys_inv|apply search_evolves|].
  split; [constructor|done].
Qed.

(** *** Where a callback in flight comes from *)

(** [guarded roots keys dir]: [dir] is a root folder, or a directory entry
    listed by a directory of this kind, whose key is not among the keys,
    innermost first, of the directories above it. *)
Inductive guarded (roots : list string) : list string -> string -> Prop :=
| guarded_root root :
    root ∈ roots -> guarded roots [] root
| guarded_child keys dir children name lstat key :
    guarded roots keys dir ->
    extfs_readdir host dir = Ok children ->
    name ∈ children ->
    fs_lstat host (paths_join host dir name) = Ok lstat ->
    isDirectory lstat = true ->
    walk_key (paths_join host dir name) lstat = Ok key ->
    key ∉ keys ->
    guarded roots (key :: keys) (paths_join host dir name).

Definition walked_through (roots : list string) (w : FileWalker) (dir : string) : Prop :=
  exists keys,
    guarded roots keys dir /\ forall k, k ∈ keys -> k ∈ walkedPaths w.

Definition entry_ok (roots : list string) (w : FileWalker) (e : Entry) : Prop :=
  walked_through roots w (absolutePath e)
  /\ extfs_readdir host (absolutePath e) = Ok (files e)
  /\ file e ∈ files e.

Definition leaf_ok (roots : list string) (w : FileWalker) (io : Pending) : Prop :=
  match io with
  | RootReaddir root => root ∈ roots
  | RelativeStat root rootFiles _ =>
      root ∈ roots /\ extfs_readdir host root = Ok rootFiles
  | Lstat e => entry_ok roots w e
  | Realpath e =>
      entry_ok roots w e
      /\ exists lstat,
           fs_lstat host (currentPath e) = Ok lstat
           /\ isDirectory lstat = true /\ isSymbolicLink lstat = true
  | Readdir e => walked_through roots w (currentPath e)
  end.

Lemma walked_through_mono roots w w' dir :
  walkedPaths w ⊆ walkedPaths w' ->
  walked_through roots w dir -> walked_through roots w' dir.
Proof.
  intros Hsub (keys & Hg & Hk). exists keys. split; [done|].
  intros k Hin. apply Hsub. by apply Hk.
Qed.

Lemma leaf_ok_mono roots w w' io :
  walkedPaths w ⊆ walkedPaths w' -> leaf_ok roots w io -> leaf_ok roots w' io.
Proof.
  intros Hsub. destruct io; simpl; unfold entry_ok; try done.
  - intros (H1 & H2 & H3). split_and!; try done.
    by apply (walked_through_mono roots w).
  - intros ((H1 & H2 & H3) & H4). split_and!; try done.
    by apply (walked_through_mono roots w).
  - by apply walked_through_mono.
Qed.

Lemma fs_only_recursions w w' : fs_only w w' -> recursions w' = recursions w.
Proof.
  intros (calls & -> & H). induction H as [|c calls Hc _ IH]; simpl; [done|].
  rewrite recursions_emit, IH. destruct c; try done. by rewrite app_nil_r.
Qed.

(** *** A measure of the work in flight *)

Definition nchildren (path : string) : nat :=
  match extfs_readdir host path with
  | Ok children => length children
  | Fail _ => 0
  end.

Definition weight (io : Pending) : nat :=
  match io with
  | RootReaddir root => 2 + 3 * nchildren root
  | RelativeStat _ rootFiles _ => 1 + 3 * length rootFiles
  | Lstat _ => 3
  | Realpath _ => 2
  | Readdir e => 1 + 3 * nchildren (currentPath e)
  end.

Definition total_weight (l : list Pending) : nat := sum_list_with weight l.

Lemma total_weight_lstats (es : list Entry) :
  total_weight (map Lstat es) = 3 * length es.
Proof. induction es as [|e es IH]; simpl; [done|]. unfold total_weight in *. simpl. lia. Qed.

Lemma doWalk_progress roots dir r fs w :
  walked_through roots w dir ->
  extfs_readdir host dir = Ok fs ->
  Forall (leaf_ok roots (doWalk dir r fs w).1) (leaves (doWalk dir r fs w).2)
  /\ walkedPaths (doWalk dir r fs w).1 = walkedPaths w
  /\ recursions (doWalk dir r fs w).1 = recursions w
  /\ total_weight (leaves (doWalk dir r fs w).2) <= 3 * length fs.
Proof.
  intros Hdir Hfs. pose proof (doWalk_fs_only dir r fs w) as Hw.
  destruct (fs_only_fields _ _ Hw) as (_ & _ & _ & Hwp).
  rewrite leaves_doWalk. split_and!; [|done|by apply fs_only_recursions|].
  - apply Forall_map, Forall_forall. intros f [_ Hin]%list_elem_of_filter. simpl.
    split_and!; [|done|done]. apply (walked_through_mono roots w); [|done].
    by rewrite Hwp.
  - rewrite <-(map_map (mkEntry dir r fs) Lstat), total_weight_lstats, length_map.
    pose proof (length_filter (fun f => entry_skipped w (mkEntry dir r fs f) = false) fs).
    lia.
Qed.

(** What running a callback does to the measure: either no directory is
    marked and the calls it leaves in flight weigh less than the call it
    answers, or exactly one directory is marked, whose key was not marked
    and is not the key of a directory above it. *)
Definition progress (roots : list string) (io : Pending) (w w' : FileWalker)
    (l : list Pending) : Prop :=
  (walkedPaths w' = walkedPaths w /\ recursions w' = recursions w
   /\ total_weight l < weight io)
  \/ (exists key path keys,
        guarded roots (key :: keys) path
        /\ (key ∉ walkedPaths w)
        /\ walkedPaths w' = {[key]} ∪ walkedPaths w
        /\ recursions w' = recursions w ++ [(key, path)]).

Lemma after_realpath_progress roots io e r w lstat :
  entry_ok roots w e ->
  fs_lstat host (currentPath e) = Ok lstat ->
  isDirectory lstat = true ->
  walk_key (currentPath e) lstat = r ->
  0 < weight io ->
  Forall (leaf_ok roots (after_realpath e r w).1) (leaves (after_realpath e r w).2)
  /\ progress roots io w (after_realpath e r w).1 (leaves (after_realpath e r w).2).
Proof.
  intros ((keys & Hg & Hk) & Hfs & Hin) Hl Hd Hkey Hio. unfold after_realpath.
  assert (progress roots io w w []) as Hnone.
  { left. by split_and!. }
  destruct r as [key|]; [|by split].
  destruct (stopped w); [by split|].
  case_bool_decide as Hw; [by split|]. simpl.
  assert (guarded roots (key :: keys) (currentPath e)) as Hg'.
  { eapply guarded_child; eauto. }
  split.
  - constructor; [|done]. simpl. exists (key :: keys). split; [done|].
    intros k [->|Hkin]%elem_of_cons; [set_solver|]. apply elem_of_union_r. by apply Hk.
  - right. exists key, (currentPath e), keys. split_and!; try done.
    rewrite !recursions_emit, app_nil_r. done.
Qed.

Lemma resume_progress roots w io :
  leaf_ok roots w io ->
  Forall (leaf_ok roots (resume io w).1) (leaves (resume io w).2)
  /\ progress roots io w (resume io w).1 (leaves (resume io w).2).
Proof.
  intros Hok.
  assert (0 < weight io -> Forall (leaf_ok roots w) [] /\ progress roots io w w [])
    as Hnone.
  { intros. split; [done|]. left. by split_and!. }
  destruct io as [root|root rootFiles cand|e|e|e]; cbn [resume leaf_ok] in *.
  - unfold after_root_readdir.
    destruct (extfs_readdir host root) as [rootFiles|] eqn:Hfs;
      [|apply Hnone; simpl; lia].
    destruct (stopped w) eqn:Hs; [apply Hnone; simpl; lia|].
    unfold checkFilePatternRelativeMatch. destruct (_ || _).
    + unfold after_relative_match. rewrite Hs.
      destruct (doWalk_progress roots root "" rootFiles w) as (H1 & H2 & H3 & H4);
        [by exists []; split; [constructor|set_solver]|done|].
      split; [done|]. left. split_and!; [done|done|].
      cbn [weight]. unfold nchildren. rewrite Hfs. lia.
    + cbn [fst snd leaves]. split; [by repeat constructor|]. left.
      split_and!; [done|by rewrite recursions_emit, app_nil_r|].
      unfold total_weight. cbn [weight sum_list_with]. unfold nchildren.
      rewrite Hfs. lia.
  - destruct Hok as [Hroot Hfs]. unfold after_relative_match.
    destruct (stopped w) eqn:Hs; [apply Hnone; simpl; lia|].
    match goal with |- context [doWalk root "" rootFiles ?w1] =>
      destruct (doWalk_progress roots root "" rootFiles w1) as (H1 & H2 & H3 & H4);
        [by exists []; split; [constructor|set_solver]|done|];
      assert (walkedPaths w1 = walkedPaths w /\ recursions w1 = recursions w)
        as [Hw1 Hr1] by (by destruct (if existing_file _ then _ else _);
                           rewrite ?recursions_emit, ?app_nil_r)
    end.
    split; [done|]. left. split_and!; [congruence|congruence|].
    cbn [weight]. lia.
  - unfold after_lstat.
    destruct (fs_lstat host (currentPath e)) as [lstat|] eqn:Hl;
      [|apply Hnone; simpl; lia].
    destruct (stopped w) eqn:Hs; [apply Hnone; simpl; lia|].
    destruct (isDirectory lstat) eqn:Hd.
    + unfold realPathIfNeeded. destruct (isSymbolicLink lstat) eqn:Hsym.
      * cbn [fst snd leaves].
        split; [constructor; [|done]; split; [done|by exists lstat]|]. left.
        split_and!; [done|by rewrite recursions_emit, app_nil_r|].
        unfold total_weight. simpl. lia.
      * apply (after_realpath_progress roots (Lstat e) e _ w lstat); try done.
        -- unfold walk_key. by rewrite Hsym.
        -- simpl. lia.
    + case_bool_decide; [apply Hnone; simpl; lia|].
      cbn [fst snd leaves]. split; [done|]. left.
      split_and!; [apply matchFile_walkedPaths|apply matchFile_recursions|].
      unfold total_weight. simpl. lia.
  - destruct Hok as (Hentry & lstat & Hl & Hd & Hsym).
    apply (after_realpath_progress roots (Realpath e) e _ w lstat); try done.
    + unfold walk_key. by rewrite Hsym.
    + simpl. lia.
  - unfold after_readdir.
    destruct (extfs_readdir host (currentPath e)) as [children|] eqn:Hfs;
      [|apply Hnone; simpl; lia].
    destruct (stopped w) eqn:Hs; [apply Hnone; simpl; lia|].
    destruct (doWalk_progress roots (currentPath e) (relativeFilePath e) children w)
      as (H1 & H2 & H3 & H4); [done|done|].
    split; [done|]. left. split_and!; [done|done|].
    cbn [weight]. unfold nchildren. rewrite Hfs. lia.
Qed.

(** *** The invariant of the calls in flight *)

Lemma flow_parallel_walk_root rootFolders : forall w,
  (flow_parallel walk_root rootFolders w).2
  = map (fun root => Await (RootReaddir root)) rootFolders.
Proof.
  induction rootFolders as [|root rest IH]; intros w; [done|]. simpl.
  specialize (IH (emit (FsCall OpReaddir root) w)).
  destruct (flow_parallel walk_root rest _) as [w2 bs]. simpl in *. by rewrite IH.
Qed.

Lemma flat_map_leaves_roots (rootFolders : list string) :
  flat_map leaves (map (fun root => Await (RootReaddir root)) rootFolders)
  = map RootReaddir rootFolders.
Proof. induction rootFolders as [|root rest IH]; simpl; [done|]. by rewrite IH. Qed.

Lemma extraFiles_frame extra : forall w,
  walkedPaths (foldl (fun w f => extraFile f w) w extra) = walkedPaths w
  /\ recursions (foldl (fun w f => extraFile f w) w extra) = recursions w
  /\ isCanceled (foldl (fun w f => extraFile f w) w extra) = isCanceled w.
Proof.
  induction extra as [|f extra IH]; intros w; simpl; [done|].
  destruct (IH (extraFile f w)) as (-> & -> & ->). unfold extraFile.
  destruct (glob_match _ _ _ _); [done|].
  rewrite matchFile_walkedPaths, matchFile_recursions.
  by rewrite (work_isCanceled _ _ (work_matchFile _ _ _ w)).
Qed.

(** What the callback of the absolute check leaves: the root folders'
    [readdir] calls in flight, unless it called [done]. *)
Lemma after_absolute_match_frame rf ef ex w :
  let s := after_absolute_match rf ef ex w in
  walkedPaths (walker s) = walkedPaths w
  /\ recursions (walker s) = recursions w
  /\ isCanceled (walker s) = isCanceled w
  /\ in_flight s = (if isCanceled w || ex then [] else map RootReaddir rf).
Proof.
  unfold after_absolute_match. destruct (isCanceled w) eqn:Hc; simpl.
  { by rewrite recursions_emit, app_nil_r. }
  destruct ex; simpl.
  { by rewrite !recursions_emit, !app_nil_r. }
  destruct (extraFiles_frame (default [] ef) w) as (H1 & H2 & H3).
  pose proof (walk_roots_fs_only rf
                (foldl (fun w f => extraFile f w) w (default [] ef))) as Hfs.
  pose proof (flow_parallel_walk_root rf
                (foldl (fun w f => extraFile f w) w (default [] ef))) as Hslots.
  destruct (flow_parallel walk_root rf _) as [w2 slots]. simpl in *.
  destruct (fs_only_fields _ _ Hfs) as (_ & _ & Hc2 & Hwp2).
  pose proof (fs_only_recursions _ _ Hfs) as Hr2.
  rewrite in_flight_join_roots, Hslots, flat_map_leaves_roots.
  unfold join_roots. destruct (parallel_outcome _); cbn [walker];
    rewrite ?recursions_emit, ?app_nil_r; split_and!; try congruence;
    cbn [emit walkedPaths isCanceled]; congruence.
Qed.

Definition recursion_ok (roots : list string) (r : string * string) : Prop :=
  exists keys, guarded roots (r.1 :: keys) r.2.

Definition flight_inv (roots : list string) (w : FileWalker)
    (l : list Pending) : Prop :=
  Forall (leaf_ok roots w) l /\ Forall (recursion_ok roots) (recursions w).

Lemma progress_walkedPaths roots io w w' l :
  progress roots io w w' l -> walkedPaths w ⊆ walkedPaths w'.
Proof.
  intros [(-> & _)|(k & p & ks & _ & _ & -> & _)]; [done|].
  apply union_subseteq_r.
Qed.

Lemma flight_inv_done roots w l error :
  flight_inv roots w l -> flight_inv roots (emit (OnDone error (isLimitHit w)) w) l.
Proof. intros [H1 H2]. split; [done|]. by rewrite recursions_emit, app_nil_r. Qed.

Lemma flight_inv_resume roots w io l1 l2 :
  flight_inv roots w (l1 ++ io :: l2) ->
  flight_inv roots (resume io w).1 (l1 ++ leaves (resume io w).2 ++ l2).
Proof.
  intros [H1 H2].
  apply Forall_app in H1 as [Hl1 Hl2]. apply Forall_cons in Hl2 as [Hio Hl2].
  destruct (resume_progress _ w io Hio) as [Hnew Hp].
  pose proof (progress_walkedPaths _ _ _ _ _ Hp) as Hsub.
  split.
  - apply Forall_app. split; [|apply Forall_app; split; [done|]].
    + eapply Forall_impl; [exact Hl1|]. intros io'. by apply leaf_ok_mono.
    + eapply Forall_impl; [exact Hl2|]. intros io'. by apply leaf_ok_mono.
  - destruct Hp as [(_ & -> & _)|(k & p & ks & Hg & _ & _ & ->)]; [done|].
    apply Forall_app. split; [done|]. constructor; [|done]. by exists ks.
Qed.

Lemma flight_inv_start roots ef ex w :
  flight_inv roots w [] ->
  flight_inv roots (walker (after_absolute_match roots ef ex w))
    (in_flight (after_absolute_match roots ef ex w)).
Proof.
  intros [_ H2].
  destruct (after_absolute_match_frame roots ef ex w) as (_ & Hr & _ & Hl).
  split; [|by rewrite Hr].
  rewrite Hl. destruct (_ || _); [done|].
  apply Forall_map, Forall_forall. by intros root Hroot.
Qed.

Lemma flight_inv_stat roots w path :
  flight_inv roots w [] -> flight_inv roots (emit (FsCall OpStat path) w) [].
Proof. intros [H1 H2]. split; [done|]. by rewrite recursions_emit, app_nil_r. Qed.

Lemma search_flight_inv cfg schedule :
  flight_inv (cfg_rootFolders cfg)
    (walker (run schedule (Engine_search cfg)))
    (in_flight (run schedule (Engine_search cfg))).
Proof.
  apply (in_flight_invariant (fun _ => flight_inv (cfg_rootFolders cfg))).
  - intros w l error. apply flight_inv_done.
  - intros _ w l [H1 H2]. by split.
  - intros w io l1 l2. apply flight_inv_resume.
  - intros w ex H _. by apply flight_inv_start.
  - intros w path. apply flight_inv_stat.
  - split; constructor.
Qed.

(** *** Every search is finite *)

(** The keys of [bound] that are not marked as walked. *)
Definition unmarked (bound : list string) (w : FileWalker) : nat :=
  length (filter (fun k => k ∉ walkedPaths w) bound).

Lemma unmarked_mono bound w w' :
  walkedPaths w ⊆ walkedPaths w' -> unmarked bound w' <= unmarked bound w.
Proof.
  intros Hsub. unfold unmarked. induction bound as [|k bound IH]; [done|].
  destruct (decide (k ∈ walkedPaths w')) as [Hin'|Hnin'].
  - rewrite (filter_cons_False _ k bound) by (intros ?; done).
    destruct (decide (k ∈ walkedPaths w)).
    + rewrite (filter_cons_False _ k bound) by (intros ?; done). done.
    + rewrite (filter_cons_True _ k bound) by done. simpl. lia.
  - rewrite (filter_cons_True _ k bound) by done.
    rewrite (filter_cons_True _ k bound) by (intros ?; apply Hnin'; auto).
    simpl. lia.
Qed.

Lemma unmarked_lt bound w w' key :
  key ∈ bound -> key ∉ walkedPaths w ->
  walkedPaths w' = {[key]} ∪ walkedPaths w ->
  unmarked bound w' < unmarked bound w.
Proof.
  intros Hin Hnew Hw'.
  assert (walkedPaths w ⊆ walkedPaths w') as Hsub
      by (rewrite Hw'; apply union_subseteq_r).
  unfold unmarked. induction bound as [|k bound IH]; [by apply elem_of_nil in Hin|].
  apply elem_of_cons in Hin as [<-|Hin].
  - rewrite (filter_cons_False (fun k => k ∉ walkedPaths w') key bound)
      by (intros Hn; apply Hn; rewrite Hw';
          apply elem_of_union_l, elem_of_singleton; done).
    rewrite (filter_cons_True (fun k => k ∉ walkedPaths w) key bound) by done.
    pose proof (unmarked_mono bound w w' Hsub) as Hle. unfold unmarked in Hle.
    simpl. lia.
  - specialize (IH Hin).
    destruct (decide (k ∈ walkedPaths w')) as [Hin'|Hnin'].
    + rewrite (filter_cons_False (fun k => k ∉ walkedPaths w') k bound)
        by (intros ?; done).
      destruct (decide (k ∈ walkedPaths w)).
      * rewrite (filter_cons_False (fun k => k ∉ walkedPaths w) k bound)
          by (intros ?; done). done.
      * rewrite (filter_cons_True (fun k => k ∉ walkedPaths w) k bound) by done.
        simpl. lia.
    + rewrite (filter_cons_True (fun k => k ∉ walkedPaths w') k bound) by done.
      rewrite (filter_cons_True (fun k => k ∉ walkedPaths w) k bound)
        by (intros ?; apply Hnin'; auto).
      simpl. lia.
Qed.

(** The weight of the calls in flight, one more while [cancel()] can still
    be called to an effect. *)
Definition remaining (s : State) : nat :=
  match search s with
  | AbsoluteStat rootFolders _ => 1 + total_weight (map RootReaddir rootFolders)
  | _ => 0
  end
  + total_weight (in_flight s)
  + (if isCanceled (walker s) then 0 else 1).

(** A step that changes the search: a callback runs, or [cancel()] is
    called for the first time. *)
Definition advances (s s' : State) : Prop :=
  (exists path, step (Callback path) s = Some s')
  \/ (isCanceled (walker s) = false /\ step CallCancel s = Some s').

Lemma advances_decreases cfg (bound : list string) s s' :
  (forall keys dir,
     guarded (cfg_rootFolders cfg) keys dir -> forall k, k ∈ keys -> k ∈ bound) ->
  arguments_inv cfg s ->
  Forall (leaf_ok (cfg_rootFolders cfg) (walker s)) (in_flight s) ->
  advances s s' ->
  unmarked bound (walker s') < unmarked bound (walker s)
  \/ (unmarked bound (walker s') = unmarked bound (walker s)
      /\ remaining s' < remaining s).
Proof.
  intros Hfin Ha Hl [[path Hs]|[Hc Hs]]; simpl in Hs.
  - unfold arguments_inv in Ha. unfold remaining. unfold in_flight in Hl |- * at 2.
    destruct (search s) as [rf ef|slots|] eqn:Hsearch; try discriminate.
    + destruct path; [|discriminate]. injection Hs as <-.
      destruct Ha as (-> & -> & _).
      match goal with |- context [after_absolute_match ?rf ?ef ?ex ?w] =>
        destruct (after_absolute_match_frame rf ef ex w) as (Hw & _ & Hc & Hfl);
        pose proof (after_absolute_match_not_absolute rf ef ex w) as Ha';
        set (s' := after_absolute_match rf ef ex w) in *
      end.
      right. unfold unmarked. rewrite Hw. split; [done|].
      rewrite Hc, Hfl.
      destruct (search s') as [rf' ef'| |]; [by destruct (Ha' rf' ef')| |];
        destruct (_ || _); unfold total_weight; simpl; lia.
    + destruct path as [|i path]; [discriminate|].
      destruct (slots !! i) as [slot|] eqn:Hi; [|discriminate].
      destruct (fire path slot (walker s)) as [[w' slot']|] eqn:Hf; [|discriminate].
      injection Hs as <-.
      destruct (fire_leaves _ _ _ _ _ Hf) as (io & k1 & k2 & Hlv & Hw & Hlv').
      destruct (flat_map_lookup_insert leaves slots i slot Hi)
        as (l1 & l2 & H1 & H2).
      assert (leaf_ok (cfg_rootFolders cfg) (walker s) io) as Hio.
      { rewrite H1, Hlv in Hl. apply Forall_app in Hl as [_ Hl].
        apply Forall_app in Hl as [Hl _]. apply Forall_app in Hl as [_ Hl].
        by apply Forall_cons in Hl as [Hl _]. }
      destruct (resume_progress _ _ _ Hio) as [_ Hp]. rewrite <-Hw in Hp.
      assert (walkedPaths (walker (join_roots (<[i:=slot']> slots) w'))
              = walkedPaths w'
              /\ isCanceled (walker (join_roots (<[i:=slot']> slots) w'))
                 = isCanceled w')
        as (Hjw & Hjc) by (unfold join_roots; by case_match).
      rewrite in_flight_join_roots, H2, Hlv'.
      unfold unmarked at 1 3. rewrite Hjw, Hjc.
      rewrite (toils_isCanceled _ _ (fire_toils _ _ _ _ _ Hf)).
      destruct Hp as [(Hwp & _ & Hlt)|(k & p & ks & Hg & Hk & Hwp & _)].
      * right. rewrite Hwp. split; [done|].
        rewrite H1, Hlv. unfold total_weight in *.
        rewrite !sum_list_with_app. simpl. rewrite ?sum_list_with_app.
        destruct (search (join_roots _ _)) as [rf ef| |] eqn:Hj; [|lia..].
        by apply join_roots_not_absolute in Hj.
      * left. apply (unmarked_lt bound (walker s) w' k); [|done|done].
        apply (Hfin _ _ Hg). by left.
  - injection Hs as <-. right. unfold unmarked, remaining, in_flight. simpl.
    rewrite Hc. split; [done|]. destruct (search s); lia.
Qed.

Lemma advances_reachable cfg schedule s' :
  advances (run schedule (Engine_search cfg)) s' ->
  exists schedule', s' = run schedule' (Engine_search cfg).
Proof.
  intros [[path Hs]|[_ Hs]].
  - exists (schedule ++ [Callback path]). rewrite run_app. cbn [run]. by rewrite Hs.
  - exists (schedule ++ [CallCancel]). rewrite run_app. cbn [run]. by rewrite Hs.
Qed.

Lemma search_terminates cfg (bound : list string) :
  (forall keys dir,
     guarded (cfg_rootFolders cfg) keys dir -> forall k, k ∈ keys -> k ∈ bound) ->
  forall schedule, Acc (flip advances) (run schedule (Engine_search cfg)).
Proof.
  intros Hfin.
  assert (forall n m schedule,
            unmarked bound (walker (run schedule (Engine_search cfg))) = n ->
            remaining (run schedule (Engine_search cfg)) = m ->
            Acc (flip advances) (run schedule (Engine_search cfg))) as H.
  { induction n as [n IHn] using lt_wf_ind.
    induction m as [m IHm] using lt_wf_ind.
    intros schedule Hn Hm. constructor. intros s' Hadv. unfold flip in Hadv.
    destruct (advances_reachable _ _ _ Hadv) as [schedule' ->].
    destruct (advances_decreases cfg bound _ _ Hfin
                (search_arguments_inv cfg schedule)
                (proj1 (search_flight_inv cfg schedule)) Hadv) as [Hlt|[Heq Hlt]].
    - eapply IHn; [|done..]. lia.
    - eapply IHm; [|congruence|done]. lia. }
  intros schedule. by eapply H.
Qed.

(** *** A search that is not finished can go on *)

Lemma Branch_nested_ind (P : Branch -> Prop) :
  (forall error, P (Settled error)) ->
  (forall io, P (Await io)) ->
  (forall slots, Forall P slots -> P (Par slots)) ->
  forall b, P b.
Proof.
  intros HS HA HP. fix IH 1. intros [error|io|slots]; [apply HS|apply HA|].
  apply HP. induction slots as [|b slots IHslots]; constructor; [apply IH|exact IHslots].
Qed.

Definition is_settled (b : Branch) : bool :=
  match b with Settled _ => true | _ => false end.

(** No [flow.parallel] is kept waiting once all its slots have called
    back. *)
Fixpoint normal (b : Branch) : bool :=
  match b with
  | Par slots => negb (forallb is_settled slots) && forallb normal slots
  | _ => true
  end.

Lemma parallel_outcome_settled slots :
  parallel_outcome slots = None <-> forallb is_settled slots = false.
Proof.
  unfold parallel_outcome.
  assert (mapM settled slots = None <-> forallb is_settled slots = false) as H.
  { induction slots as [|b slots IH]; [done|]. simpl.
    destruct b as [e| |]; simpl; try done.
    destruct (mapM settled slots); simpl; [|tauto].
    split; [done|]. intros H. by apply IH in H. }
  destruct (mapM settled slots); [|tauto]. split; [done|].
  intros H'. by apply H in H'.
Qed.

Lemma join_doWalk_normal slots :
  forallb normal slots = true -> normal (join_doWalk slots) = true.
Proof.
  intros H. unfold join_doWalk.
  destruct (parallel_outcome slots) eqn:Ho; [done|]. simpl.
  apply parallel_outcome_settled in Ho. by rewrite Ho, H.
Qed.

Lemma doWalk_normal a r fs w : normal (doWalk a r fs w).2 = true.
Proof.
  unfold doWalk.
  pose proof (flow_parallel_forallb normal (doWalk_entry a r fs) fs) as H.
  destruct (flow_parallel _ fs w) as [w' slots] eqn:Hf.
  simpl. apply join_doWalk_normal. specialize (H ltac:(
    intros x w0; unfold doWalk_entry; by repeat case_match) w).
  by rewrite Hf in H.
Qed.

Lemma resume_normal io w : normal (resume io w).2 = true.
Proof.
  destruct io; simpl.
  - unfold after_root_readdir, checkFilePatternRelativeMatch, after_relative_match.
    repeat case_match; try done; apply doWalk_normal.
  - unfold after_relative_match. repeat case_match; try done; apply doWalk_normal.
  - unfold after_lstat, realPathIfNeeded, after_realpath.
    by repeat case_match.
  - unfold after_realpath. by repeat case_match.
  - unfold after_readdir. repeat case_match; try done; apply doWalk_normal.
Qed.

Lemma fire_normal path : forall b w w' b',
  fire path b w = Some (w', b') -> normal b = true -> normal b' = true.
Proof.
  induction path as [|i path IH]; intros b w w' b' H Hc; destruct b; simpl in H;
    try discriminate.
  - injection H as H. pose proof (resume_normal io w) as Hr. by rewrite H in Hr.
  - destruct (slots !! i) as [slot|] eqn:Hi; [|discriminate].
    destruct (fire path slot w) as [[w1 slot']|] eqn:Hf; [|discriminate].
    injection H as <- <-. simpl in Hc. apply andb_true_iff in Hc as [_ Hc].
    apply join_doWalk_normal. apply forallb_insert; [done|].
    eapply IH; [exact Hf|]. eapply forallb_lookup; eauto.
Qed.

Lemma fire_possible b :
  normal b = true -> is_settled b = false ->
  exists path, forall w, is_Some (fire path b w).
Proof.
  induction b as [error|io|slots IH] using Branch_nested_ind; intros Hn Hs.
  - done.
  - exists []. intros w. simpl. eauto.
  - simpl in Hn. apply andb_true_iff in Hn as [Hlive Hn].
    apply negb_true_iff in Hlive.
    assert (exists i slot, slots !! i = Some slot /\ is_settled slot = false)
      as (i & slot & Hi & Hslot).
    { clear IH Hn Hs. induction slots as [|b slots IHs]; [done|].
      simpl in Hlive. destruct (is_settled b) eqn:Hb.
      - destruct (IHs Hlive) as (i & slot & Hi & Hslot).
        by exists (S i), slot.
      - by exists 0, b. }
    rewrite Forall_forall in IH.
    destruct (IH slot (list_elem_of_lookup_2 _ _ _ Hi)
                (forallb_lookup _ _ _ _ Hn Hi) Hslot) as [path Hpath].
    exists (i :: path). intros w. simpl. rewrite Hi.
    destruct (Hpath w) as [[w' slot'] ->]. eauto.
Qed.

Definition live_inv (s : State) : Prop :=
  match search s with
  | Roots slots => forallb normal slots = true /\ forallb is_settled slots = false
  | _ => True
  end.

Lemma join_roots_live_inv slots w :
  forallb normal slots = true -> live_inv (join_roots slots w).
Proof.
  intros H. unfold join_roots, live_inv.
  destruct (parallel_outcome slots) eqn:Ho; [done|]. simpl.
  by apply parallel_outcome_settled in Ho.
Qed.

Lemma after_absolute_match_live_inv rf ef ex w :
  live_inv (after_absolute_match rf ef ex w).
Proof.
  unfold after_absolute_match.
  destruct (isCanceled w); [done|]. destruct ex; [done|].
  pose proof (flow_parallel_forallb normal walk_root rf (fun _ _ => eq_refl)
                (foldl (fun w f => extraFile f w) w (default [] ef))) as H.
  destruct (flow_parallel walk_root rf _) as [w2 slots].
  by apply join_roots_live_inv.
Qed.

Lemma search_live_inv cfg schedule : live_inv (run schedule (Engine_search cfg)).
Proof.
  apply run_invariant.
  - intros c s s' Hs H. destruct c as [path|]; simpl in Hs.
    + unfold live_inv in H.
      destruct (search s) as [rf ef|slots|] eqn:Hsearch; try discriminate.
      * destruct path; [|discriminate]. injection Hs as <-.
        apply after_absolute_match_live_inv.
      * destruct path as [|i path]; [discriminate|].
        destruct (slots !! i) as [slot|] eqn:Hi; [|discriminate].
        destruct (fire path slot (walker s)) as [[w' slot']|] eqn:Hf; [|discriminate].
        injection Hs as <-. destruct H as [Hn _]. apply join_roots_live_inv.
        apply forallb_insert; [done|].
        eapply fire_normal; [exact Hf|]. eapply forallb_lookup; eauto.
    + injection Hs as <-. exact H.
  - unfold Engine_search, walk, checkFilePatternAbsoluteMatch. case_match; [|done].
    apply after_absolute_match_live_inv.
Qed.

(** When no callback can run, [done] has been called. *)
Lemma search_progress cfg schedule :
  (forall path, step (Callback path) (run schedule (Engine_search cfg)) = None) ->
  search (run schedule (Engine_search cfg)) = Finished.
Proof.
  intros Hstuck. pose proof (search_live_inv cfg schedule) as H.
  unfold live_inv in H.
  destruct (search (run schedule (Engine_search cfg))) as [rf ef|slots|] eqn:Hs;
    [| |done].
  - specialize (Hstuck []). simpl in Hstuck. by rewrite Hs in Hstuck.
  - destruct H as [Hn Hlive].
    assert (exists i slot, slots !! i = Some slot /\ is_settled slot = false)
      as (i & slot & Hi & Hslot).
    { clear Hn Hs. induction slots as [|b slots IHs]; [done|].
      simpl in Hlive. destruct (is_settled b) eqn:Hb.
      - destruct (IHs Hlive) as (i & slot & Hi & Hslot).
        by exists (S i), slot.
      - by exists 0, b. }
    destruct (fire_possible slot (forallb_lookup _ _ _ _ Hn Hi) Hslot)
      as [path Hpath].
    specialize (Hstuck (i :: path)). simpl in Hstuck. rewrite Hs, Hi in Hstuck.
    destruct (Hpath (walker (run schedule (Engine_search cfg))))
      as [[w' slot'] Hf].
    by rewrite Hf in Hstuck.
Qed.

(** C2, as it holds: under every schedule, the keys under which the walk
    remembers the directories it goes into are pairwise distinct, that is, a
    key is recursed into at most once; the key of a directory is what
    [realPathIfNeeded] gives for the path it is walked by: its symlink-
    resolved path when [fs.lstat] reports a symbolic link, and the walked
    path itself otherwise.  When the keys that can be met on the way down
    from the roots (a directory is not gone into under a key met above it)
    all lie in a finite list, every search comes to its end, in whatever
    order the callbacks run: no run goes on for ever, and when no callback
    is left [done] has been called exactly once.  Symbolic links to an
    ancestor do not change this. *)
Theorem C2_keys_walked_once_and_search_terminates cfg (bound : list string) schedule :
  (forall keys dir,
     guarded (cfg_rootFolders cfg) keys dir -> forall k, k ∈ keys -> k ∈ bound) ->
  let s := run schedule (Engine_search cfg) in
  NoDup (recursions (walker s)).*1
  /\ (forall key path,
        (key, path) ∈ recursions (walker s) ->
        exists lstat,
          fs_lstat host path = Ok lstat /\ isDirectory lstat = true
          /\ walk_key path lstat = Ok key)
  /\ Acc (flip advances) s
  /\ ((forall path, step (Callback path) s = None) ->
      search s = Finished
      /\ exists limit, done_calls (walker s) = [(None, limit)]).
Proof.
  intros Hfin s. split_and!.
  - apply (search_keys_inv cfg schedule).
  - intros key path Hin.
    destruct (search_flight_inv cfg schedule) as [_ Hrec].
    rewrite Forall_forall in Hrec. destruct (Hrec _ Hin) as [keys Hg].
    simpl in Hg. inversion Hg; subst. eauto.
  - by apply (search_terminates cfg bound).
  - intros Hstuck. pose proof (search_progress cfg schedule Hstuck) as Hf.
    split; [done|].
    pose proof (search_done_inv cfg schedule) as Hd. unfold done_inv in Hd.
    fold s in Hd, Hf. rewrite Hf in Hd. destruct Hd as [error Hd].
    pose proof (search_quiet_inv cfg schedule) as [_ Hq]. fold s in Hq.
    rewrite Hd in Hq. apply Forall_cons in Hq as [Hq _]. simpl in Hq. subst error.
    eauto.
Qed.

(** ** Listing everything *)

(** The directories whose listing the walk asked for, oldest first. *)
Definition listings (w : FileWalker) : list string :=
  reverse (omap (fun e => match e with
                          | FsCall OpReaddir path => Some path
                          | _ => None
                          end) (log w)).

(** An entry that [fs.lstat] does not report as a directory. *)
Definition is_file (path : string) : bool :=
  match fs_lstat host path with
  | Ok lstat => negb (isDirectory lstat)
  | Fail _ => false
  end.

(** The entries of a directory that are files, by their joined paths. *)
Definition files_of (dir : string) : list string :=
  match extfs_readdir host dir with
  | Ok children =>
      filter (fun path => is_file path = true) (map (paths_join host dir) children)
  | Fail _ => []
  end.

(** The files a call in flight will still lead to, in the directory it reads
    or for the entry it looks at. *)
Definition owed (io : Pending) : list string :=
  match io with
  | RootReaddir root => files_of root
  | RelativeStat _ _ _ => []
  | Lstat e => if is_file (currentPath e) then [currentPath e] else []
  | Realpath _ => []
  | Readdir e => files_of (currentPath e)
  end.

(** The entry of a directory that a call in flight still has to deal with:
    every entry of the directory it reads, or the entry it looks at. *)
Definition covers (io : Pending) (dir name : string) : Prop :=
  match io with
  | RootReaddir root => root = dir
  | RelativeStat _ _ _ => False
  | Lstat e | Realpath e => absolutePath e = dir /\ file e = name
  | Readdir e => currentPath e = dir
  end.

(** If the entry is a directory, its key is marked as walked. *)
Definition resolved (w : FileWalker) (dir name : string) : Prop :=
  forall lstat key,
    fs_lstat host (paths_join host dir name) = Ok lstat ->
    isDirectory lstat = true ->
    walk_key (paths_join host dir name) lstat = Ok key ->
    key ∈ walkedPaths w.

Definition covered (w : FileWalker) (l : list Pending) : Prop :=
  forall dir children name,
    dir ∈ listings w ->
    extfs_readdir host dir = Ok children ->
    name ∈ children ->
    (exists io, io ∈ l /\ covers io dir name) \/ resolved w dir name.

Definition not_relative (io : Pending) : Prop :=
  match io with RelativeStat _ _ _ => False | _ => True end.

(** No file pattern, no include pattern, no exclude pattern, no limit. *)
Definition unfiltered (w : FileWalker) : Prop :=
  filePattern w = None /\ includePattern w = None
  /\ excludePattern w = None /\ maxResults w = None.

Lemma listings_emit e w :
  listings (emit e w)
  = listings w ++ match e with
                  | FsCall OpReaddir path => [path]
                  | _ => []
                  end.
Proof.
  unfold listings. simpl. destruct e as [| [] | |]; simpl;
    rewrite ?reverse_cons, ?app_nil_r; done.
Qed.

Lemma delivered_emit e w :
  delivered (emit e w) = delivered w ++ option_list (result_path e).
Proof.
  unfold delivered. simpl.
  destruct (result_path e); simpl; [by rewrite reverse_cons|by rewrite app_nil_r].
Qed.

Lemma matchFile_listings bn ap rp w :
  listings (matchFile bn ap rp w) = listings w.
Proof.
  unfold listings. by destruct (matchFile_log bn ap rp w) as [->| ->].
Qed.

(** The listings asked for while walking are those of the directories gone
    into. *)
Lemma work_listings w w' :
  work w w' ->
  exists new,
    recursions w' = recursions w ++ new /\ listings w' = listings w ++ new.*2.
Proof.
  destruct 1 as [bn ap rp w|op path w Hop|k cur w _ _|origin path w _ _].
  - exists []. by rewrite matchFile_recursions, matchFile_listings, !app_nil_r.
  - exists []. rewrite recursions_emit, listings_emit, !app_nil_r.
    destruct op; rewrite ?app_nil_r; done.
  - exists [(k, cur)]. rewrite !recursions_emit, !listings_emit, !app_nil_r. done.
  - exists []. by rewrite recursions_emit, listings_emit, !app_nil_r.
Qed.

Lemma toils_listings w w' :
  toils w w' ->
  exists new,
    recursions w' = recursions w ++ new /\ listings w' = listings w ++ new.*2.
Proof.
  induction 1 as [w|w1 w2 w3 H _ (new2 & Hr2 & Hl2)].
  - exists []. by rewrite !app_nil_r.
  - destruct (work_listings _ _ H) as (new1 & Hr1 & Hl1).
    exists (new1 ++ new2). by rewrite Hr2, Hl2, Hr1, Hl1, fmap_app, !app_assoc.
Qed.

Lemma fs_only_delivered w w' : fs_only w w' -> delivered w' = delivered w.
Proof.
  intros (calls & -> & H). induction H as [|c calls Hc _ IH]; simpl; [done|].
  rewrite delivered_emit, IH. destruct c; try done. by rewrite app_nil_r.
Qed.

Lemma doWalk_listings a r fs w : listings (doWalk a r fs w).1 = listings w.
Proof.
  destruct (toils_listings _ _ (doWalk_toils a r fs w)) as (new & Hr & ->).
  rewrite (fs_only_recursions _ _ (doWalk_fs_only a r fs w)) in Hr.
  rewrite <-(app_nil_r (recursions w)) in Hr at 1.
  apply app_inv_head in Hr as <-. by rewrite app_nil_r.
Qed.

Lemma work_unlimited w w' :
  work w w' -> maxResults w = None -> isLimitHit w = false ->
  isLimitHit w' = false.
Proof.
  destruct 1 as [bn ap rp w| | |]; try done. intros Hm Hl.
  destruct (file_match_test w bn rp) eqn:Ht.
  - destruct (matchFile_pass bn ap rp w Ht) as (_ & -> & _).
    unfold over_limit. by rewrite Hm, Hl.
  - by rewrite (matchFile_fail _ _ _ _ Ht).
Qed.

Lemma toils_unfiltered w w' :
  toils w w' -> unfiltered w -> isLimitHit w = false ->
  unfiltered w' /\ isLimitHit w' = false.
Proof.
  intros Ht. induction Ht as [|w1 w2 w3 H _ IH]; [done|].
  intros Hu Hl. apply IH.
  - destruct (prim_same_setup _ _ (prim_work _ _ H)) as (_ & ? & ? & ? & ? & _).
    destruct Hu as (? & ? & ? & ?). unfold unfiltered. split_and!; congruence.
  - destruct Hu as (_ & _ & _ & Hm). by apply (work_unlimited _ _ H).
Qed.

Section Unfiltered.

(** [glob.match] with no expression matches nothing. *)
Hypothesis glob_undefined :
  forall path siblings, glob_match host None path siblings = false.

Lemma file_match_test_unfiltered w bn rp :
  unfiltered w -> file_match_test w bn rp = true.
Proof.
  intros (Hf & Hi & _). unfold file_match_test, isFilePatternMatch.
  by rewrite Hf, Hi.
Qed.

Lemma matchFile_unfiltered bn ap rp w :
  unfiltered w -> isLimitHit w = false ->
  delivered (matchFile bn ap rp w) = delivered w ++ [ap].
Proof.
  intros Hu Hl.
  destruct (matchFile_pass bn ap rp w (file_match_test_unfiltered w bn rp Hu))
    as (_ & _ & Hlog & _).
  destruct Hu as (_ & _ & _ & Hm). unfold over_limit in Hlog.
  rewrite Hm, Hl in Hlog. simpl in Hlog. unfold delivered. rewrite Hlog.
  simpl. by rewrite reverse_cons.
Qed.

Lemma entry_skipped_unfiltered w e :
  unfiltered w -> stopped w = false -> entry_skipped w e = false.
Proof.
  intros (_ & _ & He & _) Hs. unfold entry_skipped.
  by rewrite Hs, He, glob_undefined.
Qed.

Lemma leaves_doWalk_unfiltered a r fs w :
  unfiltered w -> stopped w = false ->
  leaves (doWalk a r fs w).2 = map (fun f => Lstat (mkEntry a r fs f)) fs.
Proof.
  intros Hu Hs. rewrite leaves_doWalk. f_equal.
  apply filter_all. intros f. by apply entry_skipped_unfiltered.
Qed.

Lemma owed_lstats a r fs0 fs :
  flat_map owed (map (fun f => Lstat (mkEntry a r fs0 f)) fs)
  = filter (fun path => is_file path = true) (map (paths_join host a) fs).
Proof.
  induction fs as [|f fs IH]; [done|]. simpl. rewrite IH.
  change (currentPath (mkEntry a r fs0 f)) with (paths_join host a f).
  destruct (is_file (paths_join host a f)) eqn:Hf.
  - by rewrite filter_cons_True.
  - rewrite filter_cons_False; [done|]. by rewrite Hf.
Qed.

(** What a callback does in an unfiltered search. *)
Definition step_ok (io : Pending) (w w' : FileWalker) (l : list Pending) : Prop :=
  Forall not_relative l
  /\ exists newd newr,
       delivered w' = delivered w ++ newd
       /\ recursions w' = recursions w ++ newr
       /\ listings w' = listings w ++ newr.*2
       /\ newd ++ flat_map owed l ≡ₚ owed io ++ flat_map files_of newr.*2
       /\ (forall dir children name,
             covers io dir name ->
             extfs_readdir host dir = Ok children ->
             name ∈ children ->
             (exists io2, io2 ∈ l /\ covers io2 dir name) \/ resolved w' dir name)
       /\ (forall dir,
             dir ∈ newr.*2 -> exists io2, io2 ∈ l /\ forall name, covers io2 dir name).

Lemma step_ok_nothing io w :
  owed io = [] ->
  (forall dir children name,
     covers io dir name -> extfs_readdir host dir = Ok children ->
     name ∈ children -> resolved w dir name) ->
  step_ok io w w [].
Proof.
  intros Ho Hc. split; [done|]. exists [], []. rewrite !app_nil_r, Ho.
  split_and!; try done.
  - intros dir children name H1 H2 H3. right. eauto.
  - by intros dir ?%elem_of_nil.
Qed.

Lemma doWalk_step_ok io dir r children w :
  unfiltered w -> stopped w = false ->
  extfs_readdir host dir = Ok children ->
  owed io = files_of dir ->
  (forall dir' name, covers io dir' name -> dir' = dir) ->
  step_ok io w (doWalk dir r children w).1 (leaves (doWalk dir r children w).2).
Proof.
  intros Hu Hs Hfs Ho Hc. rewrite leaves_doWalk_unfiltered by done.
  split; [by apply Forall_map, Forall_forall|].
  exists [], []. rewrite !app_nil_r. simpl.
  rewrite (fs_only_delivered _ _ (doWalk_fs_only dir r children w)).
  rewrite (fs_only_recursions _ _ (doWalk_fs_only dir r children w)).
  rewrite doWalk_listings, owed_lstats, Ho. unfold files_of. rewrite Hfs.
  split_and!; try done.
  - intros dir' children' name Hcov Hfs' Hin. left.
    apply Hc in Hcov as ->. rewrite Hfs in Hfs'. injection Hfs' as <-.
    exists (Lstat (mkEntry dir r children name)). split; [|done].
    apply list_elem_of_fmap. by exists name.
  - by intros dir' ?%elem_of_nil.
Qed.

Lemma after_realpath_step_ok io e r w lstat :
  stopped w = false ->
  fs_lstat host (currentPath e) = Ok lstat ->
  isDirectory lstat = true ->
  walk_key (currentPath e) lstat = r ->
  owed io = [] ->
  (forall dir name, covers io dir name -> absolutePath e = dir /\ file e = name) ->
  step_ok io w (after_realpath e r w).1 (leaves (after_realpath e r w).2).
Proof.
  intros Hs Hl Hd Hkey Ho Hc. unfold after_realpath.
  assert (forall w' key, r = Ok key -> key ∈ walkedPaths w' ->
            forall dir children name,
              covers io dir name -> extfs_readdir host dir = Ok children ->
              name ∈ children -> resolved w' dir name) as Hres.
  { intros w' key -> Hin dir children name [<- <-]%Hc _ _ lstat' key' Hl' _ Hk'.
    change (paths_join host (absolutePath e) (file e)) with (currentPath e) in *.
    rewrite Hl in Hl'. injection Hl' as <-. rewrite Hkey in Hk'. congruence. }
  destruct r as [key|].
  - rewrite Hs. case_bool_decide as Hw.
    + apply step_ok_nothing; [done|]. intros dir children name.
      by apply (Hres w key).
    + cbn [fst snd leaves]. split; [by repeat constructor|].
      exists [], [(key, currentPath e)].
      rewrite !recursions_emit, !listings_emit, !delivered_emit.
      change (delivered (set_walkedPaths _ w)) with (delivered w).
      change (recursions (set_walkedPaths _ w)) with (recursions w).
      change (listings (set_walkedPaths _ w)) with (listings w).
      simpl. rewrite !app_nil_r, Ho.
      split_and!; try done.
      * intros dir children name H1 H2 H3. right.
        apply (Hres _ key eq_refl) with (children := children); [|done..].
        simpl. apply elem_of_union_l. by apply elem_of_singleton.
      * intros dir ->%list_elem_of_singleton. exists (Readdir e).
        split; [by left|done].
  - apply step_ok_nothing; [done|].
    intros dir children name [<- <-]%Hc _ _ lstat' key' Hl' _ Hk'.
    change (paths_join host (absolutePath e) (file e)) with (currentPath e) in *.
    rewrite Hl in Hl'. injection Hl' as <-. by rewrite Hkey in Hk'.
Qed.

Lemma resume_step_ok roots w io :
  unfiltered w -> stopped w = false -> not_relative io -> leaf_ok roots w io ->
  step_ok io w (resume io w).1 (leaves (resume io w).2).
Proof.
  intros Hu Hs Hrel Hok.
  destruct io as [root|root rootFiles cand|e|e|e]; cbn [resume] in *; [|done|..].
  - unfold after_root_readdir.
    destruct (extfs_readdir host root) as [rootFiles|] eqn:Hfs.
    + rewrite Hs. unfold checkFilePatternRelativeMatch.
      destruct Hu as (Hf & Hu'). rewrite Hf. simpl.
      unfold after_relative_match. rewrite Hs.
      by apply doWalk_step_ok.
    + apply step_ok_nothing; [by unfold owed, files_of; rewrite Hfs|].
      intros dir children name <- Hfs'. by rewrite Hfs in Hfs'.
  - unfold after_lstat.
    destruct (fs_lstat host (currentPath e)) as [lstat|] eqn:Hl.
    + rewrite Hs. destruct (isDirectory lstat) eqn:Hd.
      * unfold realPathIfNeeded. destruct (isSymbolicLink lstat) eqn:Hsym.
        -- simpl. split; [by repeat constructor|]. exists [], [].
           rewrite recursions_emit, listings_emit, delivered_emit. simpl.
           unfold is_file. rewrite Hl, Hd. simpl. rewrite !app_nil_r.
           split_and!; try done.
           ++ intros dir children name Hcov _ _. left. exists (Realpath e).
              split; [by left|done].
           ++ by intros dir ?%elem_of_nil.
        -- apply (after_realpath_step_ok _ e _ w lstat); try done.
           ++ unfold walk_key. by rewrite Hsym.
           ++ simpl. unfold is_file. by rewrite Hl, Hd.
      * destruct Hu as (Hf & Hu'). rewrite Hf.
        rewrite bool_decide_eq_false_2 by done. simpl.
        split; [done|]. exists [currentPath e], [].
        assert (isLimitHit w = false) as Hlimit
            by (unfold stopped in Hs; by apply orb_false_iff in Hs as [_ ?]).
        rewrite matchFile_unfiltered, matchFile_recursions, matchFile_listings,
          !app_nil_r by done.
        cbn [owed]. unfold is_file. rewrite Hl, Hd. simpl.
        split_and!; try done.
        -- intros dir children name [<- <-] _ _. right.
           intros lstat' key' Hl' Hd'.
           change (paths_join host (absolutePath e) (file e))
             with (currentPath e) in *.
           rewrite Hl in Hl'. injection Hl' as <-. congruence.
        -- by intros dir ?%elem_of_nil.
    + apply step_ok_nothing; [by simpl; unfold is_file; rewrite Hl|].
      intros dir children name [<- <-] _ _ lstat' key' Hl'.
      change (paths_join host (absolutePath e) (file e)) with (currentPath e) in *.
      by rewrite Hl in Hl'.
  - destruct Hok as (_ & lstat & Hl & Hd & Hsym).
    apply (after_realpath_step_ok _ e _ w lstat); try done.
    unfold walk_key. by rewrite Hsym.
  - unfold after_readdir.
    destruct (extfs_readdir host (currentPath e)) as [children|] eqn:Hfs.
    + rewrite Hs. apply doWalk_step_ok; try done.
    + apply step_ok_nothing; [by unfold owed, files_of; rewrite Hfs|].
      intros dir children name <- Hfs'. by rewrite Hfs in Hfs'.
Qed.

Lemma extraFiles_unfiltered extra : forall w,
  unfiltered w -> isLimitHit w = false ->
  delivered (foldl (fun w f => extraFile f w) w extra) = delivered w ++ extra
  /\ listings (foldl (fun w f => extraFile f w) w extra) = listings w.
Proof.
  induction extra as [|f extra IH]; intros w Hu Hl; simpl.
  { by rewrite app_nil_r. }
  assert (extraFile f w = matchFile (paths_basename host f) f f w) as ->.
  { unfold extraFile. destruct Hu as (_ & _ & -> & _). by rewrite glob_undefined. }
  destruct (toils_unfiltered _ _ (toils_once _ _ (work_matchFile
              (paths_basename host f) f f w)) Hu Hl) as [Hu' Hl'].
  destruct (IH _ Hu' Hl') as [-> ->].
  rewrite matchFile_unfiltered, matchFile_listings by done.
  by rewrite <-app_assoc.
Qed.

Lemma walk_roots_listings rootFolders : forall w,
  listings (flow_parallel walk_root rootFolders w).1 = listings w ++ rootFolders.
Proof.
  induction rootFolders as [|root rest IH]; intros w; simpl.
  { by rewrite app_nil_r. }
  specialize (IH (emit (FsCall OpReaddir root) w)).
  destruct (flow_parallel walk_root rest _) as [w2 bs]. simpl in *.
  by rewrite IH, listings_emit, <-app_assoc.
Qed.

Lemma owed_roots (rootFolders : list string) :
  flat_map owed (map RootReaddir rootFolders) = flat_map files_of rootFolders.
Proof. induction rootFolders as [|root rest IH]; simpl; [done|]. by rewrite IH. Qed.

(** The invariant of an unfiltered search that is not canceled: what was
    delivered and what the calls in flight still owe make up the extra
    files and the files of the directories whose listing was asked for;
    every entry of such a directory is dealt with or has a call in flight;
    and the listings asked for are those of the roots and of the
    directories gone into. *)
Definition listing_inv (roots extras : list string) (b : bool)
    (w : FileWalker) (l : list Pending) : Prop :=
  unfiltered w /\ isLimitHit w = false /\ Forall not_relative l
  /\ (isCanceled w = false ->
      if b then
        delivered w ++ flat_map owed l ≡ₚ extras ++ flat_map files_of (listings w)
        /\ covered w l
        /\ listings w = roots ++ (recursions w).*2
      else delivered w = [] /\ listings w = [] /\ recursions w = []).

Lemma listing_inv_done roots extras w l error :
  listing_inv roots extras true w l ->
  listing_inv roots extras true (emit (OnDone error (isLimitHit w)) w) l.
Proof.
  intros H. exact H.
Qed.

Lemma resolved_mono w w' dir name :
  walkedPaths w ⊆ walkedPaths w' -> resolved w dir name -> resolved w' dir name.
Proof. intros Hsub H lstat key H1 H2 H3. apply Hsub. eauto. Qed.

Lemma listing_inv_resume roots extras w io l1 l2 :
  flight_inv roots w (l1 ++ io :: l2) ->
  listing_inv roots extras true w (l1 ++ io :: l2) ->
  listing_inv roots extras true (resume io w).1
    (l1 ++ leaves (resume io w).2 ++ l2).
Proof.
  intros [Hleaf _] (Hu & Hl & Hrel & H).
  apply Forall_app in Hrel as [Hrel1 Hrel2].
  apply Forall_cons in Hrel2 as [Hio Hrel2].
  apply Forall_app in Hleaf as [_ Hleaf]. apply Forall_cons in Hleaf as [Hok _].
  destruct (toils_unfiltered _ _ (resume_toils io w) Hu Hl) as [Hu' Hl'].
  destruct (isCanceled w) eqn:Hc.
  { rewrite resume_stopped by (unfold stopped; by rewrite Hc).
    simpl. split_and!; try done; [by apply Forall_app|]. by rewrite Hc. }
  assert (stopped w = false) as Hs by (unfold stopped; by rewrite Hc, Hl).
  destruct (resume_step_ok roots w io Hu Hs Hio Hok)
    as (Hrel' & newd & newr & Hd & Hr & Hls & Hperm & Hcov & Hnew).
  destruct (resume_progress roots w io Hok) as [_ Hp].
  pose proof (progress_walkedPaths _ _ _ _ _ Hp) as Hsub.
  split_and!; try done.
  { apply Forall_app. split; [done|]. by apply Forall_app. }
  intros _. destruct (H eq_refl) as (IH1 & IH2 & IH3). split_and!.
  - rewrite Hd, Hls, !flat_map_app. simpl in IH1.
    rewrite flat_map_app in IH1. simpl in IH1.
    transitivity ((delivered w ++ flat_map owed l1 ++ flat_map owed l2)
                  ++ (newd ++ flat_map owed (leaves (resume io w).2)));
      [solve_Permutation|].
    rewrite Hperm.
    transitivity ((delivered w ++ flat_map owed l1 ++ owed io ++ flat_map owed l2)
                  ++ flat_map files_of newr.*2); [solve_Permutation|].
    rewrite IH1. by rewrite <-app_assoc.
  - intros dir children name Hin Hfs Hname. rewrite Hls in Hin.
    apply elem_of_app in Hin as [Hin|Hin].
    + destruct (IH2 dir children name Hin Hfs Hname) as [(io' & Hio' & Hc')|Hres].
      * apply elem_of_app in Hio' as [Hio'|Hio'].
        { left. exists io'. split; [|done]. apply elem_of_app. by left. }
        apply elem_of_cons in Hio' as [->|Hio'].
        -- destruct (Hcov dir children name Hc' Hfs Hname)
             as [(io2 & Hio2 & Hc2)|Hres]; [|by right].
           left. exists io2. split; [|done].
           apply elem_of_app. right. apply elem_of_app. by left.
        -- left. exists io'. split; [|done].
           apply elem_of_app. right. apply elem_of_app. by right.
      * right. by apply (resolved_mono w).
    + destruct (Hnew dir Hin) as (io2 & Hio2 & Hc2). left. exists io2.
      split; [|done]. apply elem_of_app. right. apply elem_of_app. by left.
  - by rewrite Hls, Hr, IH3, fmap_app, app_assoc.
Qed.

Lemma listing_inv_start roots ef ex w :
  listing_inv roots (default [] ef) false w [] ->
  (ex = true -> truthy_string (filePattern w) = true) ->
  listing_inv roots (default [] ef) true
    (walker (after_absolute_match roots ef ex w))
    (in_flight (after_absolute_match roots ef ex w)).
Proof.
  intros (Hu & Hl & _ & H) Hex.
  assert (ex = false) as ->.
  { destruct ex; [|done]. destruct Hu as (Hf & _). rewrite Hf in Hex.
    by specialize (Hex eq_refl). }
  destruct (after_absolute_match_frame roots ef false w) as (_ & Hr & Hc & Hfl).
  destruct (evolves_same_setup _ _ (after_absolute_match_evolves roots ef false w))
    as (_ & Hs1 & Hs2 & Hs3 & Hs4 & _).
  assert (unfiltered (walker (after_absolute_match roots ef false w))) as Hu'.
  { destruct Hu as (? & ? & ? & ?). unfold unfiltered. split_and!; congruence. }
  rewrite Hfl, orb_false_r.
  unfold after_absolute_match in *. destruct (isCanceled w) eqn:Hcw.
  { simpl in *. split_and!; try done.
    change (isCanceled (emit _ w)) with (isCanceled w). by rewrite Hcw. }
  destruct (H eq_refl) as (Hd0 & Hl0 & Hr0).
  destruct (extraFiles_unfiltered (default [] ef) w Hu Hl) as [Hd1 Hl1].
  destruct (toils_unfiltered _ _ (extraFiles_toils (default [] ef) w) Hu Hl)
    as [_ Hlim1].
  pose proof (walk_roots_fs_only roots
                (foldl (fun w f => extraFile f w) w (default [] ef))) as Hfs.
  pose proof (walk_roots_listings roots
                (foldl (fun w f => extraFile f w) w (default [] ef))) as Hl2.
  destruct (flow_parallel walk_root roots _) as [w2 slots]. simpl in Hfs, Hl2.
  destruct (fs_only_fields _ _ Hfs) as (_ & Hlim2 & _).
  pose proof (fs_only_delivered _ _ Hfs) as Hd2.
  assert (delivered (walker (join_roots slots w2)) = default [] ef
          /\ listings (walker (join_roots slots w2)) = roots
          /\ isLimitHit (walker (join_roots slots w2)) = false) as (Hd & Hls & Hlim).
  { unfold join_roots. destruct (parallel_outcome slots); cbn [walker];
      rewrite ?delivered_emit, ?listings_emit, ?app_nil_r; simpl;
      rewrite ?app_nil_r, ?Hd2, ?Hd1, ?Hd0, ?Hl2, ?Hl1, ?Hl0, ?Hlim2; done. }
  split_and!; try done.
  { apply Forall_map, Forall_forall. by intros root _. }
  intros _. rewrite Hd, Hls, Hr, Hr0, owed_roots, app_nil_r. split_and!; try done.
  intros dir children name Hin _ _. left. exists (RootReaddir dir).
  split; [|done]. apply list_elem_of_fmap. exists dir. split; [done|].
  by rewrite Hls in Hin.
Qed.

Lemma search_listing_inv cfg schedule :
  cfg_filePattern cfg = None ->
  cfg_includePattern cfg = None ->
  cfg_excludePattern cfg = None ->
  cfg_maxResults cfg = None ->
  listing_inv (cfg_rootFolders cfg) (default [] (cfg_extraFiles cfg))
    (started (run schedule (Engine_search cfg)))
    (walker (run schedule (Engine_search cfg)))
    (in_flight (run schedule (Engine_search cfg))).
Proof.
  intros Hf Hi He Hm.
  pose proof (in_flight_invariant
                (fun b w l =>
                   flight_inv (cfg_rootFolders cfg) w l
                   /\ listing_inv (cfg_rootFolders cfg)
                        (default [] (cfg_extraFiles cfg)) b w l) cfg) as H.
  apply H.
  - intros w l error [H1 H2].
    split; [by apply flight_inv_done|by apply listing_inv_done].
  - intros b w l [[H1 H2] (Hu & Hl & Hrel & _)]. split; [by split|].
    by split_and!.
  - intros w io l1 l2 [H1 H2].
    split; [by apply flight_inv_resume|by apply listing_inv_resume].
  - intros w ex [H1 H2] Hex.
    split; [by apply flight_inv_start|by apply listing_inv_start].
  - intros w path [H1 (Hu & Hl & Hrel & H2)].
    split; [by apply flight_inv_stat|]. by split_and!.
  - split; [split; constructor|].
    unfold listing_inv, unfiltered, new_FileWalker. simpl.
    rewrite Hf, Hi, He, Hm. simpl. by split_and!.
Qed.

End Unfiltered.

(** C4, as it holds: in a search with no file pattern, no include pattern,
    no exclude pattern and no limit, that was not canceled and has come to
    its end, under every schedule: the directories read are the root
    folders, each as often as it is named, and then the directories gone
    into; the paths delivered are the extra files and, for every directory
    read and as often as it is read, its entries that are not directories,
    and nothing else; and every entry that is a directory has had its key
    walked, by going into it or by an earlier visit under the same key,
    where no key is gone into twice. *)
Theorem C4_unfiltered_search_delivers_every_file cfg schedule :
  (forall path siblings, glob_match host None path siblings = false) ->
  cfg_filePattern cfg = None ->
  cfg_includePattern cfg = None ->
  cfg_excludePattern cfg = None ->
  cfg_maxResults cfg = None ->
  let s := run schedule (Engine_search cfg) in
  isCanceled (walker s) = false ->
  search s = Finished ->
  listings (walker s) = cfg_rootFolders cfg ++ (recursions (walker s)).*2
  /\ delivered (walker s)
     ≡ₚ default [] (cfg_extraFiles cfg) ++ flat_map files_of (listings (walker s))
  /\ (forall dir children name lstat key,
        dir ∈ listings (walker s) ->
        extfs_readdir host dir = Ok children ->
        name ∈ children ->
        fs_lstat host (paths_join host dir name) = Ok lstat ->
        isDirectory lstat = true ->
        walk_key (paths_join host dir name) lstat = Ok key ->
        key ∈ (recursions (walker s)).*1)
  /\ NoDup (recursions (walker s)).*1.
Proof.
  intros Hglob Hf Hi He Hm s Hc Hfin.
  destruct (search_listing_inv Hglob cfg schedule Hf Hi He Hm)
    as (_ & _ & _ & H).
  fold s in H. unfold started, in_flight in H. rewrite Hfin in H.
  destruct (H Hc) as (H1 & H2 & H3). simpl in H1. rewrite app_nil_r in H1.
  destruct (search_keys_inv cfg schedule) as [Hnd Hkeys]. fold s in Hnd, Hkeys.
  split_and!; try done.
  intros dir children name lstat key Hin Hfs Hname Hl Hd Hk.
  destruct (H2 dir children name Hin Hfs Hname) as [(io & Hio & _)|Hres].
  { by apply elem_of_nil in Hio. }
  specialize (Hres lstat key Hl Hd Hk). rewrite Hkeys in Hres.
  by apply elem_of_list_to_set in Hres.
Qed.

(** ** Exclusion with and without siblings *)
































End Walker.

(** * A file system to run the walker on *)

Module Demo.

Definition table {A : Type} (rows : list (string * A)) (path : string) : Outcome A :=
  match list_find (fun row => bool_decide (row.1 = path)) rows with
  | Some (_, (_, a)) => Ok a
  | None => Fail "ENOENT"
  end.

Definition directory : Stats := {| isDirectory := true; isSymbolicLink := false |}.
Definition regular : Stats := {| isDirectory := false; isSymbolicLink := false |}.
Definition symlink : Stats := {| isDirectory := false; isSymbolicLink := true |}.

(** Two folders [/r] and [/q], each with a file [d/b.txt]; [/l] is a
    symbolic link to [/r]; [/c/sub/loop] is a symbolic link to its ancestor
    [/c].  [fs.lstat] reports a link as a link, [fs.stat] follows it. *)
Definition lstat_rows : list (string * Stats) :=
  [ ("/r", directory); ("/r/a.txt", regular); ("/r/d", directory);
    ("/r/d/b.txt", regular);
    ("/q", directory); ("/q/d", directory); ("/q/d/b.txt", regular);
    ("/l", symlink); ("/l/a.txt", regular); ("/l/d", directory);
    ("/l/d/b.txt", regular);
    ("/c", directory); ("/c/sub", directory); ("/c/sub/f.txt", regular);
    ("/c/sub/loop", symlink) ].

Definition stat_rows : list (string * Stats) :=
  [ ("/l", directory); ("/c/sub/loop", directory) ] ++ lstat_rows.

Definition readdir_rows : list (string * list string) :=
  [ ("/r", ["a.txt"; "d"]); ("/r/d", ["b.txt"]);
    ("/q", ["d"]); ("/q/d", ["b.txt"]);
    ("/l", ["a.txt"; "d"]); ("/l/d", ["b.txt"]);
    ("/c", ["sub"]); ("/c/sub", ["f.txt"; "loop"]); ("/c/sub/loop", ["sub"]) ].

Definition realpath_rows : list (string * string) :=
  [ ("/l", "/r"); ("/l/a.txt", "/r/a.txt"); ("/l/d", "/r/d");
    ("/l/d/b.txt", "/r/d/b.txt"); ("/c/sub/loop", "/c") ].

Definition realpath (path : string) : Outcome string :=
  match table realpath_rows path with
  | Ok real => Ok real
  | Fail _ =>
      match table stat_rows path with
      | Ok _ => Ok path
      | Fail error => Fail error
      end
  end.

(** A glob expression is given by its meaning on a path and its siblings. *)
Definition expression : Type := string -> list string -> bool.

Definition posix : Host := {|
  IExpression := expression;
  fs_stat := table stat_rows;
  fs_lstat := table lstat_rows;
  fs_realpath := realpath;
  extfs_readdir := table readdir_rows;
  glob_match := fun e path siblings =>
    match e with
    | Some f => f path (default [] siblings)
    | None => false
    end;
  filters_matchesFuzzy := fun pattern path _ =>
    if indexOf_found path pattern then Some [(0, String.length pattern)] else None;
  paths_sep := "/";
  paths_isAbsolute := String.prefix "/";
  paths_join := fun a b => (a ++ "/" ++ b)%string;
  paths_basename := fun path => path
|}.

Definition search_config (rootFolders : list string)
    (extraFiles : option (list string)) (filePattern : option string)
    (maxResults : option Z) : IRawSearch posix :=
  {| cfg_rootFolders := rootFolders; cfg_extraFiles := extraFiles;
     cfg_filePattern := filePattern; cfg_excludePattern := None;
     cfg_includePattern := None; cfg_maxResults := maxResults |}.

(** C1, as stated, fails: with [maxResults = 1], the pattern [d/b.txt] and
    the roots [/r] and [/q], the relative fast path delivers one result per
    root, two in all, and the limit is not hit. *)
Lemma C1_counterexample :
  let cfg := search_config ["/r"; "/q"] None (Some "d/b.txt") (Some 1%Z) in
  let s := run posix [Callback [0]; Callback [0]; Callback [1]; Callback [1];
                      Callback [0; 0]; Callback [0; 1]; Callback [0; 1];
                      Callback [0; 1; 0]; Callback [1; 0]; Callback [1; 0];
                      Callback [1; 0; 0]]
             (Engine_search posix cfg) in
  maxResults posix (walker posix s) = Some 1%Z
  /\ delivered posix (walker posix s) = ["/r/d/b.txt"; "/q/d/b.txt"]
  /\ done_calls posix (walker posix s) = [(None, false)]
  /\ ~ (length (delivered posix (walker posix s)) <= 1)%nat.
Proof. vm_compute. split_and!; try done. lia. Qed.

Lemma C1_witness :
  let cfg := search_config [] (Some ["/x/one"; "/x/two"]) None (Some 1%Z) in
  let w := walker posix (run posix [] (Engine_search posix cfg)) in
  delivered_by_matchFile posix w = ["/x/one"]
  /\ (Z.of_nat (length (delivered_by_matchFile posix w))
      = Z.min (resultCount posix w) 1
      /\ (length (delivered_by_matchFile posix w) <= Z.to_nat 1)%nat
      /\ isLimitHit posix w = (1 <? resultCount posix w)%Z
      /\ (forall bn ap rp,
            file_match_test posix w bn rp = true -> (1 <= resultCount posix w)%Z ->
            log posix (matchFile posix bn ap rp w) = log posix w
            /\ isLimitHit posix (matchFile posix bn ap rp w) = true)
      /\ (forall error limit,
            (error, limit) ∈ done_calls posix w ->
            limit = (1 <? resultCount posix w)%Z)).
Proof.
  split; [reflexivity|].
  apply (C1_matchFile_delivers_at_most_maxResults posix
           (search_config [] (Some ["/x/one"; "/x/two"]) None (Some 1%Z)) 1 []);
    [reflexivity|lia].
Defined.

(** C9, as stated, fails: with [maxResults = 1] and two extra files, both
    files pass the file-match test and are counted, and only the first is
    delivered. *)
Lemma C9_counterexample :
  let cfg := search_config [] (Some ["/x/one"; "/x/two"]) None (Some 1%Z) in
  let w := walker posix (Engine_search posix cfg) in
  resultCount posix w = 2%Z
  /\ delivered posix w = ["/x/one"]
  /\ resultCount posix w <> Z.of_nat (length (delivered posix w)).
Proof. vm_compute. split_and!; done. Qed.

(** C3, as stated, fails: the pattern is the absolute path of the existing
    file [/r/a.txt], and the caller cancels before the check answers;
    nothing is delivered. *)
Lemma C3_counterexample :
  let cfg := search_config ["/r"] None (Some "/r/a.txt") None in
  let s := run posix [CallCancel; Callback []] (Engine_search posix cfg) in
  paths_isAbsolute posix "/r/a.txt" = true
  /\ existing_file (fs_stat posix "/r/a.txt") = true
  /\ search posix s = Finished
  /\ delivered posix (walker posix s) = []
  /\ done_calls posix (walker posix s) = [(None, false)].
Proof. vm_compute. split_and!; done. Qed.

Lemma C3_witness :
  let cfg := search_config ["/r"] (Some ["/x/one"]) (Some "/r/a.txt") (Some 1%Z) in
  let s := run posix (Callback [] :: [Callback [0]; CallCancel])
             (Engine_search posix cfg) in
  search posix s = Finished
  /\ log posix (walker posix s)
     = [OnDone None false; OnResult AbsoluteFastPath "/r/a.txt";
        FsCall OpStat "/r/a.txt"]
  /\ delivered posix (walker posix s) = ["/r/a.txt"]
  /\ resultCount posix (walker posix s) = 0%Z.
Proof.
  apply (C3_absolute_pattern_single_result posix
           (search_config ["/r"] (Some ["/x/one"]) (Some "/r/a.txt") (Some 1%Z))
           "/r/a.txt" [Callback [0]; CallCancel]); done.
Defined.

(** A walker canceled while the entries of [/r] await their [fs.lstat]. *)
Definition canceled_midway : State posix :=
  run posix [Callback [0]; CallCancel]
    (Engine_search posix (search_config ["/r"] None None None)).

Lemma C5_witness :
  let w := walker posix canceled_midway in
  stopped posix w = true
  /\ (forall io, resume posix io w = (w, Settled None))
  /\ (forall absolutePath relativeParentPath files file,
        doWalk_entry posix absolutePath relativeParentPath files file w
        = (w, Settled None))
  /\ (forall path b w' b', fire posix path b w = Some (w', b') -> w' = w)
  /\ (forall cfg schedule more,
        w = walker posix (run posix schedule (Engine_search posix cfg)) ->
        effects posix
          (walker posix (run posix more (run posix schedule (Engine_search posix cfg))))
        = effects posix w).
Proof.
  split; [reflexivity|].
  apply (C5_stopped_points_short_circuit posix (walker posix canceled_midway)).
  reflexivity.
Defined.







(** C8, as stated, fails: the root [/missing] cannot be read, the root [/r]
    is walked to its end all the same, and [done] is called with [null], not
    with the error. *)
Lemma C8_counterexample :
  let cfg := search_config ["/missing"; "/r"] None None None in
  let s := run posix [Callback [0]; Callback [1]; Callback [1; 0];
                      Callback [1; 1]; Callback [1; 1]; Callback [1; 1; 0]]
             (Engine_search posix cfg) in
  extfs_readdir posix "/missing" = Fail "ENOENT"
  /\ log posix (walker posix s)
     = [OnDone None false; OnResult ViaMatchFile "/r/d/b.txt";
        FsCall OpLstat "/r/d/b.txt"; FsCall OpReaddir "/r/d";
        Recurse "/r/d" "/r/d"; OnResult ViaMatchFile "/r/a.txt";
        FsCall OpLstat "/r/d"; FsCall OpLstat "/r/a.txt";
        FsCall OpReaddir "/r"; FsCall OpReaddir "/missing"]
  /\ done_calls posix (walker posix s) = [(None, false)]
  /\ done_calls posix (walker posix s) <> [(Some "ENOENT", false)].
Proof. vm_compute. split_and!; done. Qed.

Lemma C10_witness :
  let w := new_FileWalker posix
             (search_config ["/r"] None (Some "/r/a.txt") (Some 1%Z)) in
  (let s := after_absolute_match posix ["/r"] None true w in
   log posix (walker posix s)
   = [OnDone None false; OnResult AbsoluteFastPath "/r/a.txt"]
   /\ search posix s = Finished
   /\ resultCount posix (walker posix s) = 0%Z
   /\ isLimitHit posix (walker posix s) = false)
  /\ (let w' := (after_relative_match posix "/r" ["a.txt"] (Some "/r/d/b.txt") w).1 in
      (exists calls,
          log posix w' = calls ++ [OnResult RelativeFastPath "/r/d/b.txt"]
          /\ Forall (fun e => is_fsCall e = true) calls)
      /\ resultCount posix w' = 0%Z
      /\ isLimitHit posix w' = false).
Proof.
  pose proof (C10_fast_paths_bypass_matchFile posix
                (new_FileWalker posix
                   (search_config ["/r"] None (Some "/r/a.txt") (Some 1%Z)))
                eq_refl) as (H1 & H2 & _).
  split.
  - exact (H1 ["/r"] None).
  - exact (H2 "/r" ["a.txt"] "/r/d/b.txt" eq_refl).
Defined.

(** C7 fails on the code: the pattern [a.txt] has no separator, so the
    relative check is not made ([searchInPath] is unset); the walk of [/r]
    still sets aside the file [/r/a.txt], whose relative path is the
    pattern, as if the relative check would deliver it.  The file passes the
    file-match test and is delivered by no one. *)
Lemma C7_exact_name_is_dropped :
  let cfg := search_config ["/r"] None (Some "a.txt") None in
  let s := run posix [Callback [0]; Callback [0; 0]; Callback [0; 1];
                      Callback [0; 1]; Callback [0; 1; 0]]
             (Engine_search posix cfg) in
  let e := {| absolutePath := "/r"; relativeParentPath := "";
              files := ["a.txt"; "d"]; file := "a.txt" |} in
  fs_lstat posix (currentPath posix e) = Ok regular
  /\ Some (relativeFilePath e) = cfg_filePattern posix cfg
  /\ file_match_test posix (walker posix s) (file e) (relativeFilePath e) = true
  /\ search posix s = Finished
  /\ log posix (walker posix s)
     = [OnDone None false; FsCall OpLstat "/r/d/b.txt"; FsCall OpReaddir "/r/d";
        Recurse "/r/d" "/r/d"; FsCall OpLstat "/r/d"; FsCall OpLstat "/r/a.txt";
        FsCall OpReaddir "/r"]
  /\ delivered posix (walker posix s) = [].
Proof. vm_compute. split_and!; done. Qed.

(** C2, as stated, fails: [/l] is a symbolic link to [/r], and both are
    roots.  The directory whose real path is [/r/d] is gone into twice, once
    as [/r/d] and once as [/l/d]: neither entry is itself a link, so each is
    remembered under the path it was walked by. *)
Lemma C2_counterexample :
  let cfg := search_config ["/r"; "/l"] None None None in
  let s := run posix [Callback [0]; Callback [1]; Callback [0; 0];
                      Callback [0; 1]; Callback [0; 1]; Callback [0; 1; 0];
                      Callback [1; 0]; Callback [1; 1]; Callback [1; 1];
                      Callback [1; 1; 0]]
             (Engine_search posix cfg) in
  search posix s = Finished
  /\ recursions posix (walker posix s) = [("/r/d", "/r/d"); ("/l/d", "/l/d")]
  /\ fs_realpath posix "/r/d" = Ok "/r/d"
  /\ fs_realpath posix "/l/d" = Ok "/r/d"
  /\ fs_lstat posix "/l/d" = Ok directory.
Proof. vm_compute. split_and!; done. Qed.

(** Below the root [/c] the only directory to go into is [/c/sub]; the link
    [/c/sub/loop] to [/c] is not a directory for [fs.lstat]. *)
Lemma guarded_c keys dir :
  guarded posix ["/c"] keys dir ->
  (keys, dir) = ([], "/c") \/ (keys, dir) = (["/c/sub"], "/c/sub").
Proof.
  induction 1 as [root Hroot|keys dir children name lstat key _ IH Hfs Hname Hl Hd Hk _].
  - left. apply list_elem_of_singleton in Hroot. by subst.
  - right. destruct IH as [[= -> ->]|[= -> ->]].
    + vm_compute in Hfs. injection Hfs as <-.
      apply list_elem_of_singleton in Hname as ->.
      vm_compute in Hl. injection Hl as <-. vm_compute in Hk. by injection Hk as <-.
    + vm_compute in Hfs. injection Hfs as <-.
      apply elem_of_cons in Hname as [->|Hname];
        [|apply list_elem_of_singleton in Hname as ->];
        vm_compute in Hl; injection Hl as <-; discriminate.
Qed.

Lemma C2_witness :
  let cfg := search_config ["/c"] None None None in
  let s := run posix [Callback [0]; Callback [0; 0]; Callback [0; 0];
                      Callback [0; 0; 0]; Callback [0; 0; 1]]
             (Engine_search posix cfg) in
  recursions posix (walker posix s) = [("/c/sub", "/c/sub")]
  /\ (NoDup (recursions posix (walker posix s)).*1
      /\ (forall key path,
            (key, path) ∈ recursions posix (walker posix s) ->
            exists lstat,
              fs_lstat posix path = Ok lstat /\ isDirectory lstat = true
              /\ walk_key posix path lstat = Ok key)
      /\ Acc (flip (advances posix)) s
      /\ ((forall path, step posix (Callback path) s = None) ->
          search posix s = Finished
          /\ exists limit, done_calls posix (walker posix s) = [(None, limit)])).
Proof.
  split; [reflexivity|].
  apply (C2_keys_walked_once_and_search_terminates posix
           (search_config ["/c"] None None None) ["/c/sub"]).
  intros keys dir Hg k Hk.
  destruct (guarded_c keys dir Hg) as [[= -> ->]|[= -> ->]]; [|exact Hk].
  by apply elem_of_nil in Hk.
Defined.

(** C4, as stated, fails: [/r/d] is a root and lies below the root [/r].
    Its file [b.txt] is delivered twice, once by the walk of [/r] and once
    by the walk of [/r/d], which is read as a root whether or not it was
    gone into before. *)
Lemma C4_counterexample :
  let cfg := search_config ["/r"; "/r/d"] None None None in
  let s := run posix [Callback [0]; Callback [0; 0]; Callback [0; 1];
                      Callback [0; 1]; Callback [0; 1; 0];
                      Callback [1]; Callback [1; 0]]
             (Engine_search posix cfg) in
  search posix s = Finished
  /\ isCanceled posix (walker posix s) = false
  /\ delivered posix (walker posix s) = ["/r/a.txt"; "/r/d/b.txt"; "/r/d/b.txt"]
  /\ ~ NoDup (delivered posix (walker posix s)).
Proof.
  vm_compute. split_and!; try done.
  intros H. apply NoDup_cons in H as [_ H]. apply NoDup_cons in H as [H _].
  apply H. by left.
Qed.

Lemma C4_witness :
  let cfg := search_config ["/r"] (Some ["/x/one"]) None None in
  let s := run posix [Callback [0]; Callback [0; 0]; Callback [0; 1];
                      Callback [0; 1]; Callback [0; 1; 0]]
             (Engine_search posix cfg) in
  delivered posix (walker posix s) = ["/x/one"; "/r/a.txt"; "/r/d/b.txt"]
  /\ (listings posix (walker posix s)
      = ["/r"] ++ (recursions posix (walker posix s)).*2
      /\ delivered posix (walker posix s)
         ≡ₚ ["/x/one"] ++ flat_map (files_of posix) (listings posix (walker posix s))
      /\ (forall dir children name lstat key,
            dir ∈ listings posix (walker posix s) ->
            extfs_readdir posix dir = Ok children ->
            name ∈ children ->
            fs_lstat posix (paths_join posix dir name) = Ok lstat ->
            isDirectory lstat = true ->
            walk_key posix (paths_join posix dir name) lstat = Ok key ->
            key ∈ (recursions posix (walker posix s)).*1)
      /\ NoDup (recursions posix (walker posix s)).*1).
Proof.
  split; [reflexivity|].
  apply (C4_unfiltered_search_delivers_every_file posix
           (search_config ["/r"] (Some ["/x/one"]) None None)
           [Callback [0]; Callback [0; 0]; Callback [0; 1];
            Callback [0; 1]; Callback [0; 1; 0]]); reflexivity.
Defined.

End Demo.

(** * The walker at the edges of its configuration

    What the limit does when [maxResults] is missing, zero or negative, and
    what [walk] does with the extra files before it reads any folder. *)

Module Edges.

Section WithHost.

Variable host : Host.

(** An extra file that is not excluded and passes the test of [matchFile]. *)
Definition passes (w : FileWalker host) (extraFilePath : string) : bool :=
  negb (glob_match host (excludePattern host w) extraFilePath None)
  && file_match_test host w (paths_basename host extraFilePath) extraFilePath.

(** The candidates of a list that [matchFile] still delivers. *)
Definition within_limit (w : FileWalker host) (candidates : list string)
    : list string :=
  match maxResults host w with
  | Some N => take (Z.to_nat (N - resultCount host w)) candidates
  | None => candidates
  end.

Lemma search_unlimited cfg schedule :
  cfg_maxResults host cfg = None \/ cfg_maxResults host cfg = Some 0%Z ->
  maxResults host (walker host (run host schedule (Engine_search host cfg))) = None.
Proof.
  intros H.
  destruct (evolves_same_setup host _ _ (search_evolves host cfg schedule))
    as (_&_&_&_&->&_).
  unfold new_FileWalker. simpl. by destruct H as [-> | ->].
Qed.

Lemma search_negative_limit cfg schedule N :
  cfg_maxResults host cfg = Some N -> (N < 0)%Z ->
  maxResults host (walker host (run host schedule (Engine_search host cfg)))
  = Some N.
Proof.
  intros HN Hneg.
  destruct (evolves_same_setup host _ _ (search_evolves host cfg schedule))
    as (_&_&_&_&->&_).
  unfold new_FileWalker. simpl. rewrite HN. simpl.
  by destruct (Z.eqb_spec N 0) as [|_]; [lia|].
Qed.

Lemma passes_same_setup w w' f :
  same_setup host w w' -> passes w' f = passes w f.
Proof.
  intros (_ & Hf & He & Hi & _). unfold passes, file_match_test, isFilePatternMatch.
  by rewrite Hf, He, Hi.
Qed.

Lemma delivered_matchFile_pass bn ap rp w :
  count_inv host w -> file_match_test host w bn rp = true ->
  delivered host (matchFile host bn ap rp w)
  = delivered host w ++ within_limit w [ap]
  /\ within_limit (matchFile host bn ap rp w) = fun candidates =>
       match maxResults host w with
       | Some N => take (Z.to_nat (N - resultCount host w) - 1) candidates
       | None => candidates
       end.
Proof.
  intros (H0 & Hz & Hinv) Ht.
  destruct (matchFile_pass host bn ap rp w Ht) as (Hrc & _ & Hlog & _).
  destruct (matchFile_same_setup host bn ap rp w) as (_&_&_&_&Hm&_).
  split.
  - unfold delivered. rewrite Hlog. unfold within_limit, over_limit.
    destruct (maxResults host w) as [N|]; simpl.
    + destruct Hinv as [-> _].
      assert ((N =? 0)%Z = false) as -> by (apply Z.eqb_neq; congruence).
      simpl. destruct (Z.ltb_spec N (resultCount host w + 1)); simpl.
      * replace (Z.to_nat (N - resultCount host w)) with 0%nat by lia.
        by rewrite app_nil_r.
      * destruct (Z.ltb_spec N (resultCount host w)); [lia|]. simpl.
        rewrite reverse_cons.
        destruct (Z.to_nat (N - resultCount host w)) as [|k] eqn:E; [lia|].
        simpl. by rewrite take_nil.
    + destruct Hinv as [-> _]. simpl. by rewrite reverse_cons.
  - unfold within_limit. rewrite Hm, Hrc. destruct (maxResults host w) as [N|];
      [|done].
    by replace (Z.to_nat (N - (resultCount host w + 1)))
      with (Z.to_nat (N - resultCount host w) - 1)%nat by lia.
Qed.

Lemma extraFile_passes f w :
  extraFile host f w
  = if passes w f then matchFile host (paths_basename host f) f f w else w.
Proof.
  unfold extraFile, passes.
  destruct (glob_match host (excludePattern host w) f None); simpl; [done|].
  destruct (file_match_test host w (paths_basename host f) f) eqn:Ht; [done|].
  by apply matchFile_fail.
Qed.

(** The loop of [walk] over the extra files. *)
Lemma extraFiles_delivered extraFiles : forall w,
  count_inv host w ->
  let w' := foldl (fun w f => extraFile host f w) w extraFiles in
  resultCount host w'
  = (resultCount host w + Z.of_nat (length (List.filter (passes w) extraFiles)))%Z
  /\ delivered host w'
     = delivered host w ++ within_limit w (List.filter (passes w) extraFiles).
Proof.
  induction extraFiles as [|f rest IH]; intros w Hinv; cbn [foldl List.filter].
  - simpl. split; [lia|]. unfold within_limit.
    destruct (maxResults host w); by rewrite ?take_nil, app_nil_r.
  - rewrite extraFile_passes. destruct (passes w f) eqn:Hp; [|by apply IH].
    assert (file_match_test host w (paths_basename host f) f = true) as Ht.
    { unfold passes in Hp. by apply andb_true_iff in Hp as [_ ?]. }
    set (w1 := matchFile host (paths_basename host f) f f w).
    destruct (IH w1 (matchFile_count_inv host _ _ _ w Hinv)) as [Hrc Hd].
    assert (List.filter (passes w1) rest = List.filter (passes w) rest) as Hsame.
    { apply List.filter_ext. intros f'.
      apply passes_same_setup, matchFile_same_setup. }
    rewrite Hsame in Hrc, Hd.
    destruct (matchFile_pass host (paths_basename host f) f f w Ht)
      as (Hrc1 & _).
    destruct (delivered_matchFile_pass (paths_basename host f) f f w Hinv Ht)
      as [Hd1 Hw1].
    fold w1 in Hrc1, Hd1, Hw1. split.
    + rewrite Hrc, Hrc1. simpl. lia.
    + rewrite Hd, Hd1, Hw1, <-app_assoc. f_equal.
      unfold within_limit. destruct (maxResults host w) as [N|]; [|done].
      destruct (Z.to_nat (N - resultCount host w)) as [|k]; simpl;
        by rewrite ?take_nil, ?Nat.sub_0_r.
Qed.

(** When the file pattern is not an absolute path, [walk] matches the extra
    files at once, in the order given, before it reads any folder and
    before any callback runs: the extra files that are not excluded and
    pass the file pattern and the include pattern are all counted, and the
    first [maxResults] of them (all of them without a limit) are
    delivered.  Whatever runs later, these stay the first results. *)
Theorem extra_files_are_matched_first (cfg : IRawSearch host) :
  let w0 := new_FileWalker host cfg in
  let passing := List.filter (passes w0) (default [] (cfg_extraFiles host cfg)) in
  truthy_string (filePattern host w0) = false
  \/ paths_isAbsolute host (string_of (filePattern host w0)) = false ->
  delivered host (walker host (Engine_search host cfg))
  = match maxResults host w0 with
    | Some N => take (Z.to_nat N) passing
    | None => passing
    end
  /\ resultCount host (walker host (Engine_search host cfg))
     = Z.of_nat (length passing)
  /\ forall schedule,
       delivered host (walker host (Engine_search host cfg))
       `prefix_of`
       delivered host (walker host (run host schedule (Engine_search host cfg))).
Proof.
  intros w0 passing Hpattern.
  assert (delivered host (walker host (Engine_search host cfg))
          = delivered host w0 ++ within_limit w0 passing
          /\ resultCount host (walker host (Engine_search host cfg))
             = (resultCount host w0 + Z.of_nat (length passing))%Z) as [Hd Hrc].
  { unfold Engine_search, walk, checkFilePatternAbsoluteMatch. fold w0.
    assert (negb (truthy_string (filePattern host w0))
            || negb (paths_isAbsolute host (string_of (filePattern host w0)))
            = true) as ->.
    { destruct Hpattern as [-> | ->]; [done|by rewrite orb_true_r]. }
    unfold after_absolute_match.
    assert (isCanceled host w0 = false) as -> by done.
    destruct (extraFiles_delivered (default [] (cfg_extraFiles host cfg)) w0
                (new_FileWalker_count_inv host cfg)) as [Hrc Hd].
    fold passing in Hrc, Hd.
    set (w1 := foldl (fun w f => extraFile host f w) w0
                 (default [] (cfg_extraFiles host cfg))) in *.
    pose proof (walk_roots_fs_only host (cfg_rootFolders host cfg) w1) as Hfs.
    destruct (flow_parallel host (walk_root host) (cfg_rootFolders host cfg) w1)
      as [w2 slots]. simpl in Hfs.
    pose proof (fs_only_delivered host _ _ Hfs) as Hd2.
    destruct (fs_only_fields host _ _ Hfs) as [Hrc2 _].
    unfold join_roots. destruct (parallel_outcome slots); simpl.
    - rewrite delivered_emit. simpl. rewrite app_nil_r.
      split; [by rewrite Hd2, Hd|by rewrite Hrc2, Hrc].
    - split; [by rewrite Hd2, Hd|by rewrite Hrc2, Hrc]. }
  split_and!.
  - rewrite Hd. unfold within_limit.
    change (delivered host w0) with (@nil string).
    change (resultCount host w0) with 0%Z. simpl.
    destruct (if truthy_number _ then _ else _) as [N|]; [|done].
    by rewrite Z.sub_0_r.
  - rewrite Hrc. change (resultCount host w0) with 0%Z. lia.
  - intros schedule.
    destruct (evolves_log host _ _ (run_evolves host schedule (Engine_search host cfg)))
      as [new Hlog].
    unfold delivered. rewrite Hlog, omap_app, reverse_app.
    by apply prefix_app_r.
Qed.

(** Without [maxResults], or with [maxResults] 0, the search has no limit:
    under every schedule the limit is never hit, every candidate that
    passes the file-match test is delivered, and [done] reports [false]. *)
Theorem no_maxResults_means_no_limit (cfg : IRawSearch host)
    (schedule : list Choice) :
  cfg_maxResults host cfg = None \/ cfg_maxResults host cfg = Some 0%Z ->
  let w := walker host (run host schedule (Engine_search host cfg)) in
  isLimitHit host w = false
  /\ Z.of_nat (length (delivered_by_matchFile host w)) = resultCount host w
  /\ (forall bn ap rp,
        file_match_test host w bn rp = true ->
        log host (matchFile host bn ap rp w) = OnResult ViaMatchFile ap :: log host w)
  /\ (forall error limit, (error, limit) ∈ done_calls host w -> limit = false).
Proof.
  intros Hcfg w.
  pose proof (search_unlimited cfg schedule Hcfg) as Hm. fold w in Hm.
  pose proof (search_count_inv host cfg schedule) as (_ & _ & H). fold w in H.
  rewrite Hm in H. destruct H as [Hl Hd]. split_and!; try done.
  - intros bn ap rp Ht.
    destruct (matchFile_pass host bn ap rp w Ht) as (_ & _ & -> & _).
    unfold over_limit. by rewrite Hm, Hl.
  - intros error limit Hin. rewrite <-Hl.
    by apply (search_done_calls host cfg schedule error).
Qed.

(** A negative [maxResults] is a limit that the first candidate exceeds:
    under every schedule [matchFile] delivers nothing, and the limit is hit
    as soon as one candidate has passed the file-match test. *)
Theorem negative_maxResults_delivers_nothing (cfg : IRawSearch host) (N : Z)
    (schedule : list Choice) :
  cfg_maxResults host cfg = Some N -> (N < 0)%Z ->
  let w := walker host (run host schedule (Engine_search host cfg)) in
  delivered_by_matchFile host w = []
  /\ isLimitHit host w = (0 <? resultCount host w)%Z.
Proof.
  intros HN Hneg w.
  pose proof (search_negative_limit cfg schedule N HN Hneg) as Hm. fold w in Hm.
  pose proof (search_count_inv host cfg schedule) as (H0 & _ & H). fold w in H0, H.
  rewrite Hm in H. destruct H as [Hl Hd]. split.
  - apply length_zero_iff_nil. lia.
  - rewrite Hl. destruct (Z.ltb_spec N (resultCount host w)); [done|lia].
Qed.

End WithHost.

Lemma extra_files_are_matched_first_witness :
  let cfg := Demo.search_config ["/r"] (Some ["/x/one"; "/x/two"; "/x/three"])
               None (Some 2%Z) in
  delivered Demo.posix (walker Demo.posix (Engine_search Demo.posix cfg))
  = ["/x/one"; "/x/two"]
  /\ resultCount Demo.posix (walker Demo.posix (Engine_search Demo.posix cfg)) = 3%Z.
Proof.
  pose proof (extra_files_are_matched_first Demo.posix
                (Demo.search_config ["/r"] (Some ["/x/one"; "/x/two"; "/x/three"])
                   None (Some 2%Z)) (or_introl eq_refl)) as (Hd & Hrc & _).
  split; [exact Hd|exact Hrc].
Defined.

Lemma no_maxResults_means_no_limit_witness :
  let cfg := Demo.search_config [] (Some ["/x/one"; "/x/two"]) None (Some 0%Z) in
  let w := walker Demo.posix (run Demo.posix [] (Engine_search Demo.posix cfg)) in
  isLimitHit Demo.posix w = false
  /\ Z.of_nat (length (delivered_by_matchFile Demo.posix w))
     = resultCount Demo.posix w.
Proof.
  pose proof (no_maxResults_means_no_limit Demo.posix
                (Demo.search_config [] (Some ["/x/one"; "/x/two"]) None (Some 0%Z))
                [] (or_intror eq_refl)) as (Hl & Hd & _).
  split; [exact Hl|exact Hd].
Defined.

Lemma negative_maxResults_delivers_nothing_witness :
  let cfg := Demo.search_config [] (Some ["/x/one"; "/x/two"]) None (Some (-1)%Z) in
  let w := walker Demo.posix (run Demo.posix [] (Engine_search Demo.posix cfg)) in
  delivered_by_matchFile Demo.posix w = []
  /\ isLimitHit Demo.posix w = (0 <? resultCount Demo.posix w)%Z.
Proof.
  apply (negative_maxResults_delivers_nothing Demo.posix
           (Demo.search_config [] (Some ["/x/one"; "/x/two"]) None (Some (-1)%Z))
           (-1)%Z [] eq_refl).
  lia.
Defined.

End Edges.

(** * The webviews of the extension host ([ExtHostWebview], [ExtHostWebviews])

    An [ExtHostWebview] is the extension's handle on a webview shown by the
    main thread; [ExtHostWebviews] creates them and routes the main thread's
    notifications to them.  A webview object is shared: the extension holds
    it and the registry [_webviews] holds it, so the objects live in a heap
    and are named by their reference.  What the objects do to the outside
    (the calls on the main-thread proxy and on their event emitters) is
    kept in a log, oldest call first.  The listeners that an extension puts
    on the emitters are not in this file: a [fire] is a call in the log, and
    what its listeners do comes as further operations after it. *)

Module Webview.

(** How a call ends: it returns, or it throws [new Error(message)]. *)
Inductive Completion (A : Type) :=
| Return (value : A)
| Throw (message : string).
Arguments Return {A} value.
Arguments Throw {A} message.

(** A reference to an [ExtHostWebview] object. *)
Abbreviation Ref := nat.

Inductive EmitterName :=
| onMessageEmitter
| onDisposeEmitter
| onDidChangeViewColumnEmitter.

(** What the webviews use and this file does not define: the types
    [vscode.Uri], [vscode.WebviewOptions] and [vscode.ViewColumn], the
    messages ([any]), the editor [Position], and the two converters of
    [extHostTypeConverters].  View columns are compared with [!==]. *)
Record Host := {
  Uri : Type;
  WebviewOptions : Type;
  Message : Type;
  ViewColumn : Type;
  Position : Type;
  ViewColumn_eq_dec : EqDecision ViewColumn;
  typeConverters_fromViewColumn : ViewColumn -> Position;
  typeConverters_toViewColumn : Position -> ViewColumn
}.
#[global] Existing Instance ViewColumn_eq_dec.

Section Webviews.

Variable host : Host.

(** The calls made on [_proxy] and on the emitters. *)
Inductive Call :=
| proxy_createWebview (handle : Z) (uri : Uri host) (title : string)
    (column : Position host) (options : WebviewOptions host)
| proxy_disposeWebview (handle : Z)
| proxy_setTitle (handle : Z) (value : string)
| proxy_setHtml (handle : Z) (value : string)
| proxy_sendMessage (handle : Z) (message : Message host)
| proxy_show (handle : Z) (column : Position host)
| emitter_dispose (webview : Ref) (emitter : EmitterName)
| onMessageEmitter_fire (webview : Ref) (message : Message host)
| onDisposeEmitter_fire (webview : Ref)
| onDidChangeViewColumnEmitter_fire (webview : Ref) (column : ViewColumn host)
| onDidChangeActiveWebview_fire (webview : option Ref).

(** The fields of [ExtHostWebview]; [_title] and [_html] are [undefined]
    ([None]) until they are set. *)
Record ExtHostWebview := {
  _handle : Z;
  _uri : Uri host;
  _title : option string;
  _html : option string;
  _options : WebviewOptions host;
  _isDisposed : bool;
  _viewColumn : ViewColumn host
}.

Definition set_title (value : string) (w : ExtHostWebview) : ExtHostWebview :=
  {| _handle := _handle w; _uri := _uri w; _title := Some value;
     _html := _html w; _options := _options w; _isDisposed := _isDisposed w;
     _viewColumn := _viewColumn w |}.

Definition set_html (value : string) (w : ExtHostWebview) : ExtHostWebview :=
  {| _handle := _handle w; _uri := _uri w; _title := _title w;
     _html := Some value; _options := _options w; _isDisposed := _isDisposed w;
     _viewColumn := _viewColumn w |}.

Definition set_isDisposed (value : bool) (w : ExtHostWebview) : ExtHostWebview :=
  {| _handle := _handle w; _uri := _uri w; _title := _title w;
     _html := _html w; _options := _options w; _isDisposed := value;
     _viewColumn := _viewColumn w |}.

Definition set_viewColumn (value : ViewColumn host) (w : ExtHostWebview) : ExtHostWebview :=
  {| _handle := _handle w; _uri := _uri w; _title := _title w;
     _html := _html w; _options := _options w; _isDisposed := _isDisposed w;
     _viewColumn := value |}.

(** [new ExtHostWebview(handle, proxy, uri, viewColumn, options)] *)
Definition new_ExtHostWebview (handle : Z) (uri : Uri host) (viewColumn : ViewColumn host)
    (options : WebviewOptions host) : ExtHostWebview :=
  {| _handle := handle; _uri := uri; _title := None; _html := None;
     _options := options; _isDisposed := false; _viewColumn := viewColumn |}.

(** A method of a webview: given the object ([this] is its reference), how
    the call ends, the object afterwards, and the calls made. *)
Definition Method (A : Type) : Type :=
  Ref -> ExtHostWebview -> Completion A * ExtHostWebview * list Call.

(** [assertNotDisposed()] *)
Definition assertNotDisposed (w : ExtHostWebview) : Completion unit :=
  if _isDisposed w then Throw "Webview is disposed" else Return ().

(** A getter: [this.assertNotDisposed(); return this.<field>;] *)
Definition getter {A : Type} (field : ExtHostWebview -> A) : Method A :=
  fun this w =>
    match assertNotDisposed w with
    | Throw message => (Throw message, w, [])
    | Return _ => (Return (field w), w, [])
    end.

Definition get_uri : Method (Uri host) := getter _uri.
Definition get_title : Method (option string) := getter _title.
Definition get_html : Method (option string) := getter _html.
Definition get_options : Method (WebviewOptions host) := getter _options.
Definition get_viewColumn : Method (ViewColumn host) := getter _viewColumn.

(** [dispose()] *)
Definition dispose : Method unit :=
  fun this w =>
    if _isDisposed w then (Return (), w, [])
    else (Return (), set_isDisposed true w,
          [proxy_disposeWebview (_handle w);
           emitter_dispose this onDisposeEmitter;
           emitter_dispose this onMessageEmitter;
           emitter_dispose this onDidChangeViewColumnEmitter]).

(** [set title(value)] *)
Definition put_title (value : string) : Method unit :=
  fun this w =>
    match assertNotDisposed w with
    | Throw message => (Throw message, w, [])
    | Return _ =>
        if bool_decide (_title w <> Some value)
        then (Return (), set_title value w, [proxy_setTitle (_handle w) value])
        else (Return (), w, [])
    end.

(** [set html(value)] *)
Definition put_html (value : string) : Method unit :=
  fun this w =>
    match assertNotDisposed w with
    | Throw message => (Throw message, w, [])
    | Return _ =>
        if bool_decide (_html w <> Some value)
        then (Return (), set_html value w, [proxy_setHtml (_handle w) value])
        else (Return (), w, [])
    end.

(** [set viewColumn(value)] *)
Definition put_viewColumn (value : ViewColumn host) : Method unit :=
  fun this w =>
    match assertNotDisposed w with
    | Throw message => (Throw message, w, [])
    | Return _ => (Return (), set_viewColumn value w, [])
    end.

(** [postMessage(message)]; the promise of the proxy is handed back as it
    is. *)
Definition postMessage (message : Message host) : Method unit :=
  fun this w => (Return (), w, [proxy_sendMessage (_handle w) message]).

(** [show(viewColumn)] *)
Definition show (viewColumn : ViewColumn host) : Method unit :=
  fun this w =>
    (Return (), w,
     [proxy_show (_handle w) (typeConverters_fromViewColumn host viewColumn)]).

(** The extension host's side: the static counter [handlePool], the webview
    objects, the registry [_webviews] of one [ExtHostWebviews], and the
    calls made so far.  Handles are JavaScript numbers counted up from 0;
    they are integers here (the two agree below 2^53). *)
Record World := {
  handlePool : Z;
  heap : list ExtHostWebview;
  _webviews : gmap Z Ref;
  calls : list Call
}.

Definition start : World :=
  {| handlePool := 0; heap := []; _webviews := ∅; calls := [] |}.

(** A method called on the object that [this] refers to.  A reference that
    names no object does not occur in the program; the world is then left
    as it is. *)
Definition invoke {A : Type} (method : Method A) (this : Ref) (σ : World)
    : option (Completion A) * World :=
  match heap σ !! this with
  | Some w =>
      let '(completion, w', made) := method this w in
      (Some completion,
       {| handlePool := handlePool σ; heap := <[this := w']> (heap σ);
          _webviews := _webviews σ; calls := calls σ ++ made |})
  | None => (None, σ)
  end.

Definition call (made : list Call) (σ : World) : World :=
  {| handlePool := handlePool σ; heap := heap σ; _webviews := _webviews σ;
     calls := calls σ ++ made |}.

(** [getWebview(handle)] *)
Definition getWebview (handle : Z) (σ : World) : option Ref :=
  _webviews σ !! handle.

(** [createWebview(uri, title, viewColumn, options)]: the new webview's
    reference, and the world afterwards, with [handlePool++] counted in the
    integers.  [createWebview_number] below counts as the program does. *)
Definition createWebview (uri : Uri host) (title : string) (viewColumn : ViewColumn host)
    (options : WebviewOptions host) (σ : World) : Ref * World :=
  let handle := handlePool σ in
  let webview := length (heap σ) in
  (webview,
   {| handlePool := handlePool σ + 1;
      heap := heap σ ++ [new_ExtHostWebview handle uri viewColumn options];
      _webviews := <[handle := webview]> (_webviews σ);
      calls := calls σ ++ [proxy_createWebview handle uri title
                             (typeConverters_fromViewColumn host viewColumn) options] |}).

(** [$onMessage(handle, message)] *)
Definition onMessage (handle : Z) (message : Message host) (σ : World) : World :=
  match getWebview handle σ with
  | Some webview => call [onMessageEmitter_fire webview message] σ
  | None => σ
  end.

(** [$onDidChangeActiveWeview(handle)], where [handle] may be [undefined] *)
Definition onDidChangeActiveWeview (handle : option Z) (σ : World) : World :=
  call [onDidChangeActiveWebview_fire (handle ≫= fun h => getWebview h σ)] σ.

(** [$onDidDisposeWeview(handle)] *)
Definition onDidDisposeWeview (handle : Z) (σ : World) : World :=
  match getWebview handle σ with
  | Some webview =>
      let σ1 := call [onDisposeEmitter_fire webview] σ in
      {| handlePool := handlePool σ1; heap := heap σ1;
         _webviews := delete handle (_webviews σ1); calls := calls σ1 |}
  | None => σ
  end.

(** [$onDidChangePosition(handle, newPosition)] *)
Definition onDidChangePosition (handle : Z) (newPosition : Position host) (σ : World)
    : Completion unit * World :=
  match getWebview handle σ with
  | Some webview =>
      let newViewColumn := typeConverters_toViewColumn host newPosition in
      match invoke get_viewColumn webview σ with
      | (Some (Return viewColumn), σ1) =>
          if bool_decide (viewColumn <> newViewColumn) then
            match invoke (put_viewColumn newViewColumn) webview σ1 with
            | (Some (Return _), σ2) =>
                (Return (),
                 call [onDidChangeViewColumnEmitter_fire webview newViewColumn] σ2)
            | (Some (Throw message), σ2) => (Throw message, σ2)
            | (None, σ2) => (Return (), σ2)
            end
          else (Return (), σ1)
      | (Some (Throw message), σ1) => (Throw message, σ1)
      | (None, σ1) => (Return (), σ1)
      end
  | None => (Return (), σ)
  end.

(** What the extension and the main thread can do, one after the other. *)
Inductive Op :=
| op_createWebview (uri : Uri host) (title : string) (viewColumn : ViewColumn host)
    (options : WebviewOptions host)
| op_onMessage (handle : Z) (message : Message host)
| op_onDidChangeActiveWeview (handle : option Z)
| op_onDidDisposeWeview (handle : Z)
| op_onDidChangePosition (handle : Z) (newPosition : Position host)
| op_dispose (this : Ref)
| op_put_title (this : Ref) (value : string)
| op_put_html (this : Ref) (value : string)
| op_put_viewColumn (this : Ref) (value : ViewColumn host)
| op_postMessage (this : Ref) (message : Message host)
| op_show (this : Ref) (viewColumn : ViewColumn host).

Definition exec (op : Op) (σ : World) : World :=
  match op with
  | op_createWebview uri title viewColumn options =>
      (createWebview uri title viewColumn options σ).2
  | op_onMessage handle message => onMessage handle message σ
  | op_onDidChangeActiveWeview handle => onDidChangeActiveWeview handle σ
  | op_onDidDisposeWeview handle => onDidDisposeWeview handle σ
  | op_onDidChangePosition handle newPosition =>
      (onDidChangePosition handle newPosition σ).2
  | op_dispose this => (invoke dispose this σ).2
  | op_put_title this value => (invoke (put_title value) this σ).2
  | op_put_html this value => (invoke (put_html value) this σ).2
  | op_put_viewColumn this value => (invoke (put_viewColumn value) this σ).2
  | op_postMessage this message => (invoke (postMessage message) this σ).2
  | op_show this viewColumn => (invoke (show viewColumn) this σ).2
  end.

Definition execs (ops : list Op) (σ : World) : World :=
  foldl (fun σ op => exec op σ) σ ops.

(** [n++] on a JavaScript number that holds a natural number: exact as long
    as the result is at most 2^53; at 2^53 the sum rounds back to 2^53 and
    the number stays there. *)
Definition increment (n : Z) : Z :=
  if (n <? 2 ^ 53)%Z then (n + 1)%Z else n.

(** [createWebview(uri, title, viewColumn, options)] with [handlePool] as the
    JavaScript number that it is. *)
Definition createWebview_number (uri : Uri host) (title : string)
    (viewColumn : ViewColumn host) (options : WebviewOptions host) (σ : World)
    : Ref * World :=
  let handle := handlePool σ in
  let webview := length (heap σ) in
  (webview,
   {| handlePool := increment (handlePool σ);
      heap := heap σ ++ [new_ExtHostWebview handle uri viewColumn options];
      _webviews := <[handle := webview]> (_webviews σ);
      calls := calls σ ++ [proxy_createWebview handle uri title
                             (typeConverters_fromViewColumn host viewColumn) options] |}).

Definition exec_number (op : Op) (σ : World) : World :=
  match op with
  | op_createWebview uri title viewColumn options =>
      (createWebview_number uri title viewColumn options σ).2
  | _ => exec op σ
  end.

Definition execs_number (ops : list Op) (σ : World) : World :=
  foldl (fun σ op => exec_number op σ) σ ops.


(** ** Handles and the registry *)

(** Webviews are created with the handles [0, 1, 2, ...], and the registry
    only knows a handle under the webview created with it. *)
Definition registry_inv (σ : World) : Prop :=
  handlePool σ = Z.of_nat (length (heap σ))
  /\ (forall a w, heap σ !! a = Some w -> _handle w = Z.of_nat a)
  /\ (forall h a, _webviews σ !! h = Some a ->
        h = Z.of_nat a /\ (a < length (heap σ))%nat).

(** No method changes the handle of its webview. *)
Definition keeps_handle {A : Type} (method : Method A) : Prop :=
  forall this w, _handle (method this w).1.2 = _handle w.

Lemma getter_keeps_handle {A : Type} (field : ExtHostWebview -> A) :
  keeps_handle (getter field).
Proof. intros this w. unfold getter. by destruct (assertNotDisposed w). Qed.

Lemma dispose_keeps_handle : keeps_handle dispose.
Proof. intros this w. unfold dispose. by destruct (_isDisposed w). Qed.

Lemma put_title_keeps_handle value : keeps_handle (put_title value).
Proof.
  intros this w. unfold put_title. destruct (assertNotDisposed w); [|done].
  by case_bool_decide.
Qed.

Lemma put_html_keeps_handle value : keeps_handle (put_html value).
Proof.
  intros this w. unfold put_html. destruct (assertNotDisposed w); [|done].
  by case_bool_decide.
Qed.

Lemma put_viewColumn_keeps_handle value : keeps_handle (put_viewColumn value).
Proof.
  intros this w. unfold put_viewColumn. by destruct (assertNotDisposed w).
Qed.

Lemma postMessage_keeps_handle message : keeps_handle (postMessage message).
Proof. done. Qed.

Lemma show_keeps_handle viewColumn : keeps_handle (show viewColumn).
Proof. done. Qed.

Lemma invoke_registry_inv {A : Type} (method : Method A) this σ :
  keeps_handle method -> registry_inv σ -> registry_inv (invoke method this σ).2.
Proof.
  intros Hk (Hp & Hh & Hr). unfold invoke.
  destruct (heap σ !! this) as [w|] eqn:Hw; [|done].
  specialize (Hk this w). destruct (method this w) as [[c w'] made].
  simpl in Hk. split_and!; simpl.
  - by rewrite length_insert.
  - intros a w0 Ha. destruct (decide (a = this)) as [->|Hne].
    + rewrite list_lookup_insert_eq in Ha by (by eapply lookup_lt_Some).
      injection Ha as <-. rewrite Hk. by apply Hh.
    + rewrite list_lookup_insert_ne in Ha by done. by apply Hh.
  - intros h a Ha. rewrite length_insert. by apply Hr.
Qed.

Lemma call_registry_inv made σ : registry_inv σ -> registry_inv (call made σ).
Proof. done. Qed.

Lemma createWebview_registry_inv uri title viewColumn options σ :
  registry_inv σ -> registry_inv (createWebview uri title viewColumn options σ).2.
Proof.
  intros (Hp & Hh & Hr). unfold createWebview. split_and!; simpl.
  - rewrite length_app. simpl. lia.
  - intros a w Ha. apply lookup_app_Some in Ha as [Ha|[Hle Ha]]; [by apply Hh|].
    apply list_lookup_singleton_Some in Ha as [Ha <-]. simpl.
    rewrite Hp. f_equal. lia.
  - intros h a Ha. rewrite length_app. simpl.
    apply lookup_insert_Some in Ha as [[<- <-]|[Hne Ha]].
    + split; [done|lia].
    + destruct (Hr h a Ha). split; [done|lia].
Qed.

Lemma onDidDisposeWeview_registry_inv handle σ :
  registry_inv σ -> registry_inv (onDidDisposeWeview handle σ).
Proof.
  intros (Hp & Hh & Hr). unfold onDidDisposeWeview.
  destruct (getWebview handle σ) as [a|]; [|done]. split_and!; simpl; try done.
  intros h a' Ha. apply lookup_delete_Some in Ha as [_ Ha]. by apply Hr.
Qed.

Lemma onDidChangePosition_registry_inv handle newPosition σ :
  registry_inv σ -> registry_inv (onDidChangePosition handle newPosition σ).2.
Proof.
  intros Hi. unfold onDidChangePosition.
  destruct (getWebview handle σ) as [a|]; [|done].
  pose proof (invoke_registry_inv get_viewColumn a σ
                (getter_keeps_handle _) Hi) as H1.
  destruct (invoke get_viewColumn a σ) as [[[v|m]|] σ1]; simpl in *; try done.
  case_bool_decide; [|done].
  pose proof (invoke_registry_inv
                (put_viewColumn (typeConverters_toViewColumn host newPosition)) a σ1
                (put_viewColumn_keeps_handle _) H1) as H2.
  destruct (invoke (put_viewColumn _) a σ1) as [[[u|m]|] σ2]; simpl in *; done.
Qed.

Lemma exec_registry_inv op σ : registry_inv σ -> registry_inv (exec op σ).
Proof.
  intros Hi. destruct op; simpl.
  - by apply createWebview_registry_inv.
  - unfold onMessage. by destruct (getWebview _ _).
  - done.
  - by apply onDidDisposeWeview_registry_inv.
  - by apply onDidChangePosition_registry_inv.
  - by apply invoke_registry_inv; [apply dispose_keeps_handle|].
  - by apply invoke_registry_inv; [apply put_title_keeps_handle|].
  - by apply invoke_registry_inv; [apply put_html_keeps_handle|].
  - by apply invoke_registry_inv; [apply put_viewColumn_keeps_handle|].
  - by apply invoke_registry_inv; [apply postMessage_keeps_handle|].
  - by apply invoke_registry_inv; [apply show_keeps_handle|].
Qed.

Lemma execs_invariant (P : World -> Prop) :
  (forall op σ, P σ -> P (exec op σ)) ->
  forall ops σ, P σ -> P (execs ops σ).
Proof.
  intros Hstep. unfold execs.
  induction ops as [|op ops IH]; intros σ H; simpl; [done|]. by apply IH, Hstep.
Qed.

Lemma execs_registry_inv ops : registry_inv (execs ops start).
Proof.
  apply execs_invariant; [apply exec_registry_inv|].
  split_and!; done.
Qed.

(** ** The handle counter *)

Lemma invoke_handlePool {A : Type} (method : Method A) this σ :
  handlePool (invoke method this σ).2 = handlePool σ.
Proof.
  unfold invoke. destruct (heap σ !! this) as [w|]; [|done].
  by destruct (method this w) as [[c w'] made].
Qed.

Lemma onDidChangePosition_handlePool handle newPosition σ :
  handlePool (onDidChangePosition handle newPosition σ).2 = handlePool σ.
Proof.
  unfold onDidChangePosition. destruct (getWebview handle σ) as [a|]; [|done].
  pose proof (invoke_handlePool get_viewColumn a σ) as H1.
  destruct (invoke get_viewColumn a σ) as [[[v|m]|] σ1]; simpl in *; try done.
  case_bool_decide; [|done].
  pose proof (invoke_handlePool
                (put_viewColumn (typeConverters_toViewColumn host newPosition))
                a σ1) as H2.
  destruct (invoke (put_viewColumn _) a σ1) as [[[u|m]|] σ2]; simpl in *;
    congruence.
Qed.

Lemma increment_le n : (n <= increment n)%Z.
Proof. unfold increment. destruct (n <? 2 ^ 53)%Z; lia. Qed.

Lemma increment_exact n : (increment n < 2 ^ 53)%Z -> increment n = (n + 1)%Z.
Proof.
  unfold increment. destruct (n <? 2 ^ 53)%Z eqn:Hn; [done|].
  apply Z.ltb_ge in Hn. lia.
Qed.

(** Where the counter stops: at 2^53, [handlePool++] leaves it as it is. *)
Lemma increment_stops : increment (2 ^ 53) = (2 ^ 53)%Z.
Proof. reflexivity. Qed.

(** The counter never goes down. *)
Lemma exec_number_handlePool op σ :
  (handlePool σ <= handlePool (exec_number op σ))%Z.
Proof.
  destruct op; simpl; rewrite ?invoke_handlePool, ?onDidChangePosition_handlePool;
    try lia.
  - apply increment_le.
  - unfold onMessage. destruct (getWebview _ _); simpl; lia.
  - unfold onDidDisposeWeview. destruct (getWebview _ _); simpl; lia.
Qed.

Lemma execs_number_handlePool ops : forall σ,
  (handlePool σ <= handlePool (execs_number ops σ))%Z.
Proof.
  unfold execs_number.
  induction ops as [|op ops IH]; intros σ; simpl; [lia|].
  pose proof (exec_number_handlePool op σ). specialize (IH (exec_number op σ)). lia.
Qed.

(** Below 2^53 the program counts as the integers do. *)
Lemma exec_number_exact op σ :
  (handlePool (exec_number op σ) < 2 ^ 53)%Z -> exec_number op σ = exec op σ.
Proof.
  destruct op; try done. simpl. intros H.
  unfold createWebview_number, createWebview. simpl. by rewrite increment_exact.
Qed.

Lemma execs_number_exact ops : forall σ,
  (handlePool (execs_number ops σ) < 2 ^ 53)%Z -> execs_number ops σ = execs ops σ.
Proof.
  unfold execs_number, execs.
  induction ops as [|op ops IH]; intros σ H; simpl in *; [done|].
  pose proof (execs_number_handlePool ops (exec_number op σ)) as Hle.
  unfold execs_number in Hle.
  rewrite IH by done. f_equal. apply exec_number_exact. lia.
Qed.

(** Handles are not handed out twice as long as the counter is exact: when
    the program, counting with its JavaScript number, has created fewer than
    2^53 webviews, then whatever else the extension and the main thread have
    done, it is where counting in the integers would have taken it, the
    counter is the number of webviews created, the webviews created so far
    have pairwise distinct handles, a handle known to the registry leads to
    the webview that was created with it, and the next [createWebview] uses
    a handle that no webview has yet, registers the new webview under it
    and adds one to the counter. *)
Theorem createWebview_handles_are_fresh (ops : list Op) (uri : Uri host)
    (title : string) (viewColumn : ViewColumn host) (options : WebviewOptions host) :
  let σ := execs_number ops start in
  let created := createWebview_number uri title viewColumn options σ in
  (handlePool σ < 2 ^ 53)%Z ->
  σ = execs ops start
  /\ created = createWebview uri title viewColumn options σ
  /\ handlePool σ = Z.of_nat (length (heap σ))
  /\ handlePool created.2 = (handlePool σ + 1)%Z
  /\ NoDup (_handle <$> heap σ)
  /\ (forall h a, getWebview h σ = Some a ->
        exists w, heap σ !! a = Some w /\ _handle w = h)
  /\ (handlePool σ ∉ _handle <$> heap σ)
  /\ heap created.2 !! created.1
     = Some (new_ExtHostWebview (handlePool σ) uri viewColumn options)
  /\ getWebview (handlePool σ) created.2 = Some created.1.
Proof.
  intros σ created Hexact.
  pose proof (execs_number_exact ops start Hexact) as Hσ. fold σ in Hσ.
  destruct (execs_registry_inv ops) as (Hp & Hh & Hr).
  rewrite <-Hσ in Hp, Hh, Hr.
  assert (increment (handlePool σ) = (handlePool σ + 1)%Z) as Hnext.
  { unfold increment. by rewrite (proj2 (Z.ltb_lt _ _) Hexact). }
  assert (forall i h, (_handle <$> heap σ) !! i = Some h -> h = Z.of_nat i) as Hi.
  { intros i h H. rewrite list_lookup_fmap in H.
    destruct (heap σ !! i) as [w|] eqn:Hw; [|done].
    injection H as <-. by apply Hh. }
  split_and!.
  - done.
  - unfold created, createWebview_number, createWebview. by rewrite Hnext.
  - done.
  - unfold created, createWebview_number. simpl. done.
  - apply NoDup_alt. intros i j h H1 H2.
    apply Hi in H1, H2. lia.
  - intros h a Ha. destruct (Hr h a Ha) as [-> Hlt].
    destruct (lookup_lt_is_Some_2 (heap σ) a Hlt) as [w Hw].
    exists w. split; [done|]. by apply Hh.
  - intros Hin. apply list_elem_of_lookup in Hin as [i H].
    pose proof (lookup_lt_Some _ _ _ H) as Hlt. rewrite length_fmap in Hlt.
    apply Hi in H. lia.
  - unfold created, createWebview_number. simpl.
    rewrite lookup_app_r by lia. by rewrite Nat.sub_diag.
  - unfold created, createWebview_number, getWebview. simpl.
    by rewrite lookup_insert_eq.
Qed.


(** ** Disposal *)























(** ** A disposed webview is frozen *)

Definition is_update (handle : Z) (c : Call) : bool :=
  match c with
  | proxy_setTitle h _ => bool_decide (h = handle)
  | proxy_setHtml h _ => bool_decide (h = handle)
  | _ => false
  end.

(** The [$setTitle] and [$setHtml] calls sent for a handle, oldest first. *)
Definition updates (handle : Z) (σ : World) : list Call :=
  filter (fun c => is_update handle c) (calls σ).














(** ** Title and content *)

Lemma put_title_live this w value :
  _isDisposed w = false ->
  put_title value this w
  = if decide (_title w = Some value) then (Return (), w, [])
    else (Return (), set_title value w, [proxy_setTitle (_handle w) value]).
Proof.
  intros Hd. unfold put_title, assertNotDisposed. rewrite Hd.
  destruct (decide (_title w = Some value)) as [Ht|Ht].
  - by rewrite bool_decide_false by (by intros ?).
  - by rewrite bool_decide_true.
Qed.

Lemma put_html_live this w value :
  _isDisposed w = false ->
  put_html value this w
  = if decide (_html w = Some value) then (Return (), w, [])
    else (Return (), set_html value w, [proxy_setHtml (_handle w) value]).
Proof.
  intros Hd. unfold put_html, assertNotDisposed. rewrite Hd.
  destruct (decide (_html w = Some value)) as [Ht|Ht].
  - by rewrite bool_decide_false by (by intros ?).
  - by rewrite bool_decide_true.
Qed.

(** On a webview that is not disposed, a title or content that was set is
    what the getter returns, and it is sent to the main thread only when it
    differs from the one held: setting it once more sends nothing. *)
Theorem title_and_html_are_sent_when_they_change (this : Ref)
    (w : ExtHostWebview) (value : string) :
  _isDisposed w = false ->
  let titled := put_title value this w in
  let filled := put_html value this w in
  titled.2 = (if decide (_title w = Some value) then []
              else [proxy_setTitle (_handle w) value])
  /\ get_title this titled.1.2 = (Return (Some value), titled.1.2, [])
  /\ put_title value this titled.1.2 = (Return (), titled.1.2, [])
  /\ filled.2 = (if decide (_html w = Some value) then []
                 else [proxy_setHtml (_handle w) value])
  /\ get_html this filled.1.2 = (Return (Some value), filled.1.2, [])
  /\ put_html value this filled.1.2 = (Return (), filled.1.2, []).
Proof.
  intros Hd titled filled. unfold titled, filled.
  rewrite (put_title_live this w value Hd), (put_html_live this w value Hd).
  unfold get_title, get_html, getter, assertNotDisposed.
  destruct (decide (_title w = Some value)) as [Ht|Ht];
    destruct (decide (_html w = Some value)) as [Hh|Hh]; simpl;
    rewrite ?Hd, ?Ht, ?Hh;
    rewrite ?put_title_live, ?put_html_live by done; simpl;
    rewrite ?decide_True by done; done.
Qed.

Lemma invoke_getter {A : Type} (field : ExtHostWebview -> A) this w σ :
  heap σ !! this = Some w ->
  invoke (getter field) this σ = (Some (getter field this w).1.1, σ).
Proof.
  intros Hw. unfold invoke. rewrite Hw. unfold getter.
  destruct σ as [pool objects registry made]. simpl in *.
  destruct (assertNotDisposed w); simpl;
    by rewrite app_nil_r, list_insert_id.
Qed.

(** The title given to [createWebview] goes to the main thread but is not
    kept in the new webview: its [title] reads [undefined], and setting the
    very same title sends it to the main thread a second time. *)
Theorem createWebview_does_not_keep_the_title (σ : World) (uri : Uri host)
    (title : string) (viewColumn : ViewColumn host) (options : WebviewOptions host) :
  let created := createWebview uri title viewColumn options σ in
  calls created.2
  = calls σ ++ [proxy_createWebview (handlePool σ) uri title
                  (typeConverters_fromViewColumn host viewColumn) options]
  /\ invoke get_title created.1 created.2 = (Some (Return None), created.2)
  /\ calls (invoke (put_title title) created.1 created.2).2
     = calls created.2 ++ [proxy_setTitle (handlePool σ) title].
Proof.
  intros created.
  assert (heap created.2 !! created.1
          = Some (new_ExtHostWebview (handlePool σ) uri viewColumn options)) as Hw.
  { unfold created, createWebview. simpl.
    rewrite lookup_app_r by lia. by rewrite Nat.sub_diag. }
  split_and!.
  - done.
  - unfold get_title. by rewrite (invoke_getter _ _ _ _ Hw).
  - unfold invoke. rewrite Hw. done.
Qed.

(** ** Notifications of the main thread *)

(** [dispose()] does not take the webview out of the registry: the main
    thread's notifications for its handle still find it.  A message is
    still fired on its (disposed) emitter, and a change of position throws
    [Webview is disposed] out of [$onDidChangePosition]. *)
Theorem dispose_leaves_the_webview_registered (σ : World) (handle : Z)
    (webview : Ref) (w : ExtHostWebview) (newPosition : Position host)
    (message : Message host) :
  getWebview handle σ = Some webview ->
  heap σ !! webview = Some w ->
  let σ' := (invoke dispose webview σ).2 in
  getWebview handle σ' = Some webview
  /\ onDidChangePosition handle newPosition σ' = (Throw "Webview is disposed", σ')
  /\ onMessage handle message σ'
     = call [onMessageEmitter_fire webview message] σ'.
Proof.
  intros Hg Hw σ'.
  assert (getWebview handle σ' = Some webview) as Hg'.
  { unfold σ', invoke. rewrite Hw. by destruct (dispose webview w) as [[c w'] made]. }
  assert (exists w', heap σ' !! webview = Some w' /\ _isDisposed w' = true)
    as (w' & Hw' & Hd).
  { unfold σ', invoke. rewrite Hw. unfold dispose.
    destruct (_isDisposed w) eqn:Hd; simpl;
      rewrite list_lookup_insert_eq by (by eapply lookup_lt_Some); eauto. }
  split_and!.
  - done.
  - unfold onDidChangePosition. rewrite Hg'. unfold get_viewColumn.
    rewrite (invoke_getter _ _ _ _ Hw'). unfold getter, assertNotDisposed.
    by rewrite Hd.
  - unfold onMessage. by rewrite Hg'.
Qed.

(** [$onDidChangePosition] on a registered webview that is not disposed
    leaves it in the column of the new position, and fires
    [onDidChangeViewColumn] exactly when that column differs from the one
    held; told the same position again, it does nothing. *)
Theorem onDidChangePosition_fires_on_change (σ : World) (handle : Z)
    (webview : Ref) (w : ExtHostWebview) (newPosition : Position host) :
  getWebview handle σ = Some webview ->
  heap σ !! webview = Some w ->
  _isDisposed w = false ->
  let column := typeConverters_toViewColumn host newPosition in
  let moved := onDidChangePosition handle newPosition σ in
  moved.1 = Return ()
  /\ heap moved.2 = <[webview := set_viewColumn column w]> (heap σ)
  /\ calls moved.2
     = calls σ ++ (if decide (_viewColumn w = column) then []
                   else [onDidChangeViewColumnEmitter_fire webview column])
  /\ onDidChangePosition handle newPosition moved.2 = (Return (), moved.2).
Proof.
  intros Hg Hw Hd column moved.
  assert (moved = if decide (_viewColumn w = column) then (Return (), σ)
                  else (Return (),
                        call [onDidChangeViewColumnEmitter_fire webview column]
                          (invoke (put_viewColumn column) webview σ).2)) as Hm.
  { unfold moved, onDidChangePosition. rewrite Hg. unfold get_viewColumn.
    rewrite (invoke_getter _ _ _ _ Hw). unfold getter, assertNotDisposed.
    rewrite Hd. simpl. fold column. case_bool_decide as Hc.
    - rewrite decide_False by done. unfold invoke. rewrite Hw.
      unfold put_viewColumn, assertNotDisposed. by rewrite Hd.
    - by rewrite decide_True. }
  assert (forall w0, heap moved.2 !! webview = Some w0 ->
            getWebview handle moved.2 = Some webview ->
            _isDisposed w0 = false -> _viewColumn w0 = column ->
            onDidChangePosition handle newPosition moved.2 = (Return (), moved.2))
    as Hagain.
  { intros w0 Hw0 Hg0 Hd0 Hc0. unfold onDidChangePosition. rewrite Hg0.
    unfold get_viewColumn. rewrite (invoke_getter _ _ _ _ Hw0).
    unfold getter, assertNotDisposed. rewrite Hd0. simpl. fold column.
    by rewrite bool_decide_false by (by intros ?). }
  rewrite Hm in *. clear Hm. case_decide as Hc.
  - simpl. split_and!; try done.
    + rewrite list_insert_id; [done|]. rewrite Hw. f_equal.
      destruct w. simpl in *. by subst.
    + by rewrite app_nil_r.
    + by apply (Hagain w).
  - unfold invoke in *. rewrite Hw in *.
    unfold put_viewColumn, assertNotDisposed in *. rewrite Hd in *.
    simpl in *. split_and!; try done.
    + by rewrite app_nil_r.
    + apply (Hagain (set_viewColumn column w)); try done.
      by rewrite list_lookup_insert_eq by (by eapply lookup_lt_Some).
Qed.

(** [$onDidDisposeWeview] fires [onDidDispose] and takes the webview out of
    the registry, so that later notifications for its handle are ignored;
    it does not mark the webview as disposed: the object is left as it is,
    and a [dispose()] that the extension calls afterwards still sends
    [$disposeWebview] for a webview that the main thread has already
    disposed. *)
Theorem onDidDisposeWeview_unregisters_without_disposing (σ : World)
    (handle : Z) (webview : Ref) (w : ExtHostWebview) (message : Message host) :
  getWebview handle σ = Some webview ->
  heap σ !! webview = Some w ->
  _isDisposed w = false ->
  let σ' := onDidDisposeWeview handle σ in
  getWebview handle σ' = None
  /\ heap σ' = heap σ
  /\ calls σ' = calls σ ++ [onDisposeEmitter_fire webview]
  /\ onDidDisposeWeview handle σ' = σ'
  /\ onMessage handle message σ' = σ'
  /\ calls (invoke dispose webview σ').2
     = calls σ' ++ [proxy_disposeWebview (_handle w);
                    emitter_dispose webview onDisposeEmitter;
                    emitter_dispose webview onMessageEmitter;
                    emitter_dispose webview onDidChangeViewColumnEmitter].
Proof.
  intros Hg Hw Hd σ'.
  assert (σ' = {| handlePool := handlePool σ; heap := heap σ;
                  _webviews := delete handle (_webviews σ);
                  calls := calls σ ++ [onDisposeEmitter_fire webview] |}) as ->.
  { unfold σ', onDidDisposeWeview. by rewrite Hg. }
  assert (forall made, getWebview handle
            {| handlePool := handlePool σ; heap := heap σ;
               _webviews := delete handle (_webviews σ); calls := made |} = None)
    as Hnone.
  { intros made. unfold getWebview. simpl. by rewrite lookup_delete_eq. }
  split_and!; try done.
  - unfold onDidDisposeWeview. by rewrite Hnone.
  - unfold onMessage. by rewrite Hnone.
  - unfold invoke. simpl. rewrite Hw. unfold dispose. by rewrite Hd.
Qed.

End Webviews.

(** ** Two webviews *)

(** View columns and positions are numbers, one apart. *)
Definition numbered : Host := {|
  Uri := string;
  WebviewOptions := unit;
  Message := string;
  ViewColumn := Z;
  Position := Z;
  ViewColumn_eq_dec := Z.eq_dec;
  typeConverters_fromViewColumn := fun column => (column - 1)%Z;
  typeConverters_toViewColumn := fun position => (position + 1)%Z
|}.

Definition webview_one : ExtHostWebview numbered :=
  new_ExtHostWebview numbered 0 "untitled:1" 1%Z ().

Definition webview_two : ExtHostWebview numbered :=
  new_ExtHostWebview numbered 1 "untitled:2" 2%Z ().

Definition both_created : World numbered :=
  execs numbered
    [op_createWebview numbered "untitled:1" "One" 1%Z ();
     op_createWebview numbered "untitled:2" "Two" 2%Z ()]
    (start numbered).

(** The extension has disposed the first of the two. *)
Definition first_disposed : World numbered :=
  (invoke numbered (dispose numbered) 0 both_created).2.

Lemma createWebview_handles_are_fresh_witness :
  let ops := [op_createWebview numbered "untitled:1" "One" 1%Z ();
              op_createWebview numbered "untitled:2" "Two" 2%Z ()] in
  let σ := execs_number numbered ops (start numbered) in
  let third := createWebview_number numbered "untitled:3" "Three" 1%Z () σ in
  (handlePool numbered σ < 2 ^ 53)%Z
  /\ σ = both_created
  /\ handlePool numbered third.2 = 3%Z
  /\ getWebview numbered 2 third.2 = Some 2%nat.
Proof.
  assert (handlePool numbered
            (execs_number numbered
               [op_createWebview numbered "untitled:1" "One" 1%Z ();
                op_createWebview numbered "untitled:2" "Two" 2%Z ()]
               (start numbered)) < 2 ^ 53)%Z as Hexact by reflexivity.
  pose proof (createWebview_handles_are_fresh numbered
                [op_createWebview numbered "untitled:1" "One" 1%Z ();
                 op_createWebview numbered "untitled:2" "Two" 2%Z ()]
                "untitled:3" "Three" 1%Z () Hexact)
    as (Hσ & _ & _ & Hnext & _ & _ & _ & _ & Hknown).
  split; [exact Hexact|]. split; [exact Hσ|]. split; [exact Hnext|exact Hknown].
Defined.


Lemma title_and_html_are_sent_when_they_change_witness :
  (put_title numbered "One" 0 webview_one).2 = [proxy_setTitle numbered 0%Z "One"]
  /\ put_title numbered "One" 0 (set_title numbered "One" webview_one)
     = (Return (), set_title numbered "One" webview_one, []).
Proof.
  pose proof (title_and_html_are_sent_when_they_change numbered 0
                webview_one "One" eq_refl) as H.
  split; apply H.
Defined.

Lemma dispose_leaves_the_webview_registered_witness :
  getWebview numbered 0 first_disposed = Some 0
  /\ onDidChangePosition numbered 0 3%Z first_disposed
     = (Throw "Webview is disposed", first_disposed)
  /\ onMessage numbered 0 "ping" first_disposed
     = call numbered [onMessageEmitter_fire numbered 0 "ping"] first_disposed.
Proof.
  pose proof (dispose_leaves_the_webview_registered numbered both_created
                0 0 webview_one 3%Z "ping" eq_refl eq_refl) as H.
  split; [apply H|]. split; apply H.
Defined.

Lemma onDidChangePosition_fires_on_change_witness :
  let moved := onDidChangePosition numbered 1 3%Z first_disposed in
  moved.1 = Return ()
  /\ calls numbered moved.2
     = calls numbered first_disposed
       ++ [onDidChangeViewColumnEmitter_fire numbered 1 4%Z]
  /\ onDidChangePosition numbered 1 3%Z moved.2 = (Return (), moved.2).
Proof.
  pose proof (onDidChangePosition_fires_on_change numbered first_disposed 1 1
                webview_two 3%Z eq_refl eq_refl eq_refl) as H.
  split; [apply H|]. split; apply H.
Defined.

Lemma onDidDisposeWeview_unregisters_without_disposing_witness :
  let σ' := onDidDisposeWeview numbered 1 first_disposed in
  getWebview numbered 1 σ' = None
  /\ heap numbered σ' = heap numbered first_disposed
  /\ calls numbered (invoke numbered (dispose numbered) 1 σ').2
     = calls numbered σ'
       ++ [proxy_disposeWebview numbered 1%Z;
           emitter_dispose numbered 1 onDisposeEmitter;
           emitter_dispose numbered 1 onMessageEmitter;
           emitter_dispose numbered 1 onDidChangeViewColumnEmitter].
Proof.
  pose proof (onDidDisposeWeview_unregisters_without_disposing numbered
                first_disposed 1 1 webview_two "ping"
                eq_refl eq_refl eq_refl) as H.
  split; [apply H|]. split; apply H.
Defined.

End Webview.

(** * The editor status in the status bar ([State], [EditorStatus])

    [State] holds what the status bar shows about the active editor
    (selection, language mode, encoding, end of line, indentation, tab focus
    mode); [State.update] merges a [StateDelta] into it and reports which
    entries changed.  [EditorStatus.updateState] then shows or hides the
    element of every entry that changed. *)

Module Status.

(** A value that may be [undefined] or [null]. *)
Inductive Optional (A : Type) :=
| undefined
| null
| defined (value : A).
Arguments undefined {A}.
Arguments null {A}.
Arguments defined {A} value.

(** JavaScript truthiness of a string that may be [undefined] or [null]. *)
Definition truthy (s : Optional string) : bool :=
  match s with
  | defined EmptyString => false
  | defined _ => true
  | _ => false
  end.

(** The string ['\r\n']. *)
Definition CRLF : string := String "013" (String "010" "").

(** [nls.localize(key, message, ...args)], which this file does not define;
    the arguments are numbers wherever the status uses them. *)
Record Host := {
  nls_localize : string -> string -> list Z -> string
}.

(** The [indentation] entry of a [StateDelta]. *)
Record Indentation := {
  modelId : string;
  insertSpaces : bool;
  tabSize : Z
}.

(** [StateDelta]: an entry that is left out is [undefined]. *)
Module StateDelta.
Record t := {
  selectionStatus : Optional string;
  mode : Optional string;
  encoding : Optional string;
  EOL : Optional string;
  indentation : Optional Indentation;
  tabFocusMode : option bool
}.
End StateDelta.

(** [IStateChange] *)
Module IStateChange.
Record t := {
  indentation : bool;
  selectionStatus : bool;
  mode : bool;
  encoding : bool;
  EOL : bool;
  tabFocusMode : bool
}.
End IStateChange.

(** The fields of [State].  The constructor sets all of them but
    [_indentation], which is [undefined] until the first update that has an
    [indentation] entry.  [_indentationHistory] is a JavaScript object used
    as a map from model ids (resource URIs) to indentations. *)
Record State := {
  _selectionStatus : Optional string;
  _mode : Optional string;
  _encoding : Optional string;
  _EOL : Optional string;
  _indentation : Optional string;
  _indentationHistory : gmap string Indentation;
  _tabFocusMode : bool
}.

(** [new State()] *)
Definition new_State : State :=
  {| _selectionStatus := null; _mode := null; _encoding := null; _EOL := null;
     _indentation := undefined; _indentationHistory := ∅;
     _tabFocusMode := false |}.

Definition set_selectionStatus (v : Optional string) (s : State) : State :=
  {| _selectionStatus := v; _mode := _mode s; _encoding := _encoding s;
     _EOL := _EOL s; _indentation := _indentation s;
     _indentationHistory := _indentationHistory s;
     _tabFocusMode := _tabFocusMode s |}.

Definition set_mode (v : Optional string) (s : State) : State :=
  {| _selectionStatus := _selectionStatus s; _mode := v; _encoding := _encoding s;
     _EOL := _EOL s; _indentation := _indentation s;
     _indentationHistory := _indentationHistory s;
     _tabFocusMode := _tabFocusMode s |}.

Definition set_encoding (v : Optional string) (s : State) : State :=
  {| _selectionStatus := _selectionStatus s; _mode := _mode s; _encoding := v;
     _EOL := _EOL s; _indentation := _indentation s;
     _indentationHistory := _indentationHistory s;
     _tabFocusMode := _tabFocusMode s |}.

Definition set_EOL (v : Optional string) (s : State) : State :=
  {| _selectionStatus := _selectionStatus s; _mode := _mode s;
     _encoding := _encoding s; _EOL := v; _indentation := _indentation s;
     _indentationHistory := _indentationHistory s;
     _tabFocusMode := _tabFocusMode s |}.

Definition set_indentation (v : Optional string) (s : State) : State :=
  {| _selectionStatus := _selectionStatus s; _mode := _mode s;
     _encoding := _encoding s; _EOL := _EOL s; _indentation := v;
     _indentationHistory := _indentationHistory s;
     _tabFocusMode := _tabFocusMode s |}.

Definition set_indentationHistory (h : gmap string Indentation) (s : State) : State :=
  {| _selectionStatus := _selectionStatus s; _mode := _mode s;
     _encoding := _encoding s; _EOL := _EOL s; _indentation := _indentation s;
     _indentationHistory := h; _tabFocusMode := _tabFocusMode s |}.

Definition set_tabFocusMode (v : bool) (s : State) : State :=
  {| _selectionStatus := _selectionStatus s; _mode := _mode s;
     _encoding := _encoding s; _EOL := _EOL s; _indentation := _indentation s;
     _indentationHistory := _indentationHistory s; _tabFocusMode := v |}.

#[global] Instance Optional_eq_dec {A : Type} `{EqDecision A} :
  EqDecision (Optional A).
Proof. solve_decision. Defined.

Section WithHost.

Variable host : Host.

(** The label of an indentation:
    [insertSpaces ? localize('spacesSize', ...) : localize('tabSize', ...)] *)
Definition indentation_label (i : Indentation) : string :=
  if insertSpaces i
  then nls_localize host "spacesSize" "Spaces: {0}" [tabSize i]
  else nls_localize host "tabSize" "Tab Size: {0}" [tabSize i].

(** The local variables of [update]: the object [e] that it may return,
    and [somethingChanged]. *)
Record Changes := {
  e : IStateChange.t;
  somethingChanged : bool
}.

Definition nothing : Changes :=
  {| e := {| IStateChange.selectionStatus := false; IStateChange.mode := false;
             IStateChange.encoding := false; IStateChange.EOL := false;
             IStateChange.tabFocusMode := false;
             IStateChange.indentation := false |};
     somethingChanged := false |}.

Definition mark (set : IStateChange.t -> IStateChange.t) (c : Changes) : Changes :=
  {| e := set (e c); somethingChanged := true |}.

Definition mark_selectionStatus (e : IStateChange.t) : IStateChange.t :=
  {| IStateChange.indentation := IStateChange.indentation e;
     IStateChange.selectionStatus := true;
     IStateChange.mode := IStateChange.mode e;
     IStateChange.encoding := IStateChange.encoding e;
     IStateChange.EOL := IStateChange.EOL e;
     IStateChange.tabFocusMode := IStateChange.tabFocusMode e |}.

Definition mark_indentation (e : IStateChange.t) : IStateChange.t :=
  {| IStateChange.indentation := true;
     IStateChange.selectionStatus := IStateChange.selectionStatus e;
     IStateChange.mode := IStateChange.mode e;
     IStateChange.encoding := IStateChange.encoding e;
     IStateChange.EOL := IStateChange.EOL e;
     IStateChange.tabFocusMode := IStateChange.tabFocusMode e |}.

Definition mark_mode (e : IStateChange.t) : IStateChange.t :=
  {| IStateChange.indentation := IStateChange.indentation e;
     IStateChange.selectionStatus := IStateChange.selectionStatus e;
     IStateChange.mode := true;
     IStateChange.encoding := IStateChange.encoding e;
     IStateChange.EOL := IStateChange.EOL e;
     IStateChange.tabFocusMode := IStateChange.tabFocusMode e |}.

Definition mark_encoding (e : IStateChange.t) : IStateChange.t :=
  {| IStateChange.indentation := IStateChange.indentation e;
     IStateChange.selectionStatus := IStateChange.selectionStatus e;
     IStateChange.mode := IStateChange.mode e;
     IStateChange.encoding := true;
     IStateChange.EOL := IStateChange.EOL e;
     IStateChange.tabFocusMode := IStateChange.tabFocusMode e |}.

Definition mark_EOL (e : IStateChange.t) : IStateChange.t :=
  {| IStateChange.indentation := IStateChange.indentation e;
     IStateChange.selectionStatus := IStateChange.selectionStatus e;
     IStateChange.mode := IStateChange.mode e;
     IStateChange.encoding := IStateChange.encoding e;
     IStateChange.EOL := true;
     IStateChange.tabFocusMode := IStateChange.tabFocusMode e |}.

Definition mark_tabFocusMode (e : IStateChange.t) : IStateChange.t :=
  {| IStateChange.indentation := IStateChange.indentation e;
     IStateChange.selectionStatus := IStateChange.selectionStatus e;
     IStateChange.mode := IStateChange.mode e;
     IStateChange.encoding := IStateChange.encoding e;
     IStateChange.EOL := IStateChange.EOL e;
     IStateChange.tabFocusMode := true |}.

(** The six [if (typeof update.<entry> !== 'undefined')] blocks of
    [update], in the order of the source. *)
Definition update_selectionStatus (update : StateDelta.t) (sc : State * Changes)
    : State * Changes :=
  match StateDelta.selectionStatus update with
  | undefined => sc
  | v =>
      if bool_decide (_selectionStatus sc.1 <> v)
      then (set_selectionStatus v sc.1, mark mark_selectionStatus sc.2)
      else sc
  end.

Definition update_indentation (update : StateDelta.t) (sc : State * Changes)
    : State * Changes :=
  match StateDelta.indentation update with
  | undefined => sc
  | v =>
      let '(indentationLabel, s1) :=
        match v with
        | defined i =>
            (defined (indentation_label i),
             set_indentationHistory
               (<[modelId i := i]> (_indentationHistory sc.1)) sc.1)
        | _ => (null, sc.1)
        end in
      if bool_decide (_indentation s1 <> indentationLabel)
      then (set_indentation indentationLabel s1, mark mark_indentation sc.2)
      else (s1, sc.2)
  end.

Definition update_mode (update : StateDelta.t) (sc : State * Changes)
    : State * Changes :=
  match StateDelta.mode update with
  | undefined => sc
  | v =>
      if bool_decide (_mode sc.1 <> v)
      then (set_mode v sc.1, mark mark_mode sc.2)
      else sc
  end.

Definition update_encoding (update : StateDelta.t) (sc : State * Changes)
    : State * Changes :=
  match StateDelta.encoding update with
  | undefined => sc
  | v =>
      if bool_decide (_encoding sc.1 <> v)
      then (set_encoding v sc.1, mark mark_encoding sc.2)
      else sc
  end.

Definition update_EOL (update : StateDelta.t) (sc : State * Changes)
    : State * Changes :=
  match StateDelta.EOL update with
  | undefined => sc
  | v =>
      if bool_decide (_EOL sc.1 <> v)
      then (set_EOL v sc.1, mark mark_EOL sc.2)
      else sc
  end.

Definition update_tabFocusMode (update : StateDelta.t) (sc : State * Changes)
    : State * Changes :=
  match StateDelta.tabFocusMode update with
  | None => sc
  | Some v =>
      if bool_decide (_tabFocusMode sc.1 <> v)
      then (set_tabFocusMode v sc.1, mark mark_tabFocusMode sc.2)
      else sc
  end.

(** [update(update)]: the state afterwards, and the result ([None] is
    [null]). *)
Definition update (update : StateDelta.t) (this : State)
    : State * option IStateChange.t :=
  let sc := (this, nothing) in
  let sc := update_selectionStatus update sc in
  let sc := update_indentation update sc in
  let sc := update_mode update sc in
  let sc := update_encoding update sc in
  let sc := update_EOL update sc in
  let sc := update_tabFocusMode update sc in
  (sc.1, if somethingChanged sc.2 then Some (e sc.2) else None).

(** ** The elements of the status bar *)

(** What the status does with an [HTMLElement]: it sets its [title] and its
    [textContent], and [StyleMutator.setDisplay] sets its [display] style. *)
Record HTMLElement := {
  title : string;
  textContent : string;
  display : string
}.

Definition set_textContent (text : string) (el : HTMLElement) : HTMLElement :=
  {| title := title el; textContent := text; display := display el |}.

(** [StyleMutator.setDisplay(el, value)] *)
Definition setDisplay (value : string) (el : HTMLElement) : HTMLElement :=
  {| title := title el; textContent := textContent el; display := value |}.

(** [show(el)] and [hide(el)] *)
Definition show (el : HTMLElement) : HTMLElement := setDisplay "" el.
Definition hide (el : HTMLElement) : HTMLElement := setDisplay "none" el.

Definition nlsEOLLF : string := nls_localize host "endOfLineLineFeed" "LF" [].
Definition nlsEOLCRLF : string :=
  nls_localize host "endOfLineCarriageReturnLineFeed" "CRLF" [].
Definition nlsTabFocusMode : string :=
  nls_localize host "tabFocusModeEnabled" "Tab moves focus" [].

(** The fields of [EditorStatus] that [updateState] uses, once [render] has
    made the elements. *)
Record EditorStatus := {
  state : State;
  tabFocusModeElement : HTMLElement;
  indentationElement : HTMLElement;
  selectionElement : HTMLElement;
  encodingElement : HTMLElement;
  eolElement : HTMLElement;
  modeElement : HTMLElement
}.

(** An element made by [append(this.element, $(...))], with its title. *)
Definition element (title : string) : HTMLElement :=
  {| title := title; textContent := ""; display := "" |}.

(** The constructor followed by [render(container)]. *)
Definition render : EditorStatus :=
  {| state := new_State;
     tabFocusModeElement :=
       hide (set_textContent nlsTabFocusMode
               (element (nls_localize host "disableTabMode"
                           "Disable Accessibility Mode" [])));
     indentationElement :=
       hide (element (nls_localize host "indentation" "Indentation" []));
     selectionElement :=
       hide (element (nls_localize host "gotoLine" "Go to Line" []));
     encodingElement :=
       hide (element (nls_localize host "selectEncoding" "Select Encoding" []));
     eolElement :=
       hide (element (nls_localize host "selectEOL"
                        "Select End of Line Sequence" []));
     modeElement :=
       hide (element (nls_localize host "selectLanguageMode"
                        "Select Language Mode" [])) |}.

(** The block of [updateState] for an entry whose text is the state's
    string: [if (value) { el.textContent = value; show(el); } else
    { hide(el); }] *)
Definition reveal (value : Optional string) (text : string) (el : HTMLElement)
    : HTMLElement :=
  if truthy value then show (set_textContent text el) else hide el.

Definition text_of (value : Optional string) : string :=
  match value with defined s => s | _ => "" end.

(** [updateState(update)] *)
Definition updateState (update_ : StateDelta.t) (this : EditorStatus)
    : EditorStatus :=
  let '(state', changed) := update update_ (state this) in
  match changed with
  | None => {| state := state';
               tabFocusModeElement := tabFocusModeElement this;
               indentationElement := indentationElement this;
               selectionElement := selectionElement this;
               encodingElement := encodingElement this;
               eolElement := eolElement this;
               modeElement := modeElement this |}
  | Some changed =>
      {| state := state';
         tabFocusModeElement :=
           if IStateChange.tabFocusMode changed
           then (if _tabFocusMode state'
                 then show (tabFocusModeElement this)
                 else hide (tabFocusModeElement this))
           else tabFocusModeElement this;
         indentationElement :=
           if IStateChange.indentation changed
           then reveal (_indentation state') (text_of (_indentation state'))
                  (indentationElement this)
           else indentationElement this;
         selectionElement :=
           if IStateChange.selectionStatus changed
           then reveal (_selectionStatus state') (text_of (_selectionStatus state'))
                  (selectionElement this)
           else selectionElement this;
         encodingElement :=
           if IStateChange.encoding changed
           then reveal (_encoding state') (text_of (_encoding state'))
                  (encodingElement this)
           else encodingElement this;
         eolElement :=
           if IStateChange.EOL changed
           then reveal (_EOL state')
                  (if bool_decide (_EOL state' = defined CRLF)
                   then nlsEOLCRLF else nlsEOLLF)
                  (eolElement this)
           else eolElement this;
         modeElement :=
           if IStateChange.mode changed
           then reveal (_mode state') (text_of (_mode state'))
                  (modeElement this)
           else modeElement this |}
  end.


(** ** What [update] does *)

(** An entry of the delta that is not [undefined] replaces the field. *)
Definition merged {A : Type} (held new : Optional A) : Optional A :=
  match new with
  | undefined => held
  | _ => new
  end.

(** The label that an [indentation] entry gives, and what it adds to the
    history. *)
Definition merged_label (held : Optional string) (new : Optional Indentation)
    : Optional string :=
  match new with
  | undefined => held
  | null => null
  | defined i => defined (indentation_label i)
  end.

Definition merged_history (held : gmap string Indentation)
    (new : Optional Indentation) : gmap string Indentation :=
  match new with
  | defined i => <[modelId i := i]> held
  | _ => held
  end.

(** The state that [update] leaves. *)
Definition updated (update : StateDelta.t) (this : State) : State :=
  {| _selectionStatus :=
       merged (_selectionStatus this) (StateDelta.selectionStatus update);
     _mode := merged (_mode this) (StateDelta.mode update);
     _encoding := merged (_encoding this) (StateDelta.encoding update);
     _EOL := merged (_EOL this) (StateDelta.EOL update);
     _indentation :=
       merged_label (_indentation this) (StateDelta.indentation update);
     _indentationHistory :=
       merged_history (_indentationHistory this) (StateDelta.indentation update);
     _tabFocusMode :=
       default (_tabFocusMode this) (StateDelta.tabFocusMode update) |}.

(** The entries in which two states differ. *)
Definition differences (this other : State) : IStateChange.t :=
  {| IStateChange.indentation := bool_decide (_indentation this <> _indentation other);
     IStateChange.selectionStatus :=
       bool_decide (_selectionStatus this <> _selectionStatus other);
     IStateChange.mode := bool_decide (_mode this <> _mode other);
     IStateChange.encoding := bool_decide (_encoding this <> _encoding other);
     IStateChange.EOL := bool_decide (_EOL this <> _EOL other);
     IStateChange.tabFocusMode :=
       bool_decide (_tabFocusMode this <> _tabFocusMode other) |}.

Definition any (c : IStateChange.t) : bool :=
  IStateChange.indentation c || IStateChange.selectionStatus c
  || IStateChange.mode c || IStateChange.encoding c || IStateChange.EOL c
  || IStateChange.tabFocusMode c.

Lemma update_selectionStatus_eq u sc :
  update_selectionStatus u sc
  = (set_selectionStatus
       (merged (_selectionStatus sc.1) (StateDelta.selectionStatus u)) sc.1,
     if bool_decide (_selectionStatus sc.1
                     <> merged (_selectionStatus sc.1) (StateDelta.selectionStatus u))
     then mark mark_selectionStatus sc.2 else sc.2).
Proof.
  destruct sc as [[] c]. unfold update_selectionStatus. simpl.
  destruct (StateDelta.selectionStatus u) as [| |v]; simpl.
  - by rewrite bool_decide_false by (by intros ?).
  - by case_bool_decide; [|subst].
  - by case_bool_decide; [|subst].
Qed.

Lemma update_mode_eq u sc :
  update_mode u sc
  = (set_mode (merged (_mode sc.1) (StateDelta.mode u)) sc.1,
     if bool_decide (_mode sc.1 <> merged (_mode sc.1) (StateDelta.mode u))
     then mark mark_mode sc.2 else sc.2).
Proof.
  destruct sc as [[] c]. unfold update_mode. simpl.
  destruct (StateDelta.mode u) as [| |v]; simpl.
  - by rewrite bool_decide_false by (by intros ?).
  - by case_bool_decide; [|subst].
  - by case_bool_decide; [|subst].
Qed.

Lemma update_encoding_eq u sc :
  update_encoding u sc
  = (set_encoding (merged (_encoding sc.1) (StateDelta.encoding u)) sc.1,
     if bool_decide (_encoding sc.1
                     <> merged (_encoding sc.1) (StateDelta.encoding u))
     then mark mark_encoding sc.2 else sc.2).
Proof.
  destruct sc as [[] c]. unfold update_encoding. simpl.
  destruct (StateDelta.encoding u) as [| |v]; simpl.
  - by rewrite bool_decide_false by (by intros ?).
  - by case_bool_decide; [|subst].
  - by case_bool_decide; [|subst].
Qed.

Lemma update_EOL_eq u sc :
  update_EOL u sc
  = (set_EOL (merged (_EOL sc.1) (StateDelta.EOL u)) sc.1,
     if bool_decide (_EOL sc.1 <> merged (_EOL sc.1) (StateDelta.EOL u))
     then mark mark_EOL sc.2 else sc.2).
Proof.
  destruct sc as [[] c]. unfold update_EOL. simpl.
  destruct (StateDelta.EOL u) as [| |v]; simpl.
  - by rewrite bool_decide_false by (by intros ?).
  - by case_bool_decide; [|subst].
  - by case_bool_decide; [|subst].
Qed.

Lemma update_tabFocusMode_eq u sc :
  update_tabFocusMode u sc
  = (set_tabFocusMode
       (default (_tabFocusMode sc.1) (StateDelta.tabFocusMode u)) sc.1,
     if bool_decide (_tabFocusMode sc.1
                     <> default (_tabFocusMode sc.1) (StateDelta.tabFocusMode u))
     then mark mark_tabFocusMode sc.2 else sc.2).
Proof.
  destruct sc as [[] c]. unfold update_tabFocusMode. simpl.
  destruct (StateDelta.tabFocusMode u) as [v|]; simpl.
  - by case_bool_decide; [|subst].
  - by rewrite bool_decide_false by (by intros ?).
Qed.

Lemma update_indentation_eq u sc :
  update_indentation u sc
  = (set_indentation
       (merged_label (_indentation sc.1) (StateDelta.indentation u))
       (set_indentationHistory
          (merged_history (_indentationHistory sc.1) (StateDelta.indentation u))
          sc.1),
     if bool_decide (_indentation sc.1
                     <> merged_label (_indentation sc.1) (StateDelta.indentation u))
     then mark mark_indentation sc.2 else sc.2).
Proof.
  destruct sc as [[] c]. unfold update_indentation. simpl.
  destruct (StateDelta.indentation u) as [| |v]; simpl.
  - by rewrite bool_decide_false by (by intros ?).
  - by case_bool_decide; [|subst].
  - by case_bool_decide as Hc; [|rewrite Hc].
Qed.

Lemma update_eq (update_ : StateDelta.t) (this : State) :
  update update_ this
  = (updated update_ this,
     if any (differences this (updated update_ this))
     then Some (differences this (updated update_ this)) else None).
Proof.
  destruct this as [sel mo enc eol ind hist tab].
  unfold update, updated, differences, any.
  rewrite update_selectionStatus_eq; cbn.
  rewrite update_indentation_eq; cbn.
  rewrite update_mode_eq; cbn.
  rewrite update_encoding_eq; cbn.
  rewrite update_EOL_eq; cbn.
  rewrite update_tabFocusMode_eq; cbn.
  generalize (bool_decide (sel ≠ merged sel (StateDelta.selectionStatus update_))).
  generalize (bool_decide (ind ≠ merged_label ind (StateDelta.indentation update_))).
  generalize (bool_decide (mo ≠ merged mo (StateDelta.mode update_))).
  generalize (bool_decide (enc ≠ merged enc (StateDelta.encoding update_))).
  generalize (bool_decide (eol ≠ merged eol (StateDelta.EOL update_))).
  generalize (bool_decide (tab ≠ default tab (StateDelta.tabFocusMode update_))).
  intros [] [] [] [] [] []; reflexivity.
Qed.

(** The six entries that the status bar shows. *)
Definition shown (s : State) :=
  (_selectionStatus s, _mode s, _encoding s, _EOL s, _indentation s,
   _tabFocusMode s).

Lemma any_differences this other :
  any (differences this other) = false <-> shown this = shown other.
Proof.
  unfold any, differences, shown. simpl. split.
  - intros H. repeat (apply orb_false_elim in H as [H ?]).
    repeat match goal with
           | H : bool_decide (_ <> _) = false |- _ =>
               apply bool_decide_eq_false, dec_stable in H
           end.
    congruence.
  - intros [= -> -> -> -> -> ->].
    by rewrite !bool_decide_false by (by intros ?).
Qed.

(** [update] merges the delta into the state: an entry that is not
    [undefined] replaces its field (for [indentation], the field is the
    label of the entry, and the entry is filed in the history), and every
    other field is kept.  It returns [null] exactly when none of the six
    shown fields has changed; otherwise it returns the flags of the
    fields that have. *)
Theorem update_reports_what_changed (update_ : StateDelta.t) (this : State) :
  let result := update update_ this in
  result.1 = updated update_ this
  /\ (result.2 = None <-> shown result.1 = shown this)
  /\ (forall changed,
        result.2 = Some changed -> changed = differences this result.1).
Proof.
  intros result. unfold result. rewrite update_eq. simpl.
  destruct (any _) eqn:Ha.
  - split_and!; try done.
    + split; [done|]. intros Hs. symmetry in Hs.
      apply any_differences in Hs. congruence.
    + by intros changed [= <-].
  - split_and!; try done. split; [|done]. intros _.
    symmetry. by apply any_differences.
Qed.

Lemma merged_merged {A : Type} (held new : Optional A) :
  merged (merged held new) new = merged held new.
Proof. by destruct new. Qed.

Lemma updated_updated (update_ : StateDelta.t) (this : State) :
  updated update_ (updated update_ this) = updated update_ this.
Proof.
  unfold updated. simpl. rewrite !merged_merged. f_equal.
  - by destruct (StateDelta.indentation update_).
  - destruct (StateDelta.indentation update_); simpl; try done.
    by rewrite insert_insert_eq.
  - by destruct (StateDelta.tabFocusMode update_).
Qed.

(** The same delta a second time changes nothing: the state is left as the
    first update left it, and [update] returns [null]. *)
Theorem update_twice_reports_nothing (update_ : StateDelta.t) (this : State) :
  update update_ (update update_ this).1 = ((update update_ this).1, None).
Proof.
  rewrite !update_eq. simpl. rewrite updated_updated.
  assert (any (differences (updated update_ this) (updated update_ this)) = false)
    as ->; [|done].
  by apply any_differences.
Qed.

(** An [indentation] entry is filed in the history under its model id,
    where it replaces what was filed before; the other model ids keep what
    they had.  This does not depend on whether the label changes. *)
Theorem update_files_the_indentation (update_ : StateDelta.t) (this : State)
    (i : Indentation) :
  StateDelta.indentation update_ = defined i ->
  let history := _indentationHistory (update update_ this).1 in
  history !! modelId i = Some i
  /\ (forall id, id <> modelId i -> history !! id = _indentationHistory this !! id)
  /\ _indentation (update update_ this).1 = defined (indentation_label i).
Proof.
  intros Hi history. unfold history. rewrite update_eq. simpl. rewrite Hi. simpl.
  split_and!.
  - by rewrite lookup_insert_eq.
  - intros id Hne. by rewrite lookup_insert_ne.
  - done.
Qed.

(** ** The status bar shows the state *)

(** An element shows a string of the state: it is displayed exactly when
    the string is truthy, and then its text is [text]. *)
Definition shows (value : Optional string) (text : string) (el : HTMLElement)
    : Prop :=
  display el = (if truthy value then "" else "none")
  /\ (truthy value = true -> textContent el = text).

Definition eol_text (value : Optional string) : string :=
  if bool_decide (value = defined CRLF) then nlsEOLCRLF else nlsEOLLF.

Definition reflects (status : EditorStatus) : Prop :=
  display (tabFocusModeElement status)
  = (if _tabFocusMode (state status) then "" else "none")
  /\ textContent (tabFocusModeElement status) = nlsTabFocusMode
  /\ shows (_indentation (state status)) (text_of (_indentation (state status)))
       (indentationElement status)
  /\ shows (_selectionStatus (state status))
       (text_of (_selectionStatus (state status))) (selectionElement status)
  /\ shows (_encoding (state status)) (text_of (_encoding (state status)))
       (encodingElement status)
  /\ shows (_EOL (state status)) (eol_text (_EOL (state status)))
       (eolElement status)
  /\ shows (_mode (state status)) (text_of (_mode (state status)))
       (modeElement status).

Lemma reveal_shows value text el : shows value text (reveal value text el).
Proof. unfold shows, reveal. by destruct (truthy value). Qed.

Lemma shows_kept (changed : bool) held new text text' el :
  changed = bool_decide (held <> new) ->
  (held = new -> text = text') ->
  shows held text el ->
  shows new text' (if changed then reveal new text' el else el).
Proof.
  intros -> Ht Hs. case_bool_decide as Hc; [apply reveal_shows|].
  subst. by rewrite <-Ht.
Qed.

Lemma updateState_reflects update_ status :
  reflects status -> reflects (updateState update_ status).
Proof.
  intros (Htab & Htext & Hind & Hsel & Henc & Heol & Hmode).
  unfold updateState. rewrite update_eq.
  set (state' := updated update_ (state status)).
  destruct (any (differences (state status) state')) eqn:Ha.
  - unfold reflects. cbn [state tabFocusModeElement indentationElement
      selectionElement encodingElement eolElement modeElement].
    unfold differences. simpl. split_and!.
    + case_bool_decide as Hc.
      * by destruct (default _ _).
      * by rewrite <-Hc.
    + case_bool_decide; [|done]. by destruct (default _ _).
    + apply (shows_kept _ (_indentation (state status)) _ (text_of (_indentation (state status))));
        [done|intros H; by rewrite <-H|done].
    + apply (shows_kept _ (_selectionStatus (state status)) _ (text_of (_selectionStatus (state status))));
        [done|intros H; by rewrite <-H|done].
    + apply (shows_kept _ (_encoding (state status)) _ (text_of (_encoding (state status))));
        [done|intros H; by rewrite <-H|done].
    + apply (shows_kept _ (_EOL (state status)) _ (eol_text (_EOL (state status))));
        [done|intros H; by rewrite <-H|done].
    + apply (shows_kept _ (_mode (state status)) _ (text_of (_mode (state status))));
        [done|intros H; by rewrite <-H|done].
  - apply any_differences in Ha. unfold shown in Ha.
    injection Ha as H1 H2 H3 H4 H5 H6.
    unfold reflects. cbn [state tabFocusModeElement indentationElement
      selectionElement encodingElement eolElement modeElement].
    unfold state' in *. simpl in *.
    by rewrite <-H1, <-H2, <-H3, <-H4, <-H5, <-H6.
Qed.

Lemma render_reflects : reflects render.
Proof. unfold reflects, shows. simpl. split_and!; done. Qed.

Lemma updateState_state update_ status :
  state (updateState update_ status) = updated update_ (state status).
Proof. unfold updateState. rewrite update_eq. by destruct (any _). Qed.

(** After [render] and any number of calls of [updateState], the status bar
    shows the state: the element of the selection, the language mode, the
    encoding and the indentation is displayed exactly when the state holds a
    non-empty string for it, and then has that string as its text; the
    element of the end of line likewise, with the text for [CRLF] when the
    state holds ['\r\n'] and the text for [LF] otherwise; the element of the
    tab focus mode is displayed exactly when the mode is on. *)
Theorem status_bar_shows_the_state (updates : list StateDelta.t) :
  reflects (foldl (fun status update_ => updateState update_ status) render updates).
Proof.
  generalize render_reflects. generalize render as status.
  induction updates as [|u updates IH]; intros status H; simpl; [done|].
  by apply IH, updateState_reflects.
Qed.

(** ** The editors behind the status *)

(** What the status asks of an editor.  The control of a text editor is a
    code editor, a diff editor (whose modified side is a code editor), or
    something else; [getEditorType()] tells which.  A code editor has a
    configuration and may have a model, which knows its end of line. *)
Record IEditorConfiguration := {
  readOnly : bool;
  tabFocusMode : bool
}.

Record IModel := {
  getEOL : string
}.

Record ICodeEditor := {
  getConfiguration : IEditorConfiguration;
  getModel : option IModel
}.

Inductive EditorType := EditorType_ICodeEditor | EditorType_IDiffEditor | EditorType_other.

#[global] Instance EditorType_eq_dec : EqDecision EditorType.
Proof. solve_decision. Defined.

Inductive IEditor :=
| CodeEditorWidget (editor : ICodeEditor)
| DiffEditorWidget (modified : ICodeEditor)
| OtherWidget.

Definition getEditorType (editorWidget : IEditor) : EditorType :=
  match editorWidget with
  | CodeEditorWidget _ => EditorType_ICodeEditor
  | DiffEditorWidget _ => EditorType_IDiffEditor
  | OtherWidget => EditorType_other
  end.

(** [(<IDiffEditor>editorWidget).getModifiedEditor()] *)
Definition getModifiedEditor (editorWidget : IEditor) : IEditor :=
  match editorWidget with
  | DiffEditorWidget modified => CodeEditorWidget modified
  | _ => editorWidget
  end.

(** An [IBaseEditor]: a [BaseTextEditor] with its control, or another
    editor.  Editors are objects; [identity] tells them apart. *)
Inductive IBaseEditor :=
| BaseTextEditor (identity : nat) (getControl : IEditor)
| OtherEditor (identity : nat).

Definition identity_of (e : IBaseEditor) : nat :=
  match e with
  | BaseTextEditor identity _ => identity
  | OtherEditor identity => identity
  end.

(** [getCodeEditor(e)], where [e] may be [null]. *)
Definition getCodeEditor (e : option IBaseEditor) : option ICodeEditor :=
  match e with
  | Some (BaseTextEditor _ editorWidget) =>
      if bool_decide (getEditorType editorWidget = EditorType_IDiffEditor)
      then match getModifiedEditor editorWidget with
           | CodeEditorWidget editor => Some editor
           | _ => None
           end
      else if bool_decide (getEditorType editorWidget = EditorType_ICodeEditor)
      then match editorWidget with
           | CodeEditorWidget editor => Some editor
           | _ => None
           end
      else None
  | _ => None
  end.

(** [isCodeEditorWithTabFocusMode(e)] and [isWritableCodeEditor(e)], for
    the control of a [BaseTextEditor]. *)
Definition isCodeEditorWithTabFocusMode (control : IEditor) : bool :=
  let editorWidget := control in
  let editorWidget :=
    if bool_decide (getEditorType editorWidget = EditorType_IDiffEditor)
    then getModifiedEditor editorWidget else editorWidget in
  if bool_decide (getEditorType editorWidget <> EditorType_ICodeEditor) then false
  else
    match editorWidget with
    | CodeEditorWidget editor =>
        tabFocusMode (getConfiguration editor)
        && negb (readOnly (getConfiguration editor))
    | _ => false
    end.

Definition isWritableCodeEditor (control : IEditor) : bool :=
  let editorWidget := control in
  let editorWidget :=
    if bool_decide (getEditorType editorWidget = EditorType_IDiffEditor)
    then getModifiedEditor editorWidget else editorWidget in
  bool_decide (getEditorType editorWidget = EditorType_ICodeEditor)
  && match editorWidget with
     | CodeEditorWidget editor => negb (readOnly (getConfiguration editor))
     | _ => false
     end.

(** [isActiveEditor(e)], given what [editorService.getActiveEditor()]
    returns. *)
Definition isActiveEditor (activeEditor e : option IBaseEditor) : bool :=
  match activeEditor, e with
  | Some active, Some e => bool_decide (identity_of active = identity_of e)
  | _, _ => false
  end.

Definition no_change : StateDelta.t :=
  {| StateDelta.selectionStatus := undefined; StateDelta.mode := undefined;
     StateDelta.encoding := undefined; StateDelta.EOL := undefined;
     StateDelta.indentation := undefined; StateDelta.tabFocusMode := None |}.

(** [{ tabFocusMode: value }] and [{ EOL: value }] *)
Definition delta_tabFocusMode (value : bool) : StateDelta.t :=
  {| StateDelta.selectionStatus := undefined; StateDelta.mode := undefined;
     StateDelta.encoding := undefined; StateDelta.EOL := undefined;
     StateDelta.indentation := undefined; StateDelta.tabFocusMode := Some value |}.

Definition delta_EOL (value : Optional string) : StateDelta.t :=
  {| StateDelta.selectionStatus := undefined; StateDelta.mode := undefined;
     StateDelta.encoding := undefined; StateDelta.EOL := value;
     StateDelta.indentation := undefined; StateDelta.tabFocusMode := None |}.

(** [onTabFocusModeChange(e)] *)
Definition onTabFocusModeChange (activeEditor e : option IBaseEditor)
    (this : EditorStatus) : EditorStatus :=
  if bool_decide (is_Some e) && negb (isActiveEditor activeEditor e) then this
  else
    let info :=
      match e with
      | Some (BaseTextEditor _ control) =>
          if isCodeEditorWithTabFocusMode control
          then delta_tabFocusMode true else delta_tabFocusMode false
      | _ => delta_tabFocusMode false
      end in
    updateState info this.

(** [onEOLChange(e)] *)
Definition onEOLChange (activeEditor e : option IBaseEditor)
    (this : EditorStatus) : EditorStatus :=
  if bool_decide (is_Some e) && negb (isActiveEditor activeEditor e) then this
  else
    match getCodeEditor e with
    | None => this
    | Some codeEditor =>
        let info :=
          if negb (readOnly (getConfiguration codeEditor)) then
            match getModel codeEditor with
            | Some codeEditorModel => delta_EOL (defined (getEOL codeEditorModel))
            | None => delta_EOL null
            end
          else delta_EOL null in
        updateState info this
    end.

(** A code editor in tab focus mode is writable, and a writable code editor
    is one that [getCodeEditor] finds and that is not read-only. *)
Lemma tab_focus_mode_needs_a_writable_editor (identity : nat) (control : IEditor) :
  (isCodeEditorWithTabFocusMode control = true -> isWritableCodeEditor control = true)
  /\ (isWritableCodeEditor control = true <->
      exists editor,
        getCodeEditor (Some (BaseTextEditor identity control)) = Some editor
        /\ readOnly (getConfiguration editor) = false).
Proof.
  unfold isCodeEditorWithTabFocusMode, isWritableCodeEditor, getCodeEditor.
  destruct control as [editor|editor|]; simpl; split.
  - by intros [_ ->]%andb_true_iff.
  - split.
    + intros H%negb_true_iff. eauto.
    + intros (? & [= <-] & ->). done.
  - by intros [_ ->]%andb_true_iff.
  - split.
    + intros H%negb_true_iff. eauto.
    + intros (? & [= <-] & ->). done.
  - done.
  - split; [done|]. by intros (? & ? & _).
Qed.


(** The two indicators that depend on the editor being writable.  When the
    editor that changed is the active one (or there is none), the element
    of the tab focus mode is displayed exactly for a text editor whose code
    editor is in tab focus mode and not read-only; the element of the end
    of line is hidden for a read-only code editor and for one without a
    model, and otherwise shows the end of line of the model; an editor
    without a code editor leaves the status as it was.  A change of an
    editor that is not the active one is ignored. *)
Theorem indicators_follow_the_active_editor (activeEditor e : option IBaseEditor)
    (status : EditorStatus) :
  reflects status ->
  (if bool_decide (is_Some e) && negb (isActiveEditor activeEditor e)
   then onTabFocusModeChange activeEditor e status = status
        /\ onEOLChange activeEditor e status = status
   else
     display (tabFocusModeElement (onTabFocusModeChange activeEditor e status))
     = (if match e with
            | Some (BaseTextEditor _ control) => isCodeEditorWithTabFocusMode control
            | _ => false
            end
        then "" else "none")
     /\ match getCodeEditor e with
        | None => onEOLChange activeEditor e status = status
        | Some codeEditor =>
            let shown_EOL :=
              if readOnly (getConfiguration codeEditor) then null
              else match getModel codeEditor with
                   | Some codeEditorModel => defined (getEOL codeEditorModel)
                   | None => null
                   end in
            shows shown_EOL (eol_text shown_EOL)
              (eolElement (onEOLChange activeEditor e status))
        end).
Proof.
  intros Hr. unfold onTabFocusModeChange, onEOLChange.
  destruct (bool_decide (is_Some e) && negb (isActiveEditor activeEditor e));
    [done|].
  split.
  - set (info := match e with
                 | Some (BaseTextEditor _ control) =>
                     if isCodeEditorWithTabFocusMode control
                     then delta_tabFocusMode true else delta_tabFocusMode false
                 | _ => delta_tabFocusMode false
                 end).
    destruct (updateState_reflects info status Hr) as (Htab & _).
    rewrite Htab, updateState_state. unfold info.
    destruct e as [[identity control|identity]|]; simpl; try done.
    by destruct (isCodeEditorWithTabFocusMode control).
  - destruct (getCodeEditor e) as [codeEditor|]; [|done]. simpl.
    set (info := if negb (readOnly (getConfiguration codeEditor))
                 then match getModel codeEditor with
                      | Some codeEditorModel =>
                          delta_EOL (defined (getEOL codeEditorModel))
                      | None => delta_EOL null
                      end
                 else delta_EOL null).
    destruct (updateState_reflects info status Hr) as (_ & _ & _ & _ & _ & Heol & _).
    rewrite updateState_state in Heol. unfold info in *.
    destruct (readOnly (getConfiguration codeEditor)); simpl in *; [done|].
    by destruct (getModel codeEditor).
Qed.

End WithHost.

(** ** A status bar in English *)

(** A number as JavaScript writes it in a string. *)
Definition decimal (n : Z) : string := NilZero.string_of_int (Z.to_int n).

Definition digit (c : ascii) : option nat :=
  let code := nat_of_ascii c in
  if ((48 <=? code) && (code <=? 57))%nat then Some (code - 48)%nat else None.

(** The placeholders of a message: each [{n}] stands for the argument at the
    index that the first digit of [n] gives, and stays as it is when there is
    no such argument.  [held] is the text since an opening brace that may
    still become a placeholder, with the index once a digit was read. *)
Fixpoint format (held : option (string * option nat)) (message : string)
    (args : list Z) : string :=
  match message, held with
  | EmptyString, None => EmptyString
  | EmptyString, Some (text, _) => text
  | String c rest, None =>
      if Ascii.eqb c "{" then format (Some ("{", None)) rest args
      else String c (format None rest args)
  | String c rest, Some (text, index) =>
      if Ascii.eqb c "{" then text +:+ format (Some ("{", None)) rest args
      else
        match digit c, index with
        | Some d, None =>
            format (Some (text +:+ String c EmptyString, Some d)) rest args
        | Some d, Some _ =>
            format (Some (text +:+ String c EmptyString, index)) rest args
        | None, Some i =>
            if Ascii.eqb c "}"
            then match args !! i with
                 | Some arg => decimal arg +:+ format None rest args
                 | None => text +:+ String c (format None rest args)
                 end
            else text +:+ String c (format None rest args)
        | None, None => text +:+ String c (format None rest args)
        end
  end.

(** [nls.localize] without translation: the message with its arguments
    filled in. *)
Definition english : Host :=
  {| nls_localize := fun key message args => format None message args |}.

Definition four_spaces : Indentation :=
  {| modelId := "file:///a.ts"; insertSpaces := true; tabSize := 4 |}.

Definition delta_indentation (i : Indentation) : StateDelta.t :=
  {| StateDelta.selectionStatus := undefined; StateDelta.mode := undefined;
     StateDelta.encoding := undefined; StateDelta.EOL := undefined;
     StateDelta.indentation := defined i; StateDelta.tabFocusMode := None |}.

Lemma update_files_the_indentation_witness :
  let s' := (update english (delta_indentation four_spaces) new_State).1 in
  _indentationHistory s' !! "file:///a.ts" = Some four_spaces
  /\ _indentation s' = defined "Spaces: 4".
Proof.
  pose proof (update_files_the_indentation english
                (delta_indentation four_spaces) new_State four_spaces eq_refl) as H.
  split; apply H.
Defined.

(** A read-only code editor in tab focus mode, shown as the active editor. *)
Definition read_only_editor : IBaseEditor :=
  BaseTextEditor 1
    (CodeEditorWidget
       {| getConfiguration := {| readOnly := true; tabFocusMode := true |};
          getModel := Some {| getEOL := CRLF |} |}).

Lemma indicators_follow_the_active_editor_witness :
  let status := render english in
  display
    (tabFocusModeElement
       (onTabFocusModeChange english (Some read_only_editor)
          (Some read_only_editor) status)) = "none"
  /\ display
       (eolElement
          (onEOLChange english (Some read_only_editor)
             (Some read_only_editor) status)) = "none".
Proof.
  pose proof (indicators_follow_the_active_editor english
                (Some read_only_editor) (Some read_only_editor)
                (render english) (render_reflects english)) as H.
  split; [apply H|]. destruct H as [_ [H _]]. exact H.
Defined.

End Status.

(** * Folding ([CollapsibleRegion], [FoldingController])

    The folding controller keeps one [CollapsibleRegion] for every folding
    range of the editor's model.  A region owns two decorations of the
    model: a visual one at the end of its first line, and one that spans
    the region and follows the text as it is edited; where the region is
    now is read back from the second. *)

Module Folding.

(** How a call ends: it returns, or it throws (here always a [TypeError],
    from a property read on [null]). *)
Inductive Completion (A : Type) :=
| Return (value : A)
| Throw (message : string).
Arguments Return {A} value.
Arguments Throw {A} message.

Definition TypeError : string := "TypeError".

(** [IFoldingRange]; [isCollapsed] is optional. *)
Module IFoldingRange.
Record t := {
  startLineNumber : Z;
  endLineNumber : Z;
  indent : Z;
  isCollapsed : option bool
}.
End IFoldingRange.

(** [IRange] and [IPosition] *)
Module IRange.
Record t := {
  startLineNumber : Z;
  startColumn : Z;
  endLineNumber : Z;
  endColumn : Z
}.
End IRange.

Record IPosition := {
  lineNumber : Z;
  column : Z
}.

Inductive TrackedRangeStickiness :=
| NeverGrowsWhenTypingAtEdges
| GrowsOnlyWhenTypingBefore.

Record IModelDecorationOptions := {
  stickiness : TrackedRangeStickiness;
  inlineClassName : option string;
  linesDecorationsClassName : option string
}.

Record IModelDeltaDecoration := {
  range : IRange.t;
  options : IModelDecorationOptions
}.

(** What folding uses and this file does not define.  [IModel] is the
    editor's model with its decorations; the decoration given to
    [getDecorationRange] may be [undefined] ([None]).  The change accessor
    ([deltaDecorations], [changeDecorationOptions]) acts on the model.
    [sort] is [Array.prototype.sort] with the comparator
    [(r1, r2) => r1.startLineNumber - r2.startLineNumber]. *)
Record Host := {
  IModel : Type;
  getLineMaxColumn : IModel -> Z -> Z;
  getDecorationRange : IModel -> option string -> option IRange.t;
  deltaDecorations :
    list string -> list IModelDeltaDecoration -> IModel -> IModel * list string;
  changeDecorationOptions : string -> IModelDecorationOptions -> IModel -> IModel;
  Range_containsPosition : IRange.t -> IPosition -> bool;
  limitByIndent : list IFoldingRange.t -> Z -> list IFoldingRange.t;
  sort : list IFoldingRange.t -> list IFoldingRange.t
}.

Section WithHost.

Variable host : Host.

(** ** [CollapsibleRegion] *)

Record CollapsibleRegion := {
  decorationIds : list string;
  _isCollapsed : bool;
  _indent : Z;
  _lastRange : option IFoldingRange.t
}.

Definition set_isCollapsed (v : bool) (this : CollapsibleRegion) : CollapsibleRegion :=
  {| decorationIds := decorationIds this; _isCollapsed := v;
     _indent := _indent this; _lastRange := _lastRange this |}.

(** [get startLineNumber()] and [get endLineNumber()]: [undefined] without
    a last range. *)
Definition startLineNumber (this : CollapsibleRegion) : option Z :=
  IFoldingRange.startLineNumber <$> _lastRange this.

Definition endLineNumber (this : CollapsibleRegion) : option Z :=
  IFoldingRange.endLineNumber <$> _lastRange this.

(** [getVisualDecorationOptions()] *)
Definition getVisualDecorationOptions (this : CollapsibleRegion)
    : IModelDecorationOptions :=
  if _isCollapsed this
  then {| stickiness := NeverGrowsWhenTypingAtEdges;
          inlineClassName := Some "inline-folded";
          linesDecorationsClassName := Some "folding collapsed" |}
  else {| stickiness := NeverGrowsWhenTypingAtEdges;
          inlineClassName := None;
          linesDecorationsClassName := Some "folding" |}.

(** [getRangeDecorationOptions()] *)
Definition getRangeDecorationOptions : IModelDecorationOptions :=
  {| stickiness := GrowsOnlyWhenTypingBefore; inlineClassName := None;
     linesDecorationsClassName := None |}.

(** [setCollapsed(isCollaped, changeAccessor)] *)
Definition setCollapsed (isCollaped : bool) (this : CollapsibleRegion)
    (m : IModel host) : CollapsibleRegion * IModel host :=
  let this' := set_isCollapsed isCollaped this in
  match decorationIds this' with
  | id :: _ =>
      (this', changeDecorationOptions host id (getVisualDecorationOptions this') m)
  | [] => (this', m)
  end.

(** [getDecorationRange(model)], where [model] may be [null] *)
Definition getDecorationRange_of (this : CollapsibleRegion)
    (model : option (IModel host)) : Completion (option IRange.t) :=
  match decorationIds this with
  | _ :: _ =>
      match model with
      | Some m => Return (getDecorationRange host m (decorationIds this !! 1))
      | None => Throw TypeError
      end
  | [] => Return None
  end.

(** [getDecorationRange(model)] for a model that is there. *)
Definition range_in (m : IModel host) (dec : CollapsibleRegion) : option IRange.t :=
  match decorationIds dec with
  | _ :: _ => getDecorationRange host m (decorationIds dec !! 1)
  | [] => None
  end.

(** [update(newRange, model, changeAccessor)] *)
Definition update (newRange : IFoldingRange.t) (this : CollapsibleRegion)
    (m : IModel host) : CollapsibleRegion * IModel host :=
  let this' :=
    {| decorationIds := decorationIds this;
       _isCollapsed := default false (IFoldingRange.isCollapsed newRange);
       _indent := IFoldingRange.indent newRange;
       _lastRange := Some newRange |} in
  let maxColumn := getLineMaxColumn host m (IFoldingRange.startLineNumber newRange) in
  let visualRng :=
    {| IRange.startLineNumber := IFoldingRange.startLineNumber newRange;
       IRange.startColumn := maxColumn - 1;
       IRange.endLineNumber := IFoldingRange.startLineNumber newRange;
       IRange.endColumn := maxColumn |} in
  let colRng :=
    {| IRange.startLineNumber := IFoldingRange.startLineNumber newRange;
       IRange.startColumn := 1;
       IRange.endLineNumber := IFoldingRange.endLineNumber newRange;
       IRange.endColumn :=
         getLineMaxColumn host m (IFoldingRange.endLineNumber newRange) |} in
  let newDecorations :=
    [ {| range := visualRng; options := getVisualDecorationOptions this' |};
      {| range := colRng; options := getRangeDecorationOptions |} ] in
  let '(m', ids) := deltaDecorations host (decorationIds this') newDecorations m in
  ({| decorationIds := ids; _isCollapsed := _isCollapsed this';
      _indent := _indent this'; _lastRange := _lastRange this' |}, m').

(** [new CollapsibleRegion(range, model, changeAccessor)] *)
Definition new_CollapsibleRegion (range : IFoldingRange.t) (m : IModel host)
    : CollapsibleRegion * IModel host :=
  update range
    {| decorationIds := []; _isCollapsed := false; _indent := 0;
       _lastRange := None |} m.

(** [dispose(changeAccessor)] *)
Definition dispose (this : CollapsibleRegion) (m : IModel host)
    : CollapsibleRegion * IModel host :=
  let '(m', ids) := deltaDecorations host (decorationIds this) [] m in
  ({| decorationIds := ids; _isCollapsed := _isCollapsed this;
      _indent := _indent this; _lastRange := None |}, m').

(** ** The editor and the controller *)

(** The calls that the controller makes on the editor, oldest first. *)
Inductive EditorCall :=
| setPosition (position : IPosition)
| setHiddenAreas (ranges : list IRange.t)
| revealPositionInCenterIfOutsideViewport (position : IPosition).

(** The editor as the controller sees it: its model, if one is attached,
    its cursor, and the calls made on it.  [setPosition] moves the
    cursor. *)
Record ICodeEditor := {
  getModel : option (IModel host);
  getPosition : IPosition;
  calls : list EditorCall
}.

Definition call (c : EditorCall) (editor : ICodeEditor) : ICodeEditor :=
  {| getModel := getModel editor;
     getPosition :=
       match c with setPosition position => position | _ => getPosition editor end;
     calls := calls editor ++ [c] |}.

(** The fields of [FoldingController] that folding and unfolding use. *)
Record FoldingController := {
  editor : ICodeEditor;
  decorations : list CollapsibleRegion
}.

(** [this.editor.changeDecorations(callback)]: the callback runs at once on
    the change accessor of the model; without a model it does not run.
    The callback may change the regions, and may report a value. *)
Definition changeDecorations {A : Type}
    (callback : list CollapsibleRegion -> IModel host ->
                A * (list CollapsibleRegion * IModel host))
    (this : FoldingController) : option A * FoldingController :=
  match getModel (editor this) with
  | Some m =>
      let '(a, (decs, m')) := callback (decorations this) m in
      (Some a,
       {| editor := {| getModel := Some m'; getPosition := getPosition (editor this);
                       calls := calls (editor this) |};
          decorations := decs |})
  | None => (None, this)
  end.

(** [findRegions(lineNumber, collapsed)]: the positions in [decorations] of
    the regions that the filter keeps. *)
Definition surrounds (lineNumber : Z) (collapsed : bool)
    (model : option (IModel host)) (dec : CollapsibleRegion) : Completion bool :=
  if bool_decide (_isCollapsed dec <> collapsed) then Return false
  else
    match getDecorationRange_of dec model with
    | Throw message => Throw message
    | Return None => Return false
    | Return (Some decRange) =>
        Return ((IRange.startLineNumber decRange <=? lineNumber)%Z
                && (lineNumber <=? IRange.endLineNumber decRange)%Z)
    end.

Fixpoint filter_from (keep : CollapsibleRegion -> Completion bool)
    (i : nat) (decs : list CollapsibleRegion) : Completion (list nat) :=
  match decs with
  | [] => Return []
  | dec :: rest =>
      match keep dec with
      | Throw message => Throw message
      | Return kept =>
          match filter_from keep (S i) rest with
          | Throw message => Throw message
          | Return found => Return (if kept then i :: found else found)
          end
      end
  end.

Definition findRegions (lineNumber : Z) (collapsed : bool)
    (this : FoldingController) : Completion (list nat) :=
  filter_from (surrounds lineNumber collapsed (getModel (editor this))) 0
    (decorations this).

(** The region at a position of [decorations] is collapsed or expanded
    through the change accessor. *)
Definition setCollapsed_at (i : nat) (isCollaped : bool)
    (decs : list CollapsibleRegion) (m : IModel host)
    : list CollapsibleRegion * IModel host :=
  match decs !! i with
  | Some dec =>
      let '(dec', m') := setCollapsed isCollaped dec m in (<[i := dec']> decs, m')
  | None => (decs, m)
  end.

(** The [forEach] of [updateHiddenAreas] over the collapsed regions. *)
Record Hiding := {
  hiddenAreas : list IRange.t;
  cursorPosition : IPosition;
  updateCursorPosition : bool
}.

Fixpoint hide (model : option (IModel host)) (decs : list CollapsibleRegion)
    (h : Hiding) : Completion Hiding :=
  match decs with
  | [] => Return h
  | dec :: rest =>
      if _isCollapsed dec then
        match getDecorationRange_of dec model with
        | Throw message => Throw message
        | Return None => Throw TypeError
        | Return (Some decRange) =>
            let areas :=
              hiddenAreas h ++
              [ {| IRange.startLineNumber := IRange.startLineNumber decRange + 1;
                   IRange.startColumn := 1;
                   IRange.endLineNumber := IRange.endLineNumber decRange;
                   IRange.endColumn := 1 |} ] in
            if Range_containsPosition host decRange (cursorPosition h) then
              match model with
              | Some m =>
                  hide model rest
                    {| hiddenAreas := areas;
                       cursorPosition :=
                         {| lineNumber := IRange.startLineNumber decRange;
                            column := getLineMaxColumn host m
                                        (IRange.startLineNumber decRange) |};
                       updateCursorPosition := true |}
              | None => Throw TypeError
              end
            else
              hide model rest
                {| hiddenAreas := areas; cursorPosition := cursorPosition h;
                   updateCursorPosition := updateCursorPosition h |}
        end
      else hide model rest h
  end.

(** JavaScript truthiness of a line number that may be [undefined]. *)
Definition truthy_line (focusLine : option Z) : bool :=
  match focusLine with
  | Some line => negb (line =? 0)%Z
  | None => false
  end.

(** [updateHiddenAreas(focusLine)] *)
Definition updateHiddenAreas (focusLine : option Z) (this : FoldingController)
    : Completion unit * FoldingController :=
  match hide (getModel (editor this)) (decorations this)
          {| hiddenAreas := []; cursorPosition := getPosition (editor this);
             updateCursorPosition := false |} with
  | Throw message => (Throw message, this)
  | Return h =>
      let revealPosition :=
        if truthy_line focusLine
        then {| lineNumber := default 0%Z focusLine; column := 1 |}
        else cursorPosition h in
      let editor1 :=
        if updateCursorPosition h
        then call (setPosition (cursorPosition h)) (editor this)
        else editor this in
      let editor2 := call (setHiddenAreas (hiddenAreas h)) editor1 in
      let editor3 :=
        call (revealPositionInCenterIfOutsideViewport revealPosition) editor2 in
      (Return (), {| editor := editor3; decorations := decorations this |})
  end.

(** [unfold(lineNumber)] *)
Definition unfold (lineNumber : Z) (this : FoldingController)
    : Completion unit * FoldingController :=
  match findRegions lineNumber true this with
  | Throw message => (Throw message, this)
  | Return surrounding =>
      match surrounding with
      | first :: _ =>
          let this1 :=
            (changeDecorations
               (fun decs m => (tt, setCollapsed_at first false decs m)) this).2 in
          updateHiddenAreas (Some lineNumber) this1
      | [] => (Return (), this)
      end
  end.

(** [fold(lineNumber)] *)
Definition fold (lineNumber : Z) (this : FoldingController)
    : Completion unit * FoldingController :=
  match findRegions lineNumber false this with
  | Throw message => (Throw message, this)
  | Return surrounding =>
      match last surrounding with
      | Some innermost =>
          let this1 :=
            (changeDecorations
               (fun decs m => (tt, setCollapsed_at innermost true decs m)) this).2 in
          updateHiddenAreas (Some lineNumber) this1
      | None => (Return (), this)
      end
  end.

(** The [forEach] of [changeAll]. *)
Fixpoint changeAll_each (collapse : bool) (decs : list CollapsibleRegion)
    (m : IModel host) : list CollapsibleRegion * IModel host :=
  match decs with
  | [] => ([], m)
  | d :: rest =>
      let '(d', m1) :=
        if bool_decide (collapse <> _isCollapsed d)
        then setCollapsed collapse d m else (d, m) in
      let '(rest', m2) := changeAll_each collapse rest m1 in
      (d' :: rest', m2)
  end.

(** [changeAll(collapse)]; [hasChanges] starts as [true] and is never
    cleared. *)
Definition changeAll (collapse : bool) (this : FoldingController)
    : Completion unit * FoldingController :=
  match decorations this with
  | _ :: _ =>
      let this1 :=
        (changeDecorations
           (fun decs m => (tt, changeAll_each collapse decs m)) this).2 in
      updateHiddenAreas None this1
  | [] => (Return (), this)
  end.

(** The [forEach] of [revealCursor]: the regions, the model, and
    [hasChanges]. *)
Fixpoint revealCursor_each (lineNumber : Z) (decs : list CollapsibleRegion)
    (m : IModel host) (hasChanges : bool)
    : bool * (list CollapsibleRegion * IModel host) :=
  match decs with
  | [] => (hasChanges, ([], m))
  | dec :: rest =>
      let '(dec', m1, hasChanges1) :=
        if _isCollapsed dec then
          match getDecorationRange_of dec (Some m) with
          | Return (Some decRange) =>
              if (IRange.startLineNumber decRange <? lineNumber)%Z
                 && (lineNumber <=? IRange.endLineNumber decRange)%Z
              then let '(d, m') := setCollapsed false dec m in (d, m', true)
              else (dec, m, hasChanges)
          | _ => (dec, m, hasChanges)
          end
        else (dec, m, hasChanges) in
      let '(hasChanges2, (rest', m2)) :=
        revealCursor_each lineNumber rest m1 hasChanges1 in
      (hasChanges2, (dec' :: rest', m2))
  end.

(** [revealCursor()] *)
Definition revealCursor (this : FoldingController)
    : Completion unit * FoldingController :=
  match getModel (editor this) with
  | None => (Return (), this)
  | Some _ =>
      let lineNumber := lineNumber (getPosition (editor this)) in
      let '(hasChanges, this1) :=
        changeDecorations
          (fun decs m => revealCursor_each lineNumber decs m false) this in
      if default false hasChanges
      then updateHiddenAreas (Some lineNumber) this1
      else (Return (), this1)
  end.


(** ** Applying new folding ranges *)

(** The variables of the callback of [applyRegions]: the regions made so
    far, [updateHiddenRegions], and the model behind the change accessor. *)
Record Applying := {
  newDecorations : list CollapsibleRegion;
  updateHiddenRegions : bool;
  accessor : IModel host
}.

(** [updateHiddenRegions = updateHiddenRegions || region.isCollapsed;
    newDecorations.push(new CollapsibleRegion(region, model, changeAccessor));] *)
Definition push_new (region : IFoldingRange.t) (st : Applying) : Applying :=
  let '(dec, m) := new_CollapsibleRegion region (accessor st) in
  {| newDecorations := newDecorations st ++ [dec];
     updateHiddenRegions :=
       updateHiddenRegions st || default false (IFoldingRange.isCollapsed region);
     accessor := m |}.

(** [updateHiddenRegions = updateHiddenRegions || dec.isCollapsed;
    dec.dispose(changeAccessor);] *)
Definition dispose_old (dec : CollapsibleRegion) (st : Applying) : Applying :=
  {| newDecorations := newDecorations st;
     updateHiddenRegions := updateHiddenRegions st || _isCollapsed dec;
     accessor := (dispose dec (accessor st)).2 |}.

(** The branch of [applyRegions] for a decoration that starts where the
    range [currRange] starts: the decoration is kept, with its state.  The
    source writes that state into the range object ([currRange.isCollapsed
    = dec.isCollapsed]) before the update; ranges are values here, so the
    range as updated is [currRange'] (the two differ only for a caller that
    gives one range object twice). *)
Definition keep (dec : CollapsibleRegion) (currRange : IFoldingRange.t)
    (st : Applying) : Applying :=
  let moved :=
    _isCollapsed dec
    && (bool_decide (startLineNumber dec
                     <> Some (IFoldingRange.startLineNumber currRange))
        || bool_decide (endLineNumber dec
                        <> Some (IFoldingRange.endLineNumber currRange))) in
  let currRange' :=
    {| IFoldingRange.startLineNumber := IFoldingRange.startLineNumber currRange;
       IFoldingRange.endLineNumber := IFoldingRange.endLineNumber currRange;
       IFoldingRange.indent := IFoldingRange.indent currRange;
       IFoldingRange.isCollapsed := Some (_isCollapsed dec) |} in
  let '(dec', m) := update currRange' dec (accessor st) in
  {| newDecorations := newDecorations st ++ [dec'];
     updateHiddenRegions := updateHiddenRegions st || moved;
     accessor := m |}.

(** The inner loop: [while (k < regions.length && decRange.startLineNumber
    > regions[k].startLineNumber)]; it returns the ranges from [k] on. *)
Fixpoint add_before (decRangeStart : Z) (regions : list IFoldingRange.t)
    (st : Applying) : list IFoldingRange.t * Applying :=
  match regions with
  | region :: rest =>
      if (IFoldingRange.startLineNumber region <? decRangeStart)%Z
      then add_before decRangeStart rest (push_new region st)
      else (regions, st)
  | [] => ([], st)
  end.

(** The first loop: [while (i < this.decorations.length && k <
    regions.length)]; it returns the decorations from [i] on and the ranges
    from [k] on.  Every turn takes the decoration [i] or ends the loop,
    but for the last branch, where the source would go round without moving
    on; that branch is never taken ([merge_ends]). *)
Fixpoint merge (decs : list CollapsibleRegion) (regions : list IFoldingRange.t)
    (st : Applying)
    : list CollapsibleRegion * list IFoldingRange.t * Applying :=
  match decs with
  | [] => ([], regions, st)
  | dec :: decs' =>
      match regions with
      | [] => (decs, [], st)
      | _ :: _ =>
          match range_in (accessor st) dec with
          | None => merge decs' regions (dispose_old dec st)
          | Some decRange =>
              let '(regions1, st1) :=
                add_before (IRange.startLineNumber decRange) regions st in
              match regions1 with
              | [] => (decs, [], st1)
              | currRange :: regions2 =>
                  if (IRange.startLineNumber decRange
                      <? IFoldingRange.startLineNumber currRange)%Z
                  then merge decs' regions1 (dispose_old dec st1)
                  else if (IRange.startLineNumber decRange
                           =? IFoldingRange.startLineNumber currRange)%Z
                  then merge decs' regions2 (keep dec currRange st1)
                  else (decs, regions1, st1)
              end
          end
      end
  end.

(** The callback of [applyRegions]: the first loop, then the two loops
    that dispose the decorations and add the ranges that are left. *)
Definition applyRegions_callback (regions : list IFoldingRange.t)
    (decs : list CollapsibleRegion) (m : IModel host)
    : bool * (list CollapsibleRegion * IModel host) :=
  let st :=
    {| newDecorations := []; updateHiddenRegions := false; accessor := m |} in
  let '(decs1, regions1, st1) := merge decs regions st in
  let st2 := foldl (fun st dec => dispose_old dec st) st1 decs1 in
  let st3 := foldl (fun st region => push_new region st) st2 regions1 in
  (updateHiddenRegions st3, (newDecorations st3, accessor st3)).

(** [applyRegions(regions)] *)
Definition applyRegions (regions : list IFoldingRange.t)
    (this : FoldingController) : Completion unit * FoldingController :=
  match getModel (editor this) with
  | None => (Return (), this)
  | Some _ =>
      let regions := sort host (limitByIndent host regions 10000) in
      let '(updated, this1) :=
        changeDecorations (applyRegions_callback regions) this in
      if default false updated
      then updateHiddenAreas None this1
      else (Return (), this1)
  end.

(** ** Where a region is *)

Lemma getDecorationRange_of_Some dec m :
  getDecorationRange_of dec (Some m) = Return (range_in m dec).
Proof. unfold getDecorationRange_of, range_in. by destruct (decorationIds dec). Qed.

(** A region of the given state lies around a line. *)
Definition around (lineNumber : Z) (collapsed : bool) (m : IModel host)
    (dec : CollapsibleRegion) : bool :=
  bool_decide (_isCollapsed dec = collapsed)
  && match range_in m dec with
     | Some decRange =>
         (IRange.startLineNumber decRange <=? lineNumber)%Z
         && (lineNumber <=? IRange.endLineNumber decRange)%Z
     | None => false
     end.

Lemma surrounds_around lineNumber collapsed m dec :
  surrounds lineNumber collapsed (Some m) dec
  = Return (around lineNumber collapsed m dec).
Proof.
  unfold surrounds, around. rewrite getDecorationRange_of_Some.
  case_bool_decide as Hc.
  - by rewrite bool_decide_false.
  - rewrite bool_decide_true by done. by destruct (range_in m dec).
Qed.

(** The positions, counted from [i], of the elements that satisfy [p]. *)
Fixpoint positions (p : CollapsibleRegion -> bool) (i : nat)
    (decs : list CollapsibleRegion) : list nat :=
  match decs with
  | [] => []
  | dec :: rest =>
      if p dec then i :: positions p (S i) rest else positions p (S i) rest
  end.

Lemma filter_from_positions keep p :
  (forall dec, keep dec = Return (p dec)) ->
  forall decs i, filter_from keep i decs = Return (positions p i decs).
Proof.
  intros Hk. induction decs as [|dec rest IH]; intros i; simpl; [done|].
  by rewrite Hk, IH.
Qed.

Lemma findRegions_positions lineNumber collapsed this m :
  getModel (editor this) = Some m ->
  findRegions lineNumber collapsed this
  = Return (positions (around lineNumber collapsed m) 0 (decorations this)).
Proof.
  intros Hm. unfold findRegions. rewrite Hm.
  apply filter_from_positions. intros dec. apply surrounds_around.
Qed.

Lemma elem_of_positions p decs : forall i j,
  j ∈ positions p i decs
  <-> i <= j /\ exists dec, decs !! (j - i) = Some dec /\ p dec = true.
Proof.
  induction decs as [|dec rest IH]; intros i j; simpl.
  - split; [by intros ?%elem_of_nil|]. by intros (_ & ? & ? & _).
  - assert (j ∈ positions p (S i) rest
            <-> i < j /\ exists dec', (dec :: rest) !! (j - i) = Some dec'
                                      /\ p dec' = true) as Hrest.
    { rewrite IH. split.
      - intros (Hle & d & Hd & Hp). split; [lia|]. exists d. split; [|done].
        replace (j - i) with (S (j - S i)) by lia. done.
      - intros (Hlt & d & Hd & Hp). split; [lia|]. exists d. split; [|done].
        replace (j - i) with (S (j - S i)) in Hd by lia. done. }
    destruct (p dec) eqn:Hp.
    + rewrite elem_of_cons, Hrest. split.
      * intros [->|(Hlt & H)]; [|split; [lia|done]].
        split; [lia|]. exists dec. by rewrite Nat.sub_diag.
      * intros (Hle & d & Hd & Hpd).
        destruct (decide (j = i)) as [->|Hne]; [by left|].
        right. split; [lia|]. by exists d.
    + rewrite Hrest. split.
      * intros (Hlt & H). split; [lia|done].
      * intros (Hle & d & Hd & Hpd). split; [|by exists d].
        destruct (decide (j = i)) as [->|Hne]; [|lia].
        rewrite Nat.sub_diag in Hd. simpl in Hd. congruence.
Qed.

Lemma positions_head p decs i first rest :
  positions p i decs = first :: rest ->
  forall j, j ∈ positions p i decs -> first <= j.
Proof.
  revert i. induction decs as [|dec decs IH]; intros i; simpl; [done|].
  destruct (p dec).
  - intros [= <- <-] j [->|Hj]%elem_of_cons; [done|].
    apply elem_of_positions in Hj. lia.
  - apply IH.
Qed.

Lemma last_elem_of {A : Type} (l : list A) (x : A) : last l = Some x -> x ∈ l.
Proof.
  intros [l' ->]%last_Some. apply elem_of_app. right.
  by apply list_elem_of_singleton.
Qed.

Lemma positions_last p decs : forall i innermost,
  last (positions p i decs) = Some innermost ->
  forall j, j ∈ positions p i decs -> j <= innermost.
Proof.
  induction decs as [|dec decs IH]; intros i innermost; simpl; [done|].
  destruct (p dec).
  - destruct (positions p (S i) decs) as [|k ks] eqn:Hk.
    + intros [= <-] j ->%list_elem_of_singleton. done.
    + rewrite last_cons_cons. intros Hl j [->|Hj]%elem_of_cons.
      * assert (innermost ∈ k :: ks) as Hin by (by apply last_elem_of).
        rewrite <-Hk in Hin. apply elem_of_positions in Hin. lia.
      * rewrite <-Hk in *. by apply (IH (S i)).
  - apply IH.
Qed.

(** ** What the operations leave alone *)

Lemma setCollapsed_fst v dec m : (setCollapsed v dec m).1 = set_isCollapsed v dec.
Proof. unfold setCollapsed. simpl. by destruct (decorationIds dec). Qed.

Lemma set_isCollapsed_same dec : set_isCollapsed (_isCollapsed dec) dec = dec.
Proof. by destruct dec. Qed.

Lemma setCollapsed_at_fst i v decs m :
  (setCollapsed_at i v decs m).1
  = match decs !! i with
    | Some dec => <[i := set_isCollapsed v dec]> decs
    | None => decs
    end.
Proof.
  unfold setCollapsed_at. destruct (decs !! i) as [dec|]; [|done].
  pose proof (setCollapsed_fst v dec m) as H.
  destruct (setCollapsed v dec m) as [dec' m']. simpl in *. by subst.
Qed.

Lemma changeDecorations_decorations {A : Type}
    (callback : list CollapsibleRegion -> IModel host ->
                A * (list CollapsibleRegion * IModel host)) this m :
  getModel (editor this) = Some m ->
  decorations (changeDecorations callback this).2 = (callback (decorations this) m).2.1
  /\ getModel (editor (changeDecorations callback this).2)
     = Some (callback (decorations this) m).2.2
  /\ getPosition (editor (changeDecorations callback this).2)
     = getPosition (editor this)
  /\ calls (editor (changeDecorations callback this).2) = calls (editor this)
  /\ (changeDecorations callback this).1 = Some (callback (decorations this) m).1.
Proof.
  intros Hm. unfold changeDecorations. rewrite Hm.
  by destruct (callback (decorations this) m) as [a [decs m']].
Qed.

Lemma updateHiddenAreas_decorations focusLine this :
  decorations (updateHiddenAreas focusLine this).2 = decorations this
  /\ getModel (editor (updateHiddenAreas focusLine this).2) = getModel (editor this).
Proof.
  unfold updateHiddenAreas. destruct (hide _ _ _) as [h|message]; [|done].
  simpl. by destruct (updateCursorPosition h).
Qed.


(** ** Folding and unfolding at a line *)

(** The region at position [i] is in the given state and lies around the
    line. *)
Definition is_around (lineNumber : Z) (collapsed : bool) (m : IModel host)
    (decs : list CollapsibleRegion) (i : nat) : Prop :=
  exists dec decRange,
    decs !! i = Some dec /\ _isCollapsed dec = collapsed
    /\ range_in m dec = Some decRange
    /\ (IRange.startLineNumber decRange <= lineNumber
        <= IRange.endLineNumber decRange)%Z.

Lemma is_around_positions lineNumber collapsed m decs i :
  is_around lineNumber collapsed m decs i
  <-> i ∈ positions (around lineNumber collapsed m) 0 decs.
Proof.
  rewrite elem_of_positions, Nat.sub_0_r. unfold is_around, around. split.
  - intros (dec & decRange & Hd & Hc & Hr & Hl). split; [lia|].
    exists dec. split; [done|]. rewrite Hr, bool_decide_true by done. simpl.
    apply andb_true_iff. split; apply Z.leb_le; lia.
  - intros (_ & dec & Hd & [Hc Hr]%andb_true_iff).
    apply bool_decide_eq_true in Hc.
    destruct (range_in m dec) as [decRange|] eqn:Hrange; [|done].
    apply andb_true_iff in Hr as [H1%Z.leb_le H2%Z.leb_le].
    exists dec, decRange. split_and!; try done; lia.
Qed.

Lemma toggle_at collapsed i this m lineNumber :
  getModel (editor this) = Some m ->
  decorations
    (updateHiddenAreas lineNumber
       (changeDecorations
          (fun decs m => (tt, setCollapsed_at i collapsed decs m)) this).2).2
  = match decorations this !! i with
    | Some dec => <[i := set_isCollapsed collapsed dec]> (decorations this)
    | None => decorations this
    end.
Proof.
  intros Hm.
  destruct (updateHiddenAreas_decorations lineNumber
              (changeDecorations
                 (fun decs m => (tt, setCollapsed_at i collapsed decs m)) this).2)
    as [-> _].
  destruct (changeDecorations_decorations
              (fun decs m => (tt, setCollapsed_at i collapsed decs m)) this m Hm)
    as [-> _].
  cbn [fst snd]. apply setCollapsed_at_fst.
Qed.

(** With a model attached, [fold(lineNumber)] collapses one region: of the
    expanded regions whose range lies around the line, the last one in
    [decorations]; [unfold(lineNumber)] expands one region: of the
    collapsed regions around the line, the first one.  No other region is
    touched, and when there is no such region nothing happens at all. *)
Theorem fold_and_unfold_change_one_region (lineNumber : Z)
    (this : FoldingController) (m : IModel host) :
  getModel (editor this) = Some m ->
  ((forall j, ~ is_around lineNumber false m (decorations this) j) ->
     fold lineNumber this = (Return (), this))
  /\ (forall i dec,
        decorations this !! i = Some dec ->
        is_around lineNumber false m (decorations this) i ->
        (forall j, is_around lineNumber false m (decorations this) j -> j <= i) ->
        decorations (fold lineNumber this).2
        = <[i := set_isCollapsed true dec]> (decorations this))
  /\ ((forall j, ~ is_around lineNumber true m (decorations this) j) ->
        unfold lineNumber this = (Return (), this))
  /\ (forall i dec,
        decorations this !! i = Some dec ->
        is_around lineNumber true m (decorations this) i ->
        (forall j, is_around lineNumber true m (decorations this) j -> i <= j) ->
        decorations (unfold lineNumber this).2
        = <[i := set_isCollapsed false dec]> (decorations this)).
Proof.
  intros Hm. split_and!.
  - intros Hnone. unfold fold. rewrite (findRegions_positions _ _ _ m Hm).
    destruct (last _) as [k|] eqn:Hl; [|done].
    destruct (Hnone k). by apply is_around_positions, last_elem_of.
  - intros i dec Hd Hi Hmax. unfold fold.
    rewrite (findRegions_positions _ _ _ m Hm).
    apply is_around_positions in Hi.
    destruct (last _) as [k|] eqn:Hl.
    + assert (k = i) as ->.
      { pose proof (positions_last _ _ _ _ Hl i Hi).
        assert (k ∈ positions (around lineNumber false m) 0 (decorations this))
          as Hk by (by apply last_elem_of).
        apply is_around_positions, Hmax in Hk. lia. }
      rewrite (toggle_at true i this m _ Hm). by rewrite Hd.
    + apply last_None in Hl. rewrite Hl in Hi. by apply elem_of_nil in Hi.
  - intros Hnone. unfold unfold. rewrite (findRegions_positions _ _ _ m Hm).
    destruct (positions _ _ _) as [|k ks] eqn:Hp; [done|].
    destruct (Hnone k). apply is_around_positions. rewrite Hp.
    apply elem_of_cons. by left.
  - intros i dec Hd Hi Hmin. unfold unfold.
    rewrite (findRegions_positions _ _ _ m Hm).
    apply is_around_positions in Hi.
    destruct (positions _ _ _) as [|k ks] eqn:Hp.
    + by apply elem_of_nil in Hi.
    + assert (k = i) as ->.
      { pose proof (positions_head _ _ _ _ _ Hp i) as Hle.
        rewrite Hp in Hle. specialize (Hle Hi).
        assert (is_around lineNumber true m (decorations this) k) as Hk.
        { apply is_around_positions. rewrite Hp. apply elem_of_cons. by left. }
        apply Hmin in Hk. lia. }
      rewrite (toggle_at false i this m _ Hm). by rewrite Hd.
Qed.


(** ** Folding and unfolding all regions *)

Lemma changeAll_each_fst collapse decs : forall m,
  (changeAll_each collapse decs m).1 = set_isCollapsed collapse <$> decs.
Proof.
  induction decs as [|d rest IH]; intros m; simpl; [done|].
  case_bool_decide as Hc.
  - pose proof (setCollapsed_fst collapse d m) as H.
    destruct (setCollapsed collapse d m) as [d' m1]. simpl in H. subst.
    specialize (IH m1). destruct (changeAll_each collapse rest m1) as [rest' m2].
    simpl in *. by rewrite IH.
  - specialize (IH m). destruct (changeAll_each collapse rest m) as [rest' m2].
    simpl in *. rewrite IH. f_equal.
    destruct (decide (collapse = _isCollapsed d)) as [->|]; [|done].
    by rewrite set_isCollapsed_same.
Qed.

Lemma hide_expanded model decs h :
  Forall (fun dec => _isCollapsed dec = false) decs -> hide model decs h = Return h.
Proof.
  induction 1 as [|dec rest Hd _ IH]; simpl; [done|]. by rewrite Hd.
Qed.

(** With a model attached, [changeAll(collapse)] leaves every region in the
    state [collapse] and changes nothing else of the regions.  Unfolding
    all regions cannot fail: it tells the editor to hide nothing and to
    reveal the cursor where it is.  Without any region, [changeAll] does
    nothing. *)
Theorem changeAll_sets_every_region (collapse : bool) (this : FoldingController)
    (m : IModel host) :
  getModel (editor this) = Some m ->
  decorations (changeAll collapse this).2
  = set_isCollapsed collapse <$> decorations this
  /\ (decorations this <> [] ->
      (changeAll false this).1 = Return ()
      /\ calls (editor (changeAll false this).2)
         = calls (editor this)
           ++ [setHiddenAreas [];
               revealPositionInCenterIfOutsideViewport (getPosition (editor this))])
  /\ (decorations this = [] -> changeAll collapse this = (Return (), this)).
Proof.
  intros Hm. split_and!.
  - unfold changeAll. destruct (decorations this) as [|d rest] eqn:Hd; [done|].
    destruct (updateHiddenAreas_decorations None
                (changeDecorations
                   (fun decs m => (tt, changeAll_each collapse decs m)) this).2)
      as [-> _].
    destruct (changeDecorations_decorations
                (fun decs m => (tt, changeAll_each collapse decs m)) this m Hm)
      as [-> _].
    cbn [fst snd]. by rewrite changeAll_each_fst, Hd.
  - intros Hne. unfold changeAll.
    destruct (decorations this) as [|d rest] eqn:Hd; [done|].
    destruct (changeDecorations_decorations
                (fun decs m => (tt, changeAll_each false decs m)) this m Hm)
      as (Hdecs & Hmodel & Hpos & Hcalls & _).
    cbn [fst snd] in Hdecs. rewrite changeAll_each_fst, Hd in Hdecs.
    unfold updateHiddenAreas. rewrite Hdecs, hide_expanded.
    + cbn. by rewrite Hcalls, Hpos, <-app_assoc.
    + rewrite <-Hd. apply Forall_fmap, Forall_forall. by intros dec _.
  - intros Hd. unfold changeAll. by rewrite Hd.
Qed.

(** ** Hiding the collapsed regions *)

(** The lines that a collapsed region hides: all but its first. *)
Definition hidden_by (decRange : IRange.t) : IRange.t :=
  {| IRange.startLineNumber := IRange.startLineNumber decRange + 1;
     IRange.startColumn := 1;
     IRange.endLineNumber := IRange.endLineNumber decRange;
     IRange.endColumn := 1 |}.

(** The ranges of the collapsed regions, if each of them has one. *)
Definition collapsed_ranges (m : IModel host) (decs : list CollapsibleRegion)
    : option (list IRange.t) :=
  mapM (range_in m) (filter (fun dec => _isCollapsed dec) decs).

(** The cursor as the loop of [updateHiddenAreas] leaves it, and
    [updateCursorPosition]: a collapsed range that contains the cursor takes
    it to the end of the first line of the range. *)
Definition top (m : IModel host) (decRange : IRange.t) : IPosition :=
  {| lineNumber := IRange.startLineNumber decRange;
     column := getLineMaxColumn host m (IRange.startLineNumber decRange) |}.

Definition settle (m : IModel host) (cursor : IPosition * bool)
    (decRange : IRange.t) : IPosition * bool :=
  if Range_containsPosition host decRange cursor.1
  then (top m decRange, true) else cursor.

Definition settled (m : IModel host) (ranges : list IRange.t)
    (position : IPosition) : IPosition * bool :=
  foldl (settle m) (position, false) ranges.

Lemma hide_Some m decs : forall h,
  match collapsed_ranges m decs with
  | Some ranges =>
      exists h',
        hide (Some m) decs h = Return h'
        /\ hiddenAreas h' = hiddenAreas h ++ (hidden_by <$> ranges)
        /\ (cursorPosition h', updateCursorPosition h')
           = foldl (settle m) (cursorPosition h, updateCursorPosition h) ranges
  | None => hide (Some m) decs h = Throw TypeError
  end.
Proof.
  unfold collapsed_ranges.
  induction decs as [|dec rest IH]; intros h; simpl.
  - exists h. by rewrite app_nil_r.
  - destruct (_isCollapsed dec) eqn:Hc.
    + rewrite filter_cons_True by (by rewrite Hc). simpl.
      rewrite getDecorationRange_of_Some.
      destruct (range_in m dec) as [decRange|]; simpl; [|done].
      destruct (Range_containsPosition host decRange (cursorPosition h)) eqn:Hin.
      * match goal with |- context [hide _ rest ?h1] => specialize (IH h1) end.
        destruct (mapM _ _) as [ranges|]; simpl; [|done].
        destruct IH as (h' & -> & Hareas & Hcursor). exists h'.
        split_and!; [done| |].
        -- rewrite Hareas. simpl. by rewrite <-app_assoc.
        -- rewrite Hcursor. f_equal. unfold settle. simpl. by rewrite Hin.
      * match goal with |- context [hide _ rest ?h1] => specialize (IH h1) end.
        destruct (mapM _ _) as [ranges|]; simpl; [|done].
        destruct IH as (h' & -> & Hareas & Hcursor). exists h'.
        split_and!; [done| |].
        -- rewrite Hareas. simpl. by rewrite <-app_assoc.
        -- rewrite Hcursor. f_equal. unfold settle. simpl. by rewrite Hin.
    + rewrite filter_cons_False by (rewrite Hc; intros []). apply IH.
Qed.

(** Where the cursor can end: where it was, or on the first line of a
    range that took it. *)
Lemma settle_ends m ranges : forall cursor,
  foldl (settle m) cursor ranges = cursor
  \/ (foldl (settle m) cursor ranges).2 = true
     /\ exists decRange,
          decRange ∈ ranges
          /\ (foldl (settle m) cursor ranges).1 = top m decRange.
Proof.
  induction ranges as [|decRange rest IH]; intros cursor; simpl; [by left|].
  destruct (IH (settle m cursor decRange)) as [->|(Hm & r & Hr & Hat)].
  - unfold settle. destruct (Range_containsPosition host decRange cursor.1);
      [|by left].
    right. split; [done|]. exists decRange. split; [|done].
    apply elem_of_cons. by left.
  - right. split; [done|]. exists r. split; [|done]. apply elem_of_cons. by right.
Qed.

Lemma settle_outside m ranges : forall cursor,
  Forall (fun decRange => Range_containsPosition host decRange cursor.1 = false)
    ranges ->
  foldl (settle m) cursor ranges = cursor.
Proof.
  induction ranges as [|decRange rest IH]; intros cursor Hout; simpl; [done|].
  inversion Hout as [|? ? Hfirst Hrest]; subst.
  unfold settle at 2. rewrite Hfirst. by apply IH.
Qed.

(** With a model attached, [updateHiddenAreas] tells the editor to hide,
    for every collapsed region in the order of [decorations], the lines
    after the first line of its range up to its last line, and then to
    reveal a position: the focus line if one is given (and is not 0), and
    otherwise the cursor, where the loop over the collapsed ranges has left
    it.  Every collapsed range that contains the cursor, in that order,
    takes it to the end of the first line of the range; when that
    happened, the editor is first told the new position.  So the cursor
    stays where it was when no collapsed range contains it, and otherwise
    ends on the first line of a collapsed range.  When a collapsed region
    has no range in the model, a [TypeError] is thrown before any call on
    the editor.  The regions are left as they are. *)
Theorem updateHiddenAreas_hides_the_collapsed_regions (focusLine : option Z)
    (this : FoldingController) (m : IModel host) :
  getModel (editor this) = Some m ->
  decorations (updateHiddenAreas focusLine this).2 = decorations this
  /\ match collapsed_ranges m (decorations this) with
     | Some ranges =>
         let cursor := settled m ranges (getPosition (editor this)) in
         (updateHiddenAreas focusLine this).1 = Return ()
         /\ calls (editor (updateHiddenAreas focusLine this).2)
            = calls (editor this)
              ++ (if cursor.2 then [setPosition cursor.1] else [])
              ++ [setHiddenAreas (hidden_by <$> ranges);
                  revealPositionInCenterIfOutsideViewport
                    (if truthy_line focusLine
                     then {| lineNumber := default 0%Z focusLine; column := 1 |}
                     else cursor.1)]
         /\ getPosition (editor (updateHiddenAreas focusLine this).2) = cursor.1
         /\ (cursor.2 = false -> cursor.1 = getPosition (editor this))
         /\ (cursor.2 = true ->
             exists decRange, decRange ∈ ranges /\ cursor.1 = top m decRange)
         /\ (Forall (fun decRange =>
                       Range_containsPosition host decRange
                         (getPosition (editor this)) = false) ranges ->
             cursor = (getPosition (editor this), false))
     | None => updateHiddenAreas focusLine this = (Throw TypeError, this)
     end.
Proof.
  intros Hm. split; [apply updateHiddenAreas_decorations|].
  unfold updateHiddenAreas. rewrite Hm.
  pose proof (hide_Some m (decorations this)
                {| hiddenAreas := []; cursorPosition := getPosition (editor this);
                   updateCursorPosition := false |}) as H.
  destruct (collapsed_ranges m (decorations this)) as [ranges|]; [|by rewrite H].
  destruct H as (h' & -> & Hareas & Hcursor). simpl in Hareas, Hcursor.
  fold (settled m ranges (getPosition (editor this))) in Hcursor.
  pose proof (settle_ends m ranges (getPosition (editor this), false)) as Hends.
  fold (settled m ranges (getPosition (editor this))) in Hends.
  assert (Forall (fun decRange =>
                    Range_containsPosition host decRange
                      (getPosition (editor this)) = false) ranges ->
          settled m ranges (getPosition (editor this))
          = (getPosition (editor this), false)) as Hout.
  { intros Hout. by apply settle_outside. }
  destruct (settled m ranges (getPosition (editor this))) as [position moved].
  injection Hcursor as Hat Hmoved. cbn [fst snd] in *.
  rewrite Hareas, Hat, Hmoved.
  destruct Hends as [[= -> ->]|(-> & decRange & Hin & ->)]; simpl.
  - split_and!; try done. by rewrite <-app_assoc.
  - split_and!; try done; [by rewrite <-!app_assoc|by exists decRange].
Qed.


(** ** When the options of a decoration do not move it *)

Section OptionsKeepRanges.

(** Changing the options of a decoration leaves the range of every
    decoration as it is. *)
Hypothesis options_keep_ranges : forall id options m decoration,
  getDecorationRange host (changeDecorationOptions host id options m) decoration
  = getDecorationRange host m decoration.

Lemma setCollapsed_range_in v dec m dec' :
  range_in (setCollapsed v dec m).2 dec' = range_in m dec'.
Proof.
  unfold setCollapsed, range_in. simpl.
  destruct (decorationIds dec); simpl; [done|].
  destruct (decorationIds dec'); [done|]. apply options_keep_ranges.
Qed.

Lemma range_in_set_isCollapsed v m dec :
  range_in m (set_isCollapsed v dec) = range_in m dec.
Proof. done. Qed.

Lemma setCollapsed_at_range_in i v decs m dec' :
  range_in (setCollapsed_at i v decs m).2 dec' = range_in m dec'.
Proof.
  unfold setCollapsed_at. destruct (decs !! i) as [dec|]; [|done].
  pose proof (setCollapsed_range_in v dec m dec') as H.
  by destruct (setCollapsed v dec m).
Qed.

(** When no collapsed region lies around a line, folding at the line and
    then unfolding at it gives back the regions as they were.  (Folding
    collapses the last expanded region around the line; unfolding expands
    the first collapsed one, which is then the same region.) *)
Theorem fold_then_unfold_restores_the_regions (lineNumber : Z)
    (this : FoldingController) (m : IModel host) :
  getModel (editor this) = Some m ->
  (forall j, ~ is_around lineNumber true m (decorations this) j) ->
  decorations (unfold lineNumber (fold lineNumber this).2).2 = decorations this.
Proof.
  intros Hm Hnone.
  assert (unfold lineNumber this = (Return (), this)) as Hidle.
  { unfold unfold. rewrite (findRegions_positions _ _ _ m Hm).
    destruct (positions _ _ _) as [|k ks] eqn:Hp; [done|].
    destruct (Hnone k). apply is_around_positions. rewrite Hp.
    apply elem_of_cons. by left. }
  unfold fold at 1. rewrite (findRegions_positions _ _ _ m Hm).
  destruct (last _) as [i|] eqn:Hl; [|cbn [snd]; by rewrite Hidle].
  pose proof (last_elem_of _ _ Hl) as Hi.
  apply is_around_positions in Hi as (dec & decRange & Hd & Hc & Hr & Hline).
  set (this1 := (changeDecorations
                   (fun decs m => (tt, setCollapsed_at i true decs m)) this).2).
  destruct (changeDecorations_decorations
              (fun decs m => (tt, setCollapsed_at i true decs m)) this m Hm)
    as (Hdecs1 & Hmodel1 & _). fold this1 in Hdecs1, Hmodel1.
  cbn [fst snd] in Hdecs1, Hmodel1.
  rewrite setCollapsed_at_fst, Hd in Hdecs1.
  set (m1 := (setCollapsed_at i true (decorations this) m).2) in *.
  destruct (updateHiddenAreas_decorations (Some lineNumber) this1) as [Hdecs2 Hmodel2].
  set (this2 := (updateHiddenAreas (Some lineNumber) this1).2) in *.
  rewrite Hdecs1 in Hdecs2. rewrite Hmodel1 in Hmodel2.
  assert (forall dec', range_in m1 dec' = range_in m dec') as Hranges.
  { intros dec'. apply setCollapsed_at_range_in. }
  assert (forall j, is_around lineNumber true m1 (decorations this2) j <-> j = i)
    as Honly.
  { intros j. rewrite Hdecs2. unfold is_around. split.
    - intros (d & r & Hj & Hcj & Hrj & Hlj).
      destruct (decide (j = i)) as [|Hne]; [done|].
      rewrite list_lookup_insert_ne in Hj by done.
      destruct (Hnone j). exists d, r. by rewrite <-Hranges.
    - intros ->. exists (set_isCollapsed true dec), decRange.
      rewrite list_lookup_insert_eq by (by eapply lookup_lt_Some).
      by rewrite Hranges. }
  unfold unfold. rewrite (findRegions_positions _ _ _ m1 Hmodel2).
  destruct (positions (around lineNumber true m1) 0 (decorations this2))
    as [|k ks] eqn:Hp.
  - assert (i ∈ positions (around lineNumber true m1) 0 (decorations this2)) as Hin
      by (by apply is_around_positions, Honly).
    rewrite Hp in Hin. by apply elem_of_nil in Hin.
  - assert (k = i) as ->.
    { apply Honly, is_around_positions. rewrite Hp. apply elem_of_cons. by left. }
    rewrite (toggle_at false i this2 m1 _ Hmodel2), Hdecs2.
    rewrite list_lookup_insert_eq by (by eapply lookup_lt_Some).
    rewrite list_insert_insert_eq.
    apply list_insert_id. rewrite Hd. f_equal.
    destruct dec. simpl in *. by subst.
Qed.

(** The cursor's line is hidden by a region. *)
Definition hides (lineNumber : Z) (m : IModel host) (dec : CollapsibleRegion)
    : bool :=
  _isCollapsed dec
  && match range_in m dec with
     | Some decRange =>
         (IRange.startLineNumber decRange <? lineNumber)%Z
         && (lineNumber <=? IRange.endLineNumber decRange)%Z
     | None => false
     end.

Definition revealed (lineNumber : Z) (m : IModel host) (dec : CollapsibleRegion)
    : CollapsibleRegion :=
  if hides lineNumber m dec then set_isCollapsed false dec else dec.

Lemma hides_revealed lineNumber m dec :
  hides lineNumber m (revealed lineNumber m dec) = false.
Proof. unfold revealed. by destruct (hides lineNumber m dec) eqn:Hh. Qed.

Lemma revealCursor_each_spec lineNumber m decs : forall m0 hasChanges,
  (forall dec, range_in m0 dec = range_in m dec) ->
  let result := revealCursor_each lineNumber decs m0 hasChanges in
  result.2.1 = revealed lineNumber m <$> decs
  /\ (forall dec, range_in result.2.2 dec = range_in m dec)
  /\ result.1 = hasChanges || existsb (hides lineNumber m) decs
  /\ (existsb (hides lineNumber m) decs = false -> result.2.2 = m0).
Proof.
  induction decs as [|dec rest IH]; intros m0 hasChanges Hm0.
  - simpl. split_and!; try done. by rewrite orb_false_r.
  - cbn [revealCursor_each existsb]. rewrite fmap_cons.
    rewrite getDecorationRange_of_Some, Hm0. unfold revealed at 1.
    destruct (hides lineNumber m dec) eqn:Hh.
    + unfold hides in Hh. apply andb_true_iff in Hh as [Hc Hr]. rewrite Hc.
      destruct (range_in m dec) as [decRange|]; [|done]. rewrite Hr.
      pose proof (setCollapsed_fst false dec m0) as Hfst.
      pose proof (fun dec' => setCollapsed_range_in false dec m0 dec') as Hsnd.
      destruct (setCollapsed false dec m0) as [d m1]. simpl in Hfst, Hsnd.
      subst d.
      destruct (IH m1 true) as (H1 & H2 & H3 & H4).
      { intros dec'. by rewrite Hsnd. }
      destruct (revealCursor_each lineNumber rest m1 true) as [hc [rest' m2]].
      simpl in *. subst. split_and!; try done. by rewrite orb_true_r.
    + assert ((if _isCollapsed dec
               then match Return (range_in m dec) with
                    | Return (Some decRange) =>
                        if (IRange.startLineNumber decRange <? lineNumber)%Z
                           && (lineNumber <=? IRange.endLineNumber decRange)%Z
                        then let '(d, m') := setCollapsed false dec m0 in (d, m', true)
                        else (dec, m0, hasChanges)
                    | _ => (dec, m0, hasChanges)
                    end
               else (dec, m0, hasChanges)) = (dec, m0, hasChanges)) as ->.
      { unfold hides in Hh. destruct (_isCollapsed dec); [|done].
        destruct (range_in m dec) as [decRange|]; [|done].
        simpl in Hh. by rewrite Hh. }
      destruct (IH m0 hasChanges Hm0) as (H1 & H2 & H3 & H4).
      destruct (revealCursor_each lineNumber rest m0 hasChanges)
        as [hc [rest' m2]].
      simpl in *. subst. split_and!; done.
Qed.

(** With a model attached, [revealCursor] expands exactly the collapsed
    regions that hide the line of the cursor (the line lies in their range
    after its first line) and leaves the other regions as they are;
    afterwards no collapsed region hides the cursor.  When no region hid
    it, the controller and the editor are left untouched. *)
Theorem revealCursor_leaves_the_cursor_visible (this : FoldingController)
    (m : IModel host) :
  getModel (editor this) = Some m ->
  let cursor := lineNumber (getPosition (editor this)) in
  decorations (revealCursor this).2 = revealed cursor m <$> decorations this
  /\ (forall dec m',
        dec ∈ decorations (revealCursor this).2 ->
        getModel (editor (revealCursor this).2) = Some m' ->
        hides cursor m' dec = false)
  /\ (existsb (hides cursor m) (decorations this) = false ->
      (revealCursor this).1 = Return ()
      /\ decorations (revealCursor this).2 = decorations this
      /\ calls (editor (revealCursor this).2) = calls (editor this)).
Proof.
  intros Hm cursor.
  destruct (revealCursor_each_spec cursor m (decorations this) m false)
    as (Hdecs & Hranges & Hchanged & Hsame); [done|].
  destruct (changeDecorations_decorations
              (fun decs m => revealCursor_each cursor decs m false) this m Hm)
    as (Hd1 & Hm1 & Hp1 & Hc1 & Hr1).
  assert (decorations (revealCursor this).2 = revealed cursor m <$> decorations this
          /\ getModel (editor (revealCursor this).2)
             = Some (revealCursor_each cursor (decorations this) m false).2.2
          /\ (existsb (hides cursor m) (decorations this) = false ->
              (revealCursor this).1 = Return ()
              /\ calls (editor (revealCursor this).2) = calls (editor this)))
    as (Hfinal & Hmodel & Hidle).
  { unfold revealCursor. rewrite Hm. fold cursor.
    destruct (changeDecorations _ this) as [hasChanges this1]. simpl in *.
    subst hasChanges. simpl. rewrite Hchanged. simpl.
    destruct (existsb (hides cursor m) (decorations this)).
    - destruct (updateHiddenAreas_decorations (Some cursor) this1) as [-> ->].
      rewrite Hd1, Hm1. split_and!; try done.
    - simpl. rewrite Hd1, Hm1. split_and!; try done. }
  split_and!.
  - done.
  - intros dec m' Hin Hm'. rewrite Hmodel in Hm'. injection Hm' as <-.
    rewrite Hfinal in Hin. apply list_elem_of_fmap in Hin as (dec0 & -> & _).
    unfold hides. rewrite Hranges. apply hides_revealed.
  - intros Hnone. destruct (Hidle Hnone) as [? ?]. split_and!; try done.
    rewrite Hfinal. clear -Hnone.
    induction (decorations this) as [|dec rest IH]; [done|].
    simpl in *. apply orb_false_iff in Hnone as [Hd Hrest].
    unfold revealed at 1. rewrite Hd. f_equal. by apply IH.
Qed.

End OptionsKeepRanges.


(** ** What folding leaves alone *)

(** Two regions that differ at most in being collapsed. *)
Definition same_region (dec dec' : CollapsibleRegion) : Prop :=
  decorationIds dec' = decorationIds dec
  /\ _indent dec' = _indent dec
  /\ _lastRange dec' = _lastRange dec.

Definition same_regions (decs decs' : list CollapsibleRegion) : Prop :=
  Forall2 same_region decs decs'.

Lemma same_regions_refl decs : same_regions decs decs.
Proof. apply Forall_Forall2_diag, Forall_forall. by intros dec _. Qed.

Lemma same_regions_trans decs1 decs2 decs3 :
  same_regions decs1 decs2 -> same_regions decs2 decs3 -> same_regions decs1 decs3.
Proof.
  intros H12. revert decs3.
  induction H12 as [|d1 d2 r1 r2 (Hi & Hn & Hl) _ IH]; intros decs3 H23.
  - done.
  - inversion H23 as [|? d3 ? r3 (Hi' & Hn' & Hl') Hr]; subst.
    constructor; [|by apply IH]. split_and!; congruence.
Qed.

Lemma same_regions_fmap (f : CollapsibleRegion -> CollapsibleRegion) decs :
  (forall dec, same_region dec (f dec)) -> same_regions decs (f <$> decs).
Proof.
  intros Hf. induction decs as [|dec rest IH]; simpl; [constructor|].
  by constructor.
Qed.

Lemma setCollapsed_at_same i v decs m :
  same_regions decs (setCollapsed_at i v decs m).1.
Proof.
  rewrite setCollapsed_at_fst. destruct (decs !! i) as [dec|] eqn:Hd;
    [|apply same_regions_refl].
  rewrite <-(list_insert_id decs i dec Hd) at 1.
  apply Forall2_insert; [apply same_regions_refl|done].
Qed.

Lemma revealCursor_each_same lineNumber decs : forall m hasChanges,
  same_regions decs (revealCursor_each lineNumber decs m hasChanges).2.1.
Proof.
  induction decs as [|dec rest IH]; intros m hasChanges; simpl; [constructor|].
  assert (exists dec' m1 hasChanges1,
            (if _isCollapsed dec then
               match getDecorationRange_of dec (Some m) with
               | Return (Some decRange) =>
                   if (IRange.startLineNumber decRange <? lineNumber)%Z
                      && (lineNumber <=? IRange.endLineNumber decRange)%Z
                   then let '(d, m') := setCollapsed false dec m in (d, m', true)
                   else (dec, m, hasChanges)
               | _ => (dec, m, hasChanges)
               end
             else (dec, m, hasChanges)) = (dec', m1, hasChanges1)
            /\ same_region dec dec') as (dec' & m1 & hasChanges1 & -> & Hsame).
  { destruct (_isCollapsed dec); [|by eexists _, _, _].
    destruct (getDecorationRange_of dec (Some m)) as [[decRange|]|];
      try (by eexists _, _, _).
    destruct (_ && _); [|by eexists _, _, _].
    pose proof (setCollapsed_fst false dec m) as H.
    destruct (setCollapsed false dec m) as [d m']. simpl in H. subst d.
    by eexists _, _, _. }
  specialize (IH m1 hasChanges1).
  destruct (revealCursor_each lineNumber rest m1 hasChanges1) as [hc [rest' m2]].
  by constructor.
Qed.

Lemma changeDecorations_same {A : Type}
    (callback : list CollapsibleRegion -> IModel host ->
                A * (list CollapsibleRegion * IModel host)) this :
  (forall decs m, same_regions decs (callback decs m).2.1) ->
  same_regions (decorations this) (decorations (changeDecorations callback this).2).
Proof.
  intros Hc. unfold changeDecorations.
  destruct (getModel (editor this)) as [m|]; [|apply same_regions_refl].
  specialize (Hc (decorations this) m).
  by destruct (callback (decorations this) m) as [a [decs m']].
Qed.

Lemma updateHiddenAreas_same focusLine this this' :
  same_regions (decorations this) (decorations this') ->
  same_regions (decorations this)
    (decorations (updateHiddenAreas focusLine this').2).
Proof. by destruct (updateHiddenAreas_decorations focusLine this') as [-> _]. Qed.

(** The commands that fold and unfold. *)
Inductive Command :=
| command_fold (lineNumber : Z)
| command_unfold (lineNumber : Z)
| command_changeAll (collapse : bool)
| command_revealCursor
| command_updateHiddenAreas (focusLine : option Z).

Definition run_command (command : Command) (this : FoldingController)
    : FoldingController :=
  match command with
  | command_fold lineNumber => (fold lineNumber this).2
  | command_unfold lineNumber => (unfold lineNumber this).2
  | command_changeAll collapse => (changeAll collapse this).2
  | command_revealCursor => (revealCursor this).2
  | command_updateHiddenAreas focusLine => (updateHiddenAreas focusLine this).2
  end.

Lemma run_command_same command this :
  same_regions (decorations this) (decorations (run_command command this)).
Proof.
  destruct command as [lineNumber|lineNumber|collapse| |focusLine]; simpl.
  - unfold fold. destruct (findRegions lineNumber false this) as [surrounding|];
      [|apply same_regions_refl].
    destruct (last surrounding) as [i|]; [|apply same_regions_refl].
    apply updateHiddenAreas_same, changeDecorations_same.
    intros decs m. apply setCollapsed_at_same.
  - unfold unfold. destruct (findRegions lineNumber true this) as [[|i ?]|];
      try apply same_regions_refl.
    apply updateHiddenAreas_same, changeDecorations_same.
    intros decs m. apply setCollapsed_at_same.
  - unfold changeAll. destruct (decorations this) as [|d rest] eqn:Hd;
      [simpl; rewrite Hd; apply same_regions_refl|].
    rewrite <-Hd. apply updateHiddenAreas_same, changeDecorations_same.
    intros decs m. cbn [snd fst]. rewrite changeAll_each_fst.
    by apply same_regions_fmap.
  - unfold revealCursor. destruct (getModel (editor this)) as [m|];
      [|apply same_regions_refl].
    pose proof (changeDecorations_same
                  (fun decs m =>
                     revealCursor_each (lineNumber (getPosition (editor this)))
                       decs m false) this
                  (fun decs m => revealCursor_each_same _ decs m false)) as H.
    destruct (changeDecorations _ this) as [hasChanges this1]. simpl in H.
    destruct (default false hasChanges); [|done].
    by apply updateHiddenAreas_same.
  - apply updateHiddenAreas_same, same_regions_refl.
Qed.

(** Folding and unfolding never add, remove or move a region: after any
    sequence of [fold], [unfold], [changeAll], [revealCursor] and
    [updateHiddenAreas], with or without a model and whether or not a call
    throws, the controller has the same regions in the same order, each
    with the decorations, the indent and the last range it had; only
    whether a region is collapsed can have changed. *)
Theorem folding_only_changes_the_collapsed_state (commands : list Command)
    (this : FoldingController) :
  let this' := foldl (fun this command => run_command command this) this commands in
  length (decorations this') = length (decorations this)
  /\ forall i dec',
       decorations this' !! i = Some dec' ->
       exists dec,
         decorations this !! i = Some dec
         /\ decorationIds dec' = decorationIds dec
         /\ _indent dec' = _indent dec
         /\ _lastRange dec' = _lastRange dec.
Proof.
  intros this'.
  assert (same_regions (decorations this) (decorations this')) as Hsame.
  { unfold this'. clear this'. revert this.
    induction commands as [|command rest IH]; intros this; simpl;
      [apply same_regions_refl|].
    eapply same_regions_trans; [apply run_command_same|apply IH]. }
  split; [symmetry; by eapply Forall2_length|].
  intros i dec' Hi.
  destruct (Forall2_lookup_r _ _ _ _ _ Hsame Hi) as (dec & Hdec & H).
  by exists dec.
Qed.

(** ** One region for every range *)

(** A region stands for a range: it has its lines and its indent. *)
Definition tracks (dec : CollapsibleRegion) (range : IFoldingRange.t) : Prop :=
  startLineNumber dec = Some (IFoldingRange.startLineNumber range)
  /\ endLineNumber dec = Some (IFoldingRange.endLineNumber range)
  /\ _indent dec = IFoldingRange.indent range.

(** ... and is collapsed as the range says, or as a decoration was before. *)
Definition stands_for (olds : list CollapsibleRegion) (dec : CollapsibleRegion)
    (range : IFoldingRange.t) : Prop :=
  tracks dec range
  /\ (_isCollapsed dec = default false (IFoldingRange.isCollapsed range)
      \/ exists old, old ∈ olds /\ _isCollapsed dec = _isCollapsed old).

Lemma update_fst newRange dec m :
  _lastRange (update newRange dec m).1 = Some newRange
  /\ _indent (update newRange dec m).1 = IFoldingRange.indent newRange
  /\ _isCollapsed (update newRange dec m).1
     = default false (IFoldingRange.isCollapsed newRange).
Proof. unfold update. by destruct (deltaDecorations _ _ _ _). Qed.

(** The regions that a step adds stand for the ranges that it takes. *)
Definition adds (olds : list CollapsibleRegion) (st st' : Applying)
    (taken : list IFoldingRange.t) : Prop :=
  exists added,
    newDecorations st' = newDecorations st ++ added
    /\ Forall2 (stands_for olds) added taken.

Lemma adds_nothing olds st st' :
  newDecorations st' = newDecorations st -> adds olds st st' [].
Proof. intros H. exists []. by rewrite app_nil_r. Qed.

Lemma adds_trans olds st1 st2 st3 taken taken' :
  adds olds st1 st2 taken -> adds olds st2 st3 taken' ->
  adds olds st1 st3 (taken ++ taken').
Proof.
  intros (a1 & H1 & F1) (a2 & H2 & F2). exists (a1 ++ a2).
  split; [by rewrite H2, H1, app_assoc|]. by apply Forall2_app.
Qed.

Lemma push_new_adds olds region st : adds olds st (push_new region st) [region].
Proof.
  unfold push_new, new_CollapsibleRegion.
  match goal with |- context [update region ?d ?m] =>
    pose proof (update_fst region d m) as (H1 & H2 & H3);
    destruct (update region d m) as [dec m']
  end.
  simpl in *. exists [dec]. split; [done|].
  constructor; [|done]. unfold stands_for, tracks, startLineNumber, endLineNumber.
  rewrite H1. simpl. split_and!; try done. by left.
Qed.

Lemma keep_adds olds dec currRange st :
  dec ∈ olds -> adds olds st (keep dec currRange st) [currRange].
Proof.
  intros Hold. unfold keep.
  match goal with |- context [update ?r dec ?m] =>
    pose proof (update_fst r dec m) as (H1 & H2 & H3);
    destruct (update r dec m) as [dec' m']
  end.
  simpl in *. exists [dec']. split; [done|].
  constructor; [|done]. unfold stands_for, tracks, startLineNumber, endLineNumber.
  rewrite H1. simpl. split_and!; try done. right. by exists dec.
Qed.

(** Nothing collapsed comes in: no range is collapsed, and no old
    decoration is. *)
Definition expanded_ranges (regions : list IFoldingRange.t) : Prop :=
  Forall (fun region => default false (IFoldingRange.isCollapsed region) = false)
    regions.

Definition expanded_decorations (decs : list CollapsibleRegion) : Prop :=
  Forall (fun dec => _isCollapsed dec = false) decs.

Lemma stands_for_expanded olds decs ranges :
  Forall2 (stands_for olds) decs ranges ->
  expanded_ranges ranges -> expanded_decorations olds ->
  expanded_decorations decs.
Proof.
  intros Hf Hex Hed. unfold expanded_decorations in *.
  rewrite Forall_forall in Hed.
  induction Hf as [|dec range decs' ranges' [_ Hs] _ IH]; [done|].
  inversion Hex as [|? ? Hrange Hrest]; subst.
  constructor; [|by apply IH].
  destruct Hs as [->|(old & Hold & ->)]; [done|by apply Hed].
Qed.

Lemma add_before_spec olds line regions : forall st,
  exists taken,
    regions = taken ++ (add_before line regions st).1
    /\ adds olds st (add_before line regions st).2 taken
    /\ (expanded_ranges regions ->
        updateHiddenRegions (add_before line regions st).2 = updateHiddenRegions st)
    /\ match (add_before line regions st).1 with
       | region :: _ => (line <= IFoldingRange.startLineNumber region)%Z
       | [] => True
       end.
Proof.
  induction regions as [|region rest IH]; intros st; simpl.
  - exists []. split_and!; try done. by apply adds_nothing.
  - destruct (IFoldingRange.startLineNumber region <? line)%Z eqn:Hlt.
    + destruct (IH (push_new region st)) as (taken & Hr & Ha & Hq & Hhead).
      exists (region :: taken). split_and!.
      * simpl. by rewrite <-Hr.
      * apply (adds_trans olds st (push_new region st) _ [region] taken); [|done].
        apply push_new_adds.
      * intros Hex. inversion Hex as [|? ? Hregion Hrest]; subst.
        rewrite (Hq Hrest). unfold push_new.
        destruct (new_CollapsibleRegion region (accessor st)). simpl.
        by rewrite Hregion, orb_false_r.
      * done.
    + exists []. split_and!; try done; [by apply adds_nothing|].
      simpl. apply Z.ltb_ge in Hlt. lia.
Qed.

Lemma merge_spec olds decs : forall regions st,
  (forall dec, dec ∈ decs -> dec ∈ olds) ->
  exists taken skipped,
    regions = taken ++ (merge decs regions st).1.2
    /\ decs = skipped ++ (merge decs regions st).1.1
    /\ adds olds st (merge decs regions st).2 taken
    /\ (expanded_ranges regions -> expanded_decorations decs ->
        updateHiddenRegions (merge decs regions st).2 = updateHiddenRegions st)
    /\ ((merge decs regions st).1.1 = [] \/ (merge decs regions st).1.2 = []).
Proof.
  induction decs as [|dec decs' IH]; intros regions st Holds.
  - simpl. exists [], []. split_and!; try done; [by apply adds_nothing|by left].
  - assert (forall d, d ∈ decs' -> d ∈ olds) as Holds'.
    { intros d Hd. apply Holds, elem_of_cons. by right. }
    assert (dec ∈ olds) as Hdec by (apply Holds, elem_of_cons; by left).
    destruct regions as [|region0 regions0].
    { simpl. exists [], []. split_and!; try done; [by apply adds_nothing|by right]. }
    cbn [merge]. set (regions := region0 :: regions0).
    destruct (range_in (accessor st) dec) as [decRange|].
    + destruct (add_before_spec olds (IRange.startLineNumber decRange) regions st)
        as (taken0 & Hr0 & Ha0 & Hq0 & Hhead).
      destruct (add_before (IRange.startLineNumber decRange) regions st)
        as [regions1 st1]. cbn [fst snd] in *.
      destruct regions1 as [|currRange regions2].
      * exists taken0, []. split_and!; try done; [|by right].
        intros Hex _. by apply Hq0.
      * destruct (IRange.startLineNumber decRange
                  <? IFoldingRange.startLineNumber currRange)%Z eqn:Hlt.
        -- destruct (IH (currRange :: regions2) (dispose_old dec st1) Holds')
             as (taken & skipped & Hr & Hd & Ha & Hq & Hend).
           exists (taken0 ++ taken), (dec :: skipped). split_and!.
           ++ by rewrite <-app_assoc, <-Hr.
           ++ simpl. by rewrite <-Hd.
           ++ apply (adds_trans olds st st1 _ taken0 taken); [done|].
              apply (adds_trans olds st1 (dispose_old dec st1) _ [] taken);
                [by apply adds_nothing|done].
           ++ intros Hex0 Hed. inversion Hed as [|? ? Hc Hrest]; subst.
              pose proof Hex0 as Hex.
              rewrite Hr0 in Hex. apply Forall_app in Hex as [_ Hex].
              rewrite (Hq Hex Hrest). simpl. by rewrite Hc, orb_false_r, Hq0.
           ++ done.
        -- destruct (IRange.startLineNumber decRange
                     =? IFoldingRange.startLineNumber currRange)%Z eqn:Heq.
           ++ destruct (IH regions2 (keep dec currRange st1) Holds')
                as (taken & skipped & Hr & Hd & Ha & Hq & Hend).
              exists (taken0 ++ currRange :: taken), (dec :: skipped). split_and!.
              ** rewrite Hr0, Hr at 1. by rewrite <-app_assoc.
              ** simpl. by rewrite <-Hd.
              ** apply (adds_trans olds st st1 _ taken0 (currRange :: taken));
                   [done|].
                 apply (adds_trans olds st1 (keep dec currRange st1) _
                          [currRange] taken); [by apply keep_adds|done].
              ** intros Hex0 Hed. inversion Hed as [|? ? Hc Hrest]; subst.
                 pose proof Hex0 as Hex.
                 rewrite Hr0 in Hex. apply Forall_app in Hex as [_ Hex].
                 inversion Hex as [|? ? _ Hex2]; subst.
                 rewrite (Hq Hex2 Hrest). unfold keep.
                 destruct (update _ dec (accessor st1)). simpl.
                 rewrite Hc. simpl. rewrite orb_false_r. by apply Hq0.
              ** done.
           ++ apply Z.ltb_ge in Hlt. apply Z.eqb_neq in Heq. lia.
    + destruct (IH regions (dispose_old dec st) Holds')
        as (taken & skipped & Hr & Hd & Ha & Hq & Hend).
      exists taken, (dec :: skipped). split_and!.
      * done.
      * simpl. by rewrite <-Hd.
      * apply (adds_trans olds st (dispose_old dec st) _ [] taken);
          [by apply adds_nothing|done].
      * intros Hex Hed. inversion Hed as [|? ? Hc Hrest]; subst.
        rewrite (Hq Hex Hrest). simpl. by rewrite Hc, orb_false_r.
      * done.
Qed.

(** The first loop of [applyRegions] ends with no decoration or no range
    left: its last branch is never taken. *)
Lemma merge_ends decs regions st :
  (merge decs regions st).1.1 = [] \/ (merge decs regions st).1.2 = [].
Proof.
  destruct (merge_spec decs decs regions st) as (? & ? & _ & _ & _ & _ & H);
    done.
Qed.

Lemma dispose_rest_spec olds decs : forall st,
  adds olds st (foldl (fun st dec => dispose_old dec st) st decs) []
  /\ (expanded_decorations decs ->
      updateHiddenRegions (foldl (fun st dec => dispose_old dec st) st decs)
      = updateHiddenRegions st).
Proof.
  induction decs as [|dec rest IH]; intros st; simpl.
  - split; [by apply adds_nothing|done].
  - destruct (IH (dispose_old dec st)) as [Ha Hq]. split.
    + apply (adds_trans olds st (dispose_old dec st) _ [] []);
        [by apply adds_nothing|done].
    + intros Hed. inversion Hed as [|? ? Hc Hrest]; subst.
      rewrite (Hq Hrest). simpl. by rewrite Hc, orb_false_r.
Qed.

Lemma push_rest_spec olds regions : forall st,
  adds olds st (foldl (fun st region => push_new region st) st regions) regions
  /\ (expanded_ranges regions ->
      updateHiddenRegions (foldl (fun st region => push_new region st) st regions)
      = updateHiddenRegions st).
Proof.
  induction regions as [|region rest IH]; intros st; simpl.
  - split; [by apply adds_nothing|done].
  - destruct (IH (push_new region st)) as [Ha Hq]. split.
    + apply (adds_trans olds st (push_new region st) _ [region] rest);
        [apply push_new_adds|done].
    + intros Hex. inversion Hex as [|? ? Hregion Hrest]; subst.
      rewrite (Hq Hrest). unfold push_new.
      destruct (new_CollapsibleRegion region (accessor st)). simpl.
      by rewrite Hregion, orb_false_r.
Qed.

Lemma applyRegions_callback_spec regions decs m :
  Forall2 (stands_for decs) (applyRegions_callback regions decs m).2.1 regions
  /\ (expanded_ranges regions -> expanded_decorations decs ->
      (applyRegions_callback regions decs m).1 = false).
Proof.
  unfold applyRegions_callback.
  set (st := {| newDecorations := []; updateHiddenRegions := false; accessor := m |}).
  destruct (merge_spec decs decs regions st) as
    (taken & skipped & Hr & Hd & Ha & Hq & _); [done|].
  destruct (merge decs regions st) as [[decs1 regions1] st1]. cbn [fst snd] in *.
  destruct (dispose_rest_spec decs decs1 st1) as [Ha2 Hq2].
  destruct (push_rest_spec decs regions1
              (foldl (fun st dec => dispose_old dec st) st1 decs1)) as [Ha3 Hq3].
  cbn [fst snd]. split.
  - pose proof (adds_trans _ _ _ _ _ _ Ha
                  (adds_trans _ _ _ _ _ _ Ha2 Ha3)) as (added & Hadded & Hf).
    simpl in Hadded, Hf. rewrite Hadded, Hr. done.
  - intros Hex Hed. rewrite Hq3, Hq2, Hq; try done.
    + rewrite Hd in Hed. by apply Forall_app in Hed as [_ ?].
    + rewrite Hr in Hex. by apply Forall_app in Hex as [_ ?].
Qed.

(** With a model attached, [applyRegions] leaves one region for every
    range (of the ranges given, as [limitByIndent] cuts them down and
    [sort] puts them), in that order: the region has the lines and the
    indent of its range, and is collapsed as its range says or as one of
    the decorations was before.  When no range is collapsed and no
    decoration was, no region is collapsed afterwards and the editor is not
    called. *)
Theorem applyRegions_keeps_one_region_per_range (regions : list IFoldingRange.t)
    (this : FoldingController) (m : IModel host) :
  getModel (editor this) = Some m ->
  let ranges := sort host (limitByIndent host regions 10000) in
  Forall2 (stands_for (decorations this))
    (decorations (applyRegions regions this).2) ranges
  /\ (expanded_ranges ranges -> expanded_decorations (decorations this) ->
      (applyRegions regions this).1 = Return ()
      /\ calls (editor (applyRegions regions this).2) = calls (editor this)
      /\ expanded_decorations (decorations (applyRegions regions this).2)).
Proof.
  intros Hm ranges.
  destruct (applyRegions_callback_spec ranges (decorations this) m) as [Hf Hq].
  destruct (changeDecorations_decorations (applyRegions_callback ranges) this m Hm)
    as (Hd1 & Hm1 & Hp1 & Hc1 & Hr1).
  unfold applyRegions. rewrite Hm. fold ranges.
  destruct (changeDecorations (applyRegions_callback ranges) this)
    as [updated this1]. cbn [fst snd] in *. subst updated.
  split.
  - destruct (applyRegions_callback ranges (decorations this) m).1; simpl.
    + destruct (updateHiddenAreas_decorations None this1) as [-> _].
      by rewrite Hd1.
    + by rewrite Hd1.
  - intros Hex Hed. rewrite (Hq Hex Hed). simpl. split_and!; try done.
    rewrite Hd1. by apply (stands_for_expanded (decorations this) _ ranges).
Qed.

End WithHost.

(** ** An editor model to run the controller on *)

(** A model that keeps the range of every decoration under its id; the new
    ids are numbered.  Lines are 80 columns wide, changing the options of a
    decoration leaves its range alone, the ranges given are few enough for
    [limitByIndent] to keep them all, and [sort] is an insertion sort. *)
Record Lines := {
  next : nat;
  ranges : list (string * IRange.t)
}.

Fixpoint fresh (n : nat) : string :=
  match n with
  | O => "#"
  | S n => String "#"%char (fresh n)
  end.

Fixpoint place (news : list IModelDeltaDecoration) (m : Lines)
    : Lines * list string :=
  match news with
  | [] => (m, [])
  | decoration :: rest =>
      let id := fresh (next m) in
      let '(m', ids) :=
        place rest {| next := S (next m);
                      ranges := ranges m ++ [(id, range decoration)] |} in
      (m', id :: ids)
  end.

Definition insert_by_start (region : IFoldingRange.t)
    : list IFoldingRange.t -> list IFoldingRange.t :=
  fix go (sorted : list IFoldingRange.t) : list IFoldingRange.t :=
    match sorted with
    | [] => [region]
    | first :: rest =>
        if (IFoldingRange.startLineNumber region
            <? IFoldingRange.startLineNumber first)%Z
        then region :: sorted
        else first :: go rest
    end.

Definition lines : Host :=
  {| IModel := Lines;
     getLineMaxColumn := fun _ _ => 80%Z;
     getDecorationRange := fun m decoration =>
       match decoration with
       | Some id =>
           snd <$> List.find (fun entry => String.eqb entry.1 id) (ranges m)
       | None => None
       end;
     deltaDecorations := fun olds news m =>
       place news
         {| next := next m;
            ranges :=
              List.filter
                (fun entry => negb (existsb (String.eqb entry.1) olds))
                (ranges m) |};
     changeDecorationOptions := fun _ _ m => m;
     Range_containsPosition := fun r position =>
       negb ((lineNumber position <? IRange.startLineNumber r)%Z
             || (IRange.endLineNumber r <? lineNumber position)%Z
             || ((lineNumber position =? IRange.startLineNumber r)%Z
                 && (column position <? IRange.startColumn r)%Z)
             || ((lineNumber position =? IRange.endLineNumber r)%Z
                 && (IRange.endColumn r <? column position)%Z));
     limitByIndent := fun regions _ => regions;
     sort := fun regions =>
       foldl (fun sorted region => insert_by_start region sorted) [] regions |}.

Definition lines_1_to_10 : IFoldingRange.t :=
  {| IFoldingRange.startLineNumber := 1; IFoldingRange.endLineNumber := 10;
     IFoldingRange.indent := 0; IFoldingRange.isCollapsed := None |}.

Definition lines_3_to_5 : IFoldingRange.t :=
  {| IFoldingRange.startLineNumber := 3; IFoldingRange.endLineNumber := 5;
     IFoldingRange.indent := 2; IFoldingRange.isCollapsed := None |}.

Definition line_range (first last : Z) : IRange.t :=
  {| IRange.startLineNumber := first; IRange.startColumn := 1;
     IRange.endLineNumber := last; IRange.endColumn := 80 |}.

(** A model with the decorations of two regions, one inside the other. *)
Definition two_ranges : Lines :=
  {| next := 0;
     ranges := [ ("outer", line_range 1 1); ("outer lines", line_range 1 10);
                 ("inner", line_range 3 3); ("inner lines", line_range 3 5) ] |}.

Definition outer (collapsed : bool) : CollapsibleRegion :=
  {| decorationIds := ["outer"; "outer lines"]; _isCollapsed := collapsed;
     _indent := 0; _lastRange := Some lines_1_to_10 |}.

Definition inner (collapsed : bool) : CollapsibleRegion :=
  {| decorationIds := ["inner"; "inner lines"]; _isCollapsed := collapsed;
     _indent := 2; _lastRange := Some lines_3_to_5 |}.

(** The controller of an editor on that model, with the cursor on line 4. *)
Definition controller (outer_collapsed inner_collapsed : bool)
    : FoldingController lines :=
  {| editor := {| getModel := Some (two_ranges : IModel lines);
                  getPosition := {| lineNumber := 4; column := 1 |};
                  calls := [] |};
     decorations := [outer outer_collapsed; inner inner_collapsed] |}.

Lemma lines_keep_ranges (id : string) (options : IModelDecorationOptions)
    (m : IModel lines) (decoration : option string) :
  getDecorationRange lines (changeDecorationOptions lines id options m) decoration
  = getDecorationRange lines m decoration.
Proof. reflexivity. Qed.

Lemma fold_and_unfold_change_one_region_witness :
  decorations lines (fold lines 4 (controller false false)).2
  = [outer false; inner true]
  /\ decorations lines (unfold lines 4 (controller true true)).2
     = [outer false; inner true].
Proof.
  pose proof (fold_and_unfold_change_one_region lines 4 (controller false false)
                two_ranges eq_refl) as (_ & Hfold & _).
  pose proof (fold_and_unfold_change_one_region lines 4 (controller true true)
                two_ranges eq_refl) as (_ & _ & _ & Hunfold).
  split.
  - apply (Hfold 1 (inner false) eq_refl).
    + exists (inner false), (line_range 3 5). by split_and!.
    + intros j (dec & _ & Hj & _). apply lookup_lt_Some in Hj. simpl in Hj. lia.
  - apply (Hunfold 0 (outer true) eq_refl).
    + exists (outer true), (line_range 1 10). by split_and!.
    + intros j _. lia.
Defined.

Lemma changeAll_sets_every_region_witness :
  decorations lines (changeAll lines true (controller false true)).2
  = [outer true; inner true]
  /\ calls lines (editor lines (changeAll lines false (controller false true)).2)
     = [setHiddenAreas [];
        revealPositionInCenterIfOutsideViewport {| lineNumber := 4; column := 1 |}].
Proof.
  pose proof (changeAll_sets_every_region lines true (controller false true)
                two_ranges eq_refl) as (Hall & Hnone & _).
  split; [exact Hall|]. by apply Hnone.
Defined.

Lemma updateHiddenAreas_hides_the_collapsed_regions_witness :
  let this := controller false true in
  decorations lines (updateHiddenAreas lines None this).2 = decorations lines this
  /\ (updateHiddenAreas lines None this).1 = Return ()
  /\ calls lines (editor lines (updateHiddenAreas lines None this).2)
     = [setPosition {| lineNumber := 3; column := 80 |};
        setHiddenAreas
          [{| IRange.startLineNumber := 4; IRange.startColumn := 1;
              IRange.endLineNumber := 5; IRange.endColumn := 1 |}];
        revealPositionInCenterIfOutsideViewport {| lineNumber := 3; column := 80 |}]
  /\ getPosition lines (editor lines (updateHiddenAreas lines None this).2)
     = {| lineNumber := 3; column := 80 |}.
Proof.
  pose proof (updateHiddenAreas_hides_the_collapsed_regions lines None
                (controller false true) two_ranges eq_refl)
    as (Hsame & Hreturn & Hcalls & Hcursor & _).
  split; [exact Hsame|]. split; [exact Hreturn|].
  split; [exact Hcalls|exact Hcursor].
Defined.

Lemma fold_then_unfold_restores_the_regions_witness :
  decorations lines
    (unfold lines 4 (fold lines 4 (controller false false)).2).2
  = [outer false; inner false].
Proof.
  apply (fold_then_unfold_restores_the_regions lines lines_keep_ranges 4
           (controller false false) two_ranges eq_refl).
  intros j (dec & _ & Hj & Hcollapsed & _).
  destruct j as [|[|j]]; simpl in Hj; [| |done];
    injection Hj as <-; discriminate Hcollapsed.
Defined.

Lemma revealCursor_leaves_the_cursor_visible_witness :
  decorations lines (revealCursor lines (controller true true)).2
  = [outer false; inner false].
Proof.
  apply (revealCursor_leaves_the_cursor_visible lines lines_keep_ranges
           (controller true true) two_ranges eq_refl).
Defined.

Lemma applyRegions_keeps_one_region_per_range_witness :
  Forall2 (stands_for [outer false; inner true])
    (decorations lines
       (applyRegions lines [lines_3_to_5; lines_1_to_10] (controller false true)).2)
    [lines_1_to_10; lines_3_to_5].
Proof.
  apply (applyRegions_keeps_one_region_per_range lines
           [lines_3_to_5; lines_1_to_10] (controller false true) two_ranges eq_refl).
Defined.

End Folding.
